(** * StickyQR analytics SDK: delivery queue and plugin pipeline

    A shallow embedding of [src/core/queue.ts] and of the plugin part of
    [src/core/analytics.ts], with the types of [src/types.ts] they use.

    JavaScript runs the SDK on one cooperative thread: code between two
    [await]s is atomic.  Each [async] method is therefore split at its
    [await] into the part that runs when it is called and the continuation
    that runs when the awaited promise settles; what the environment decides
    (when a timer fires, how a [fetch] ends, the clock) is an input of the
    step. *)

From Stdlib Require Import String ZArith List Bool Lia Permutation Sorted DecimalString.
Import ListNotations.
Open Scope Z_scope.

(** ** [src/types.ts] *)

(** The [type] tag of an event; the six handler properties of a plugin are
    named after it. *)
Inductive EventType := Identify | Track | Page | Screen | Alias | Group.

(** [AnalyticsEvent]: the tag, the two fields every kind carries, and the
    remaining (kind-specific and optional) fields as a key/value list. *)
Record AnalyticsEvent := mkEvent {
  ev_type : EventType;
  ev_messageId : string;
  ev_timestamp : string;
  ev_fields : list (string * string)
}.

Record QueueItem := mkItem {
  event : AnalyticsEvent;
  attempts : Z;
  timestamp : Z
}.

Inductive PluginType := before | enrichment | destination | after.

(** How a call that may throw (or a promise that may reject) ends. *)
Inductive Completion (A : Type) :=
| Normal (a : A)
| Throw (err : string).
Arguments Normal {A} a.
Arguments Throw {A} err.

(** [Plugin].  [load] is how the promise of [load(analytics)] settles.
    [handler ty] is the property named after the event kind, [None] when
    the plugin does not define it; a handler resolves to an event or to
    [null] ([Normal None]), or rejects. *)
Record Plugin := mkPlugin {
  name : string;
  type : PluginType;
  load : Completion unit;
  handler : EventType -> option (AnalyticsEvent -> Completion (option AnalyticsEvent))
}.

(** [AnalyticsConfig] after [{ ...DEFAULT_CONFIG, ...config }]; [plugins]
    is [config.plugins || []]. *)
Module AnalyticsConfig.
Record t := mk {
  writeKey : string;
  apiHost : string;
  flushAt : Z;
  flushInterval : Z;
  maxQueueSize : Z;
  retryAttempts : Z;
  debug : bool;
  trackPageViews : bool;
  plugins : list Plugin
}.
End AnalyticsConfig.

(** ** [src/core/queue.ts] *)

Module Queue.

Record QueueConfig := mkConfig {
  flushAt : Z;
  flushInterval : Z;
  maxQueueSize : Z;
  retryAttempts : Z;
  apiHost : string;
  writeKey : string;
  debug : bool
}.

(** The handle [setInterval] returns; it remembers its period. *)
Inductive Timer := Interval (ms : Z).

(** What [sendBatch] hands to [fetch]. *)
Record Request := mkRequest {
  url : string;
  authKey : string;
  batchBody : list AnalyticsEvent
}.

(** How the promise of [fetch] settles. *)
Inductive FetchResult :=
| FetchRejected
| FetchResponse (ok : bool).

Inductive LogEntry :=
| LogEventQueued (e : AnalyticsEvent)
| WarnQueueExceeded
| LogBatchSent (n : nat)
| ErrBatchFailed
| WarnDropping (e : AnalyticsEvent).

(** The four private fields of the class, followed by the part of the
    environment the queue acts on: the [flush()] calls suspended at
    [await this.sendBatch(batch)] (each holds its local [batch]), the
    requests given to [fetch] so far, and the console. *)
Record t := mk {
  queue : list QueueItem;
  flushTimer : option Timer;
  config : QueueConfig;
  isFlushing : bool;
  inflight : list (list QueueItem);
  transport : list Request;
  console : list LogEntry
}.

Definition set_queue (l : list QueueItem) (q : t) : t :=
  mk l (flushTimer q) (config q) (isFlushing q) (inflight q) (transport q) (console q).

Definition set_flushTimer (tm : option Timer) (q : t) : t :=
  mk (queue q) tm (config q) (isFlushing q) (inflight q) (transport q) (console q).

Definition set_isFlushing (b : bool) (q : t) : t :=
  mk (queue q) (flushTimer q) (config q) b (inflight q) (transport q) (console q).

Definition set_inflight (l : list (list QueueItem)) (q : t) : t :=
  mk (queue q) (flushTimer q) (config q) (isFlushing q) l (transport q) (console q).

Definition set_transport (l : list Request) (q : t) : t :=
  mk (queue q) (flushTimer q) (config q) (isFlushing q) (inflight q) l (console q).

(** [if (this.config.debug) console.log(...)] *)
Definition debug_log (e : LogEntry) (q : t) : t :=
  if debug (config q)
  then mk (queue q) (flushTimer q) (config q) (isFlushing q) (inflight q)
          (transport q) (console q ++ [e])
  else q.

(** [startFlushInterval] *)
Definition startFlushInterval (q : t) : t :=
  set_flushTimer (Some (Interval (flushInterval (config q)))) q.

(** [constructor] *)
Definition new (cfg : QueueConfig) : t :=
  startFlushInterval (mk [] None cfg false [] [] []).

(** [size] *)
Definition size (q : t) : nat := length (queue q).

(** [sendBatch], up to [await fetchFn(url, fetchOptions)]: the request is
    built and given to [fetch].  Building it (the base64 of the key, the
    JSON of the events) is taken to succeed; [authKey] is the key that
    goes into the [Authorization] header. *)
Definition sendBatch (batch : list QueueItem) (q : t) : t :=
  let events := map event batch in
  set_transport
    (transport q ++
       [mkRequest (apiHost (config q) ++ "/v1/batch")%string (writeKey (config q)) events])
    q.

(** [sendBatch], from the settled [fetch] on: a rejection propagates, a
    response that is not [ok] throws. *)
Definition sendBatch_settled (r : FetchResult) : Completion unit :=
  match r with
  | FetchRejected => Throw "fetch rejected"%string
  | FetchResponse true => Normal tt
  | FetchResponse false => Throw "HTTP status not ok"%string
  end.

(** [flush], up to [await this.sendBatch(batch)]. *)
Definition flush (q : t) : t :=
  if isFlushing q || (length (queue q) =? 0)%nat then q
  else
    let q1 := set_isFlushing true q in
    let batch := queue q1 in
    let q2 := set_queue [] q1 in
    let q3 := sendBatch batch q2 in
    set_inflight (inflight q3 ++ [batch]) q3.

(** An item after [item.attempts++]. *)
Definition incremented (item : QueueItem) : QueueItem :=
  mkItem (event item) (attempts item + 1) (timestamp item).

(** One turn of the retry loop in the [catch] block. *)
Definition retry_item (q : t) (item : QueueItem) : t :=
  let item' := incremented item in
  if attempts item' <? retryAttempts (config q)
  then set_queue (queue q ++ [item']) q
  else debug_log (WarnDropping (event item')) q.

(** [flush], from the settled [sendBatch] on: the rest of [try], the
    [catch] block and [finally]. *)
Definition flush_settled (r : FetchResult) (batch : list QueueItem) (q : t) : t :=
  let q1 :=
    match sendBatch_settled r with
    | Normal _ => debug_log (LogBatchSent (length batch)) q
    | Throw _ => fold_left retry_item batch (debug_log ErrBatchFailed q)
    end in
  set_isFlushing false q1.

(** [push]; [now] is what [Date.now()] returns.  [shift] on an empty
    array leaves it empty, as [tl] does. *)
Definition push (e : AnalyticsEvent) (now : Z) (q : t) : t :=
  let item := mkItem e 0 now in
  let q1 := set_queue (queue q ++ [item]) q in
  let q2 := debug_log (LogEventQueued e) q1 in
  let q3 := if flushAt (config q2) <=? Z.of_nat (length (queue q2))
            then flush q2 else q2 in
  if maxQueueSize (config q3) <? Z.of_nat (length (queue q3))
  then debug_log WarnQueueExceeded (set_queue (tl (queue q3)) q3)
  else q3.

(** [stopFlushInterval] *)
Definition stopFlushInterval (q : t) : t :=
  match flushTimer q with
  | Some _ => set_flushTimer None q
  | None => q
  end.

(** [clear] *)
Definition clear (q : t) : t := set_queue [] q.

(** [destroy] *)
Definition destroy (q : t) : t :=
  clear (flush (stopFlushInterval q)).

(** *** The queue among its callers

    What can happen to a queue, one atomic step each: a method call, the
    interval timer firing (only while it is set), or the oldest pending
    [fetch] settling, which resumes the [flush()] that awaits it. *)
Inductive Action :=
| APush (e : AnalyticsEvent) (now : Z)
| AFlush
| ATick
| ASettle (r : FetchResult)
| AStopFlushInterval
| AClear
| ADestroy.

Definition step (q : t) (a : Action) : t :=
  match a with
  | APush e now => push e now q
  | AFlush => flush q
  | ATick => match flushTimer q with Some _ => flush q | None => q end
  | ASettle r =>
      match inflight q with
      | [] => q
      | batch :: rest => flush_settled r batch (set_inflight rest q)
      end
  | AStopFlushInterval => stopFlushInterval q
  | AClear => clear q
  | ADestroy => destroy q
  end.

Definition run (tr : list Action) (q : t) : t := fold_left step tr q.

Definition failed (r : FetchResult) : bool :=
  match sendBatch_settled r with Normal _ => false | Throw _ => true end.

(** No send fails in [tr]. *)
Definition no_failure (tr : list Action) : bool :=
  forallb (fun a => match a with ASettle r => negb (failed r) | _ => true end) tr.

(** No send settles in [tr]. *)
Definition no_settle (tr : list Action) : bool :=
  forallb (fun a => match a with ASettle _ => false | _ => true end) tr.

(** The eviction rule in the words of the specification: drop from the
    head until the length is at most [maxQueueSize]. *)
Fixpoint evict_until (maxSize : Z) (l : list QueueItem) : list QueueItem :=
  match l with
  | [] => []
  | _ :: rest =>
      if maxSize <? Z.of_nat (length l) then evict_until maxSize rest else l
  end.

(** [await queue.flush()] when the send, if one is started, ends as [r]. *)
Definition flush_and_wait (r : FetchResult) (q : t) : t :=
  step (step q AFlush) (ASettle r).

(** [push] before its eviction check: append, then the flush check. *)
Definition push_then_flush (e : AnalyticsEvent) (now : Z) (q : t) : t :=
  let q2 := debug_log (LogEventQueued e) (set_queue (queue q ++ [mkItem e 0 now]) q) in
  if flushAt (config q2) <=? Z.of_nat (length (queue q2)) then flush q2 else q2.

(** The in-flight flag tells whether a send is pending, and at most one is. *)
Definition exclusive (q : t) : Prop :=
  (isFlushing q = false /\ inflight q = []) \/
  (isFlushing q = true /\ exists batch, inflight q = [batch]).

(** *** Concrete data for the scenarios

    [defaultConfig] is the one of [src/core/__tests__/queue.test.ts];
    [tightConfig] flushes at three events and holds at most two. *)
Definition defaultConfig : QueueConfig :=
  mkConfig 5 10000 10 3 "https://api.test.com" "test-write-key" false.

Definition tightConfig : QueueConfig :=
  mkConfig 3 10000 2 3 "https://api.test.com" "test-write-key" false.

Definition trackEvent (n : string) : AnalyticsEvent :=
  mkEvent Track ("msg-" ++ n) "2024-01-15T10:00:00.000Z" [("event", n)]%string.

(** Push one event, then [await queue.flush()] four times while every
    send fails as [r]. *)
Definition four_failed_flushes (r : FetchResult) (e : AnalyticsEvent) (now : Z)
    (cfg : QueueConfig) : t :=
  flush_and_wait r (flush_and_wait r (flush_and_wait r (flush_and_wait r
    (push e now (new cfg))))).

(** Two events are sent, two more are pushed while the send is in flight,
    then the send fails. *)
Definition overflow_trace : list Action :=
  [APush (trackEvent "0") 0; APush (trackEvent "1") 1; AFlush;
   APush (trackEvent "2") 2; APush (trackEvent "3") 3; ASettle FetchRejected].

End Queue.

(** ** [src/core/analytics.ts]: plugins and the way of an event to the queue

    Identity and storage ([_userId], [_traits], [Storage]) take no part in
    the plugin pipeline and are left out here; they come further down. *)

Module Analytics.

Inductive LogEntry :=
| LogPluginLoaded (plugin : string)
| ErrPluginLoad (plugin : string) (err : string)
| ErrPlugin (plugin : string) (err : string).

(** A [Map<string, Plugin>] iterates in insertion order, and [set] on a
    key that is present replaces the value where the key stands. *)
Definition PluginMap := list (string * Plugin).

Fixpoint map_set (k : string) (v : Plugin) (m : PluginMap) : PluginMap :=
  match m with
  | [] => [(k, v)]
  | (k', v') :: rest =>
      if String.eqb k' k then (k, v) :: rest else (k', v') :: map_set k v rest
  end.

Definition map_values (m : PluginMap) : list Plugin := map snd m.

(** The fields [config], [queue], [plugins] and [isReady] of the class,
    then the environment: [loading] is [loadPlugins] suspended in its loop
    (the head is the plugin whose [load] is awaited, the tail is still to
    come), [detached] are the [load] promises [register] started and
    dropped, [invoked] the handler calls made so far with their argument,
    [unhandled] the rejections nobody caught, and the console. *)
Record t := mk {
  config : AnalyticsConfig.t;
  queue : Queue.t;
  plugins : PluginMap;
  isReady : bool;
  loading : list Plugin;
  detached : list Plugin;
  invoked : list (string * AnalyticsEvent);
  unhandled : list (string * string);
  console : list LogEntry
}.

Definition set_config (c : AnalyticsConfig.t) (a : t) : t :=
  mk c (queue a) (plugins a) (isReady a) (loading a) (detached a)
     (invoked a) (unhandled a) (console a).

Definition set_queue (q : Queue.t) (a : t) : t :=
  mk (config a) q (plugins a) (isReady a) (loading a) (detached a)
     (invoked a) (unhandled a) (console a).

Definition set_plugins (m : PluginMap) (a : t) : t :=
  mk (config a) (queue a) m (isReady a) (loading a) (detached a)
     (invoked a) (unhandled a) (console a).

Definition set_isReady (b : bool) (a : t) : t :=
  mk (config a) (queue a) (plugins a) b (loading a) (detached a)
     (invoked a) (unhandled a) (console a).

Definition set_loading (l : list Plugin) (a : t) : t :=
  mk (config a) (queue a) (plugins a) (isReady a) l (detached a)
     (invoked a) (unhandled a) (console a).

Definition set_detached (l : list Plugin) (a : t) : t :=
  mk (config a) (queue a) (plugins a) (isReady a) (loading a) l
     (invoked a) (unhandled a) (console a).

Definition add_invoked (c : string * AnalyticsEvent) (a : t) : t :=
  mk (config a) (queue a) (plugins a) (isReady a) (loading a) (detached a)
     (invoked a ++ [c]) (unhandled a) (console a).

Definition add_unhandled (c : string * string) (a : t) : t :=
  mk (config a) (queue a) (plugins a) (isReady a) (loading a) (detached a)
     (invoked a) (unhandled a ++ [c]) (console a).

Definition log (e : LogEntry) (a : t) : t :=
  mk (config a) (queue a) (plugins a) (isReady a) (loading a) (detached a)
     (invoked a) (unhandled a) (console a ++ [e]).

(** [typeOrder] *)
Definition typeOrder (ty : PluginType) : Z :=
  match ty with
  | before => 0
  | enrichment => 1
  | destination => 2
  | after => 3
  end.

(** The comparator given to [sort]. *)
Definition byTypeOrder (a b : Plugin) : Z :=
  typeOrder (type a) - typeOrder (type b).

(** [Array.prototype.sort] is stable (ECMAScript 2019), so for a
    consistent comparator its result does not depend on the engine: it is
    the one an insertion sort gives that never moves an element past an
    equal one. *)
Fixpoint insert {A : Type} (cmp : A -> A -> Z) (x : A) (l : list A) : list A :=
  match l with
  | [] => [x]
  | y :: rest => if cmp x y <=? 0 then x :: l else y :: insert cmp x rest
  end.

Fixpoint Array_sort {A : Type} (cmp : A -> A -> Z) (l : list A) : list A :=
  match l with
  | [] => []
  | x :: rest => insert cmp x (Array_sort cmp rest)
  end.

(** [loadPlugins], up to the first [await plugin.load(this)]; [sort]
    sorts [config.plugins] in place.  With no plugin the loop body never
    runs and [isReady] is set at once. *)
Definition loadPlugins (a : t) : t :=
  let c := config a in
  let sortedPlugins := Array_sort byTypeOrder (AnalyticsConfig.plugins c) in
  let a1 := set_config
              (AnalyticsConfig.mk
                 (AnalyticsConfig.writeKey c) (AnalyticsConfig.apiHost c)
                 (AnalyticsConfig.flushAt c) (AnalyticsConfig.flushInterval c)
                 (AnalyticsConfig.maxQueueSize c) (AnalyticsConfig.retryAttempts c)
                 (AnalyticsConfig.debug c) (AnalyticsConfig.trackPageViews c)
                 sortedPlugins) a in
  match sortedPlugins with
  | [] => set_isReady true a1
  | _ :: _ => set_loading sortedPlugins a1
  end.

(** [loadPlugins], from one settled [load] to the next [await] (or to the
    end of the loop). *)
Definition loadPlugins_resume (a : t) : t :=
  match loading a with
  | [] => a
  | plugin :: rest =>
      let a1 :=
        match load plugin with
        | Normal _ =>
            let a' := set_plugins (map_set (name plugin) plugin (plugins a)) a in
            if AnalyticsConfig.debug (config a') then log (LogPluginLoaded (name plugin)) a' else a'
        | Throw err => log (ErrPluginLoad (name plugin) err) a
        end in
      let a2 := set_loading rest a1 in
      match rest with
      | [] => set_isReady true a2
      | _ :: _ => a2
      end
  end.

(** [constructor], to the call of [loadPlugins]; the automatic page view
    that may follow is [constructor] below. *)
Definition new (cfg : AnalyticsConfig.t) : t :=
  let queueConfig :=
    Queue.mkConfig
      (AnalyticsConfig.flushAt cfg) (AnalyticsConfig.flushInterval cfg)
      (AnalyticsConfig.maxQueueSize cfg) (AnalyticsConfig.retryAttempts cfg)
      (AnalyticsConfig.apiHost cfg) (AnalyticsConfig.writeKey cfg)
      (AnalyticsConfig.debug cfg) in
  loadPlugins (mk cfg (Queue.new queueConfig) [] false [] [] [] [] []).

(** The instance once all [n] awaited loads have settled. *)
Definition loaded (cfg : AnalyticsConfig.t) : t :=
  Nat.iter (length (AnalyticsConfig.plugins cfg)) loadPlugins_resume (new cfg).

(** The loop of [processEvent].  The handler is looked up under the type
    of the event [processEvent] was called with; each handler is awaited
    before the next plugin is looked at.  The loop is run against the
    plugin map as it stands when the event arrives. *)
Fixpoint processEvent_loop (ty : EventType) (ps : list Plugin)
    (processedEvent : option AnalyticsEvent) (a : t) : option AnalyticsEvent * t :=
  match ps with
  | [] => (processedEvent, a)
  | plugin :: rest =>
      match processedEvent with
      | None => (None, a)
      | Some ev =>
          match handler plugin ty with
          | Some h =>
              let a1 := add_invoked (name plugin, ev) a in
              match h ev with
              | Normal r => processEvent_loop ty rest r a1
              | Throw err =>
                  processEvent_loop ty rest (Some ev)
                    (log (ErrPlugin (name plugin) err) a1)
              end
          | None => processEvent_loop ty rest (Some ev) a
          end
      end
  end.

(** [processEvent] *)
Definition processEvent (event : AnalyticsEvent) (a : t)
  : Completion (option AnalyticsEvent) * t :=
  let (processedEvent, a') :=
    processEvent_loop (ev_type event) (map_values (plugins a)) (Some event) a in
  (Normal processedEvent, a').

(** The last three lines of [identify], [track], [page], [screen],
    [alias] and [group]: [await this.processEvent(event)], then [push]
    unless the result is [null]. *)
Definition deliver (event : AnalyticsEvent) (now : Z) (a : t) : Completion unit * t :=
  match processEvent event a with
  | (Normal (Some processedEvent), a') =>
      (Normal tt, set_queue (Queue.push processedEvent now (queue a')) a')
  | (Normal None, a') => (Normal tt, a')
  | (Throw err, a') => (Throw err, a')
  end.

(** [track]; [msgId] and [ts] are the [messageId] and [timestamp]
    [buildBaseEvent] produces, [base] its other fields. *)
Definition track (eventName : string) (properties : string)
    (msgId ts : string) (base : list (string * string)) (now : Z) (a : t)
  : Completion unit * t :=
  let event :=
    mkEvent Track msgId ts
            (("event", eventName) :: ("properties", properties) :: base)%string in
  deliver event now a.

(** [register]: [set], then [plugin.load(this)] whose promise is dropped. *)
Definition register (plugin : Plugin) (a : t) : t :=
  let a1 := set_plugins (map_set (name plugin) plugin (plugins a)) a in
  set_detached (detached a1 ++ [plugin]) a1.

(** The oldest [load] started by [register] settles: no continuation is
    attached to it, a rejection stays unhandled. *)
Definition register_load_settled (a : t) : t :=
  match detached a with
  | [] => a
  | plugin :: rest =>
      let a1 := set_detached rest a in
      match load plugin with
      | Normal _ => a1
      | Throw err => add_unhandled (name plugin, err) a1
      end
  end.

(** [destroy] *)
Definition destroy (a : t) : t :=
  set_plugins [] (set_queue (Queue.destroy (queue a)) a).

(** [document.readyState] *)
Inductive ReadyState := Loading | Interactive | Complete.

(** What is left of the automatic page view when the constructor
    returns: nothing, the call [this.page()] suspended at
    [await this.processEvent(event)] with the event it is going to push,
    or a listener for the [load] event of the window, which calls
    [this.page()] when it fires. *)
Inductive PageView :=
| NoPageView
| PushPending (processedEvent : AnalyticsEvent)
| OnLoad.

(** [trackInitialPageView]; [document] is [None] where the global is not
    defined, [pageEvent] is the event [this.page()] builds.  [page()]
    runs as far as its [await]: [processEvent] goes through the plugin
    map as it stands, and the [push] is left for the continuation. *)
Definition trackInitialPageView (document : option ReadyState)
    (pageEvent : AnalyticsEvent) (a : t) : Completion (t * PageView) :=
  match document with
  | None => Throw "ReferenceError: document is not defined"%string
  | Some Complete =>
      match processEvent pageEvent a with
      | (Normal (Some processedEvent), a') => Normal (a', PushPending processedEvent)
      | (_, a') => Normal (a', NoPageView)
      end
  | Some _ => Normal (a, OnLoad)
  end.

(** [constructor], whole: [window] tells whether the global [window] is
    defined. *)
Definition constructor (window : bool) (document : option ReadyState)
    (pageEvent : AnalyticsEvent) (cfg : AnalyticsConfig.t) : Completion (t * PageView) :=
  let a := new cfg in
  if AnalyticsConfig.trackPageViews cfg && window
  then trackInitialPageView document pageEvent a
  else Normal (a, NoPageView).


(** The names of the plugins [processEvent] called, in call order. *)
Definition invoked_names (a : t) : list string := map fst (invoked a).

Definition has_handler (ty : EventType) (p : Plugin) : bool :=
  match handler p ty with Some _ => true | None => false end.

Definition load_ok (p : Plugin) : bool :=
  match load p with Normal _ => true | Throw _ => false end.

(** Same stage ([typeOrder] gives each stage its own rank). *)
Definition PluginType_eqb (x y : PluginType) : bool :=
  typeOrder x =? typeOrder y.

(** [p] may run before [q]. *)
Definition stage_le (p q : Plugin) : Prop :=
  typeOrder (type p) <= typeOrder (type q).

(** The map entry [set(plugin.name, plugin)] writes. *)
Definition entry (p : Plugin) : string * Plugin := (name p, p).

(** What one turn of the loop of [loadPlugins] does to the map. *)
Definition load_into (m : PluginMap) (p : Plugin) : PluginMap :=
  if load_ok p then map_set (name p) p m else m.

(** *** Concrete data for the scenarios

    [testConfig] carries the values of [DEFAULT_CONFIG], and
    [trackPageViews: false] as the tests have it. *)
Definition testConfig (ps : list Plugin) : AnalyticsConfig.t :=
  AnalyticsConfig.mk "test-write-key" "https://api.stickyqr.com/analytics"
                     20 10000 100 3 false false ps.

Definition passes : EventType -> option (AnalyticsEvent -> Completion (option AnalyticsEvent)) :=
  fun _ => Some (fun ev => Normal (Some ev)).

(** Adds a field, as an enrichment plugin does. *)
Definition enriches : EventType -> option (AnalyticsEvent -> Completion (option AnalyticsEvent)) :=
  fun _ => Some (fun ev =>
    Normal (Some (mkEvent (ev_type ev) (ev_messageId ev) (ev_timestamp ev)
                          (("enriched", "true") :: ev_fields ev)%string))).

Definition vetoes : EventType -> option (AnalyticsEvent -> Completion (option AnalyticsEvent)) :=
  fun _ => Some (fun _ => Normal None).

Definition throws : EventType -> option (AnalyticsEvent -> Completion (option AnalyticsEvent)) :=
  fun _ => Some (fun _ => Throw "handler failed"%string).

Definition validator : Plugin := mkPlugin "validator" before (Normal tt) passes.
Definition enricher : Plugin := mkPlugin "enricher" enrichment (Normal tt) enriches.
Definition logger : Plugin := mkPlugin "logger" after (Normal tt) passes.
Definition blocker : Plugin := mkPlugin "blocker" before (Normal tt) vetoes.
Definition faulty : Plugin := mkPlugin "faulty" before (Normal tt) throws.
Definition unloadable : Plugin :=
  mkPlugin "unloadable" enrichment (Throw "load failed"%string) enriches.

Definition clicked : AnalyticsEvent :=
  mkEvent Track "msg-1" "2024-01-15T10:00:00.000Z" [("event", "Button Clicked")]%string.


End Analytics.

(** ** Observing a queue over a run *)

Module QueueObs.
Import Queue.

(** The calls [push(e)] for the events of [es], in order. *)
Definition pushes (es : list (AnalyticsEvent * Z)) : list Action :=
  map (fun et => APush (fst et) (snd et)) es.

(** The events pushed along a run, in call order. *)
Definition pushed_events (tr : list Action) : list AnalyticsEvent :=
  flat_map (fun a => match a with APush e _ => [e] | _ => [] end) tr.

(** The events carried by the requests made so far, in request order. *)
Definition sent_events (q : t) : list AnalyticsEvent :=
  flat_map batchBody (transport q).

(** Every event a queue holds or has handed over. *)
Definition events_of (q : t) : list AnalyticsEvent :=
  map event (queue q) ++ flat_map (map event) (inflight q) ++ sent_events q.

(** The request [sendBatch] builds for [batch]. *)
Definition request_of (q : t) (batch : list QueueItem) : Request :=
  mkRequest (apiHost (config q) ++ "/v1/batch")%string (writeKey (config q))
            (map event batch).

(** The item [push] makes of an event and the time of the call. *)
Definition fresh (et : AnalyticsEvent * Z) : QueueItem := mkItem (fst et) 0 (snd et).

(** What the retry loop keeps of a failed batch under [cfg]. *)
Definition survivors (cfg : QueueConfig) (batch : list QueueItem) : list QueueItem :=
  filter (fun i => attempts i <? retryAttempts cfg) (map incremented batch).

(** A request as [sendBatch] builds it under [cfg], for a batch that is
    not empty. *)
Definition well_formed (cfg : QueueConfig) (r : Request) : Prop :=
  url r = (apiHost cfg ++ "/v1/batch")%string
  /\ authKey r = writeKey cfg
  /\ batchBody r <> [].

(** An [attempts] counter the code can produce under [cfg]. *)
Definition counted (cfg : QueueConfig) (i : QueueItem) : Prop :=
  0 <= attempts i /\ (attempts i = 0 \/ attempts i < retryAttempts cfg).

(** All items of a queue, waiting or in flight, are [counted]. *)
Definition all_counted (q : t) : Prop :=
  Forall (counted (config q)) (queue q)
  /\ Forall (Forall (counted (config q))) (inflight q).

(** Runs made of [push], [flush], timer ticks, [stopFlushInterval] and
    sends that succeed. *)
Definition undisturbed (tr : list Action) : bool :=
  forallb (fun a => match a with
                    | APush _ _ | AFlush | ATick | AStopFlushInterval => true
                    | ASettle r => negb (failed r)
                    | AClear | ADestroy => false
                    end) tr.

End QueueObs.

(** ** Observing an instance over a run *)

Module AnalyticsObs.
Import Analytics.


(** What can happen to an instance, one atomic step each: [register], the
    awaited [load] of [loadPlugins] settling, a [load] started by
    [register] settling, an event submitted and processed, [destroy], or
    something happening to its queue. *)
Inductive Call :=
| CRegister (p : Plugin)
| CLoadSettled
| CRegisterLoadSettled
| CDeliver (e : AnalyticsEvent) (now : Z)
| CDestroy
| CQueue (a : Queue.Action).

Definition call (a : t) (c : Call) : t :=
  match c with
  | CRegister p => register p a
  | CLoadSettled => loadPlugins_resume a
  | CRegisterLoadSettled => register_load_settled a
  | CDeliver e now => snd (deliver e now a)
  | CDestroy => destroy a
  | CQueue qa => set_queue (Queue.step (queue a) qa) a
  end.

Definition calls (cs : list Call) (a : t) : t := fold_left call cs a.

(** The plugins given to [register] along a run. *)
Definition registered (cs : list Call) : list Plugin :=
  flat_map (fun c => match c with CRegister p => [p] | _ => [] end) cs.

(** The keys of the plugin map, in iteration order. *)
Definition keys (m : PluginMap) : list string := map fst m.


(** Runs in which no plugin enters the map: no [register], and no
    awaited [load] of [loadPlugins] settling. *)
Definition enters_no_plugin (cs : list Call) : bool :=
  forallb (fun c => match c with
                    | CRegister _ | CLoadSettled => false
                    | _ => true
                    end) cs.

End AnalyticsObs.

(** ** [src/utils/platform.ts] *)

Module Platform.

Inductive PlatformType := web | react_native | node.

Record PlatformInfo := mkInfo {
  type : PlatformType;
  isWeb : bool;
  isReactNative : bool;
  isNode : bool;
  hasWindow : bool;
  hasDocument : bool;
  hasNavigator : bool
}.

(** The globals the detection reads: whether [window], [document] and
    [process] are defined, and [navigator] ([None] when undefined) with
    its [product] ([None] when it has none). *)
Record Globals := mkGlobals {
  window : bool;
  document : bool;
  navigator : option (option string);
  process : bool
}.

(** The body of [getPlatform] after the cache check. *)
Definition detect (g : Globals) : PlatformInfo :=
  let hasWindow := window g in
  let hasDocument := document g in
  let hasNavigator := match navigator g with Some _ => true | None => false end in
  let isReactNative :=
    hasNavigator &&
    match navigator g with
    | Some (Some product) => String.eqb product "ReactNative"
    | _ => false
    end in
  let isWeb := hasWindow && hasDocument && negb isReactNative in
  let isNode := negb hasWindow && process g in
  let type := if isReactNative then react_native
              else if isWeb then web else node in
  mkInfo type isWeb isReactNative isNode hasWindow hasDocument hasNavigator.

(** [getPlatform]; [cachedPlatform] is the module-level variable, given
    and returned. *)
Definition getPlatform (cachedPlatform : option PlatformInfo) (g : Globals)
  : PlatformInfo * option PlatformInfo :=
  match cachedPlatform with
  | Some info => (info, cachedPlatform)
  | None => let info := detect g in (info, Some info)
  end.

End Platform.

(** ** [src/utils/storage.ts]

    [JSON.parse] and [JSON.stringify] are the platform's: [Json] stands
    for the values they produce and accept, [JSON_parse] gives [None]
    where [JSON.parse] throws.  The cookie jar behind [document.cookie]
    is the browser's as well; the three operations of [CookieAdapter] on
    it are taken as given. *)

Module Storage.

(** What an adapter's [get] can give back. *)
Inductive Got := Undefined | Null | Text (s : string).

(** A [Map<string, string>] or the items of a key-value store. *)
Definition Items := list (string * string).

Fixpoint lookup (k : string) (m : Items) : option string :=
  match m with
  | [] => None
  | (k', v) :: rest => if String.eqb k' k then Some v else lookup k rest
  end.

Fixpoint update (k v : string) (m : Items) : Items :=
  match m with
  | [] => [(k, v)]
  | (k', v') :: rest =>
      if String.eqb k' k then (k, v) :: rest else (k', v') :: update k v rest
  end.

Fixpoint delete (k : string) (m : Items) : Items :=
  match m with
  | [] => []
  | (k', v') :: rest =>
      if String.eqb k' k then rest else (k', v') :: delete k rest
  end.

(** The browser's [localStorage]: not there at all (every access throws),
    or there with its items; [rejectsWrites] when [setItem] throws (quota
    reached, storage disabled for writing). *)
Inductive LocalStorage :=
| Missing
| Present (rejectsWrites : bool) (items : Items).

Definition getItem (k : string) (ls : LocalStorage) : Completion (option string) :=
  match ls with
  | Missing => Throw "localStorage is not defined"%string
  | Present _ items => Normal (lookup k items)
  end.

Definition setItem (k v : string) (ls : LocalStorage) : Completion LocalStorage :=
  match ls with
  | Missing => Throw "localStorage is not defined"%string
  | Present true _ => Throw "QuotaExceededError"%string
  | Present false items => Normal (Present false (update k v items))
  end.

Definition removeItem (k : string) (ls : LocalStorage) : Completion LocalStorage :=
  match ls with
  | Missing => Throw "localStorage is not defined"%string
  | Present w items => Normal (Present w (delete k items))
  end.

(** React Native's AsyncStorage module: not installed ([require]
    throws), or installed with its items; [failing] when its promises
    reject. *)
Inductive AsyncStorage :=
| NotInstalled
| Installed (failing : bool) (items : Items).

Module LocalStorageAdapter.

(** [isAvailable] writes and removes a test key. *)
Definition isAvailable (ls : LocalStorage) : bool * LocalStorage :=
  match setItem "__analytics_test__" "test" ls with
  | Normal ls1 =>
      match removeItem "__analytics_test__" ls1 with
      | Normal ls2 => (true, ls2)
      | Throw _ => (false, ls1)
      end
  | Throw _ => (false, ls)
  end.

Definition get (key : string) (ls : LocalStorage) : Got * LocalStorage :=
  let (available, ls1) := isAvailable ls in
  if negb available then (Null, ls1)
  else match getItem key ls1 with
       | Normal (Some v) => (Text v, ls1)
       | Normal None => (Null, ls1)
       | Throw _ => (Null, ls1)
       end.

Definition set (key value : string) (ls : LocalStorage) : LocalStorage :=
  let (available, ls1) := isAvailable ls in
  if negb available then ls1
  else match setItem key value ls1 with
       | Normal ls2 => ls2
       | Throw _ => ls1
       end.

Definition remove (key : string) (ls : LocalStorage) : LocalStorage :=
  let (available, ls1) := isAvailable ls in
  if negb available then ls1
  else match removeItem key ls1 with
       | Normal ls2 => ls2
       | Throw _ => ls1
       end.

End LocalStorageAdapter.

Module MemoryAdapter.

(** [this.store.get(key) || null]: a missing key and an empty string both
    give [null]. *)
Definition get (key : string) (store : Items) : Got :=
  match lookup key store with
  | Some v => if String.eqb v "" then Null else Text v
  | None => Null
  end.

Definition set (key value : string) (store : Items) : Items := update key value store.

Definition remove (key : string) (store : Items) : Items := delete key store.

End MemoryAdapter.

Module AsyncStorageAdapter.

(** Each method with its [await] done; a rejection is caught and gives
    [null] or nothing. *)
Definition get (key : string) (st : AsyncStorage) : Got :=
  match st with
  | NotInstalled => Null
  | Installed true _ => Null
  | Installed false items =>
      match lookup key items with Some v => Text v | None => Null end
  end.

Definition set (key value : string) (st : AsyncStorage) : AsyncStorage :=
  match st with
  | Installed false items => Installed false (update key value items)
  | _ => st
  end.

Definition remove (key : string) (st : AsyncStorage) : AsyncStorage :=
  match st with
  | Installed false items => Installed false (delete key items)
  | _ => st
  end.

End AsyncStorageAdapter.

Section WithPlatform.

Variable Json : Type.
Variable JSON_parse : string -> option Json.
Variable JSON_stringify : Json -> Completion string.
Variable CookieJar : Type.
Variable cookie_get : string -> CookieJar -> Got.
Variable cookie_set : string -> string -> CookieJar -> CookieJar.
Variable cookie_remove : string -> CookieJar -> CookieJar.

(** What lives outside a [Storage] instance. *)
Record World := mkWorld {
  localStorage : LocalStorage;
  asyncStorage : AsyncStorage;
  cookies : CookieJar
}.

(** The adapter a [Storage] holds; the memory adapter carries its map. *)
Inductive Adapter :=
| UseLocalStorage
| UseAsyncStorage
| UseCookies
| UseMemory (store : Items).

Record t := mk {
  adapter : Adapter;
  isAsync : bool
}.

(** [adapter.get(key)], [adapter.set(key, value)] and
    [adapter.remove(key)], awaited where the adapter is asynchronous. *)
Definition adapter_get (key : string) (s : t) (w : World) : Got * World :=
  match adapter s with
  | UseLocalStorage =>
      let (v, ls) := LocalStorageAdapter.get key (localStorage w) in
      (v, mkWorld ls (asyncStorage w) (cookies w))
  | UseAsyncStorage => (AsyncStorageAdapter.get key (asyncStorage w), w)
  | UseCookies => (cookie_get key (cookies w), w)
  | UseMemory store => (MemoryAdapter.get key store, w)
  end.

Definition adapter_set (key value : string) (s : t) (w : World) : t * World :=
  match adapter s with
  | UseLocalStorage =>
      (s, mkWorld (LocalStorageAdapter.set key value (localStorage w))
                  (asyncStorage w) (cookies w))
  | UseAsyncStorage =>
      (s, mkWorld (localStorage w)
                  (AsyncStorageAdapter.set key value (asyncStorage w)) (cookies w))
  | UseCookies =>
      (s, mkWorld (localStorage w) (asyncStorage w) (cookie_set key value (cookies w)))
  | UseMemory store => (mk (UseMemory (MemoryAdapter.set key value store)) (isAsync s), w)
  end.

Definition adapter_remove (key : string) (s : t) (w : World) : t * World :=
  match adapter s with
  | UseLocalStorage =>
      (s, mkWorld (LocalStorageAdapter.remove key (localStorage w))
                  (asyncStorage w) (cookies w))
  | UseAsyncStorage =>
      (s, mkWorld (localStorage w)
                  (AsyncStorageAdapter.remove key (asyncStorage w)) (cookies w))
  | UseCookies =>
      (s, mkWorld (localStorage w) (asyncStorage w) (cookie_remove key (cookies w)))
  | UseMemory store => (mk (UseMemory (MemoryAdapter.remove key store)) (isAsync s), w)
  end.

(** [constructor]; [info] is what [getPlatform()] returns, [hasDocument]
    is [typeof document !== 'undefined'] at that moment. *)
Definition new (info : Platform.PlatformInfo) (hasDocument : bool) (w : World)
  : t * World :=
  if Platform.isReactNative info then (mk UseAsyncStorage true, w)
  else if Platform.isWeb info then
    let (probe, ls) := LocalStorageAdapter.get "__test__" (localStorage w) in
    let w1 := mkWorld ls (asyncStorage w) (cookies w) in
    match probe with
    | Undefined =>
        if hasDocument then (mk UseCookies false, w1)
        else (mk (UseMemory []) false, w1)
    | _ => (mk UseLocalStorage false, w1)
    end
  else (mk (UseMemory []) false, w).

(** A value given to [set]: a string, or anything else. *)
Inductive Value := VString (s : string) | VJson (j : Json).

(** A value [get] returns: [null], the stored text parsed, or the text
    itself where it does not parse ([undefined] included). *)
Inductive Loaded := LNull | LUndefined | LText (s : string) | LJson (j : Json).

(** The common end of [get] and [getSync]. *)
Definition decode (value : Got) : Loaded :=
  match value with
  | Null => LNull
  | Undefined => LUndefined
  | Text s => match JSON_parse s with Some j => LJson j | None => LText s end
  end.

(** [typeof value === 'string' ? value : JSON.stringify(value)] *)
Definition serialize (value : Value) : Completion string :=
  match value with
  | VString s => Normal s
  | VJson j => JSON_stringify j
  end.

(** [get] *)
Definition get (key : string) (s : t) (w : World) : Loaded * World :=
  let (value, w1) := adapter_get key s w in (decode value, w1).

(** [getSync] *)
Definition getSync (key : string) (s : t) (w : World) : Completion Loaded * World :=
  if isAsync s
  then (Throw "Storage is async, use get() instead of getSync()"%string, w)
  else let (value, w1) := adapter_get key s w in (Normal (decode value), w1).

(** [set]; a value that cannot be serialized is dropped with a warning. *)
Definition set (key : string) (value : Value) (s : t) (w : World) : t * World :=
  match serialize value with
  | Normal serialized => adapter_set key serialized s w
  | Throw _ => (s, w)
  end.

(** [setSync] *)
Definition setSync (key : string) (value : Value) (s : t) (w : World)
  : Completion unit * (t * World) :=
  if isAsync s
  then (Throw "Storage is async, use set() instead of setSync()"%string, (s, w))
  else (Normal tt, set key value s w).

(** [remove] *)
Definition remove (key : string) (s : t) (w : World) : t * World :=
  adapter_remove key s w.

(** [removeSync] *)
Definition removeSync (key : string) (s : t) (w : World) : Completion unit * (t * World) :=
  if isAsync s
  then (Throw "Storage is async, use remove() instead of removeSync()"%string, (s, w))
  else (Normal tt, adapter_remove key s w).

End WithPlatform.

End Storage.

(** The items of a writable [localStorage] after the adapter's
    [isAvailable] has written and removed its test key. *)
Module StorageObs.
Definition probed (items : Storage.Items) : Storage.Items :=
  Storage.delete "__analytics_test__" (Storage.update "__analytics_test__" "test" items).
End StorageObs.

(** ** [src/core/analytics.ts]: the anonymous id

    [truthy] tells which parsed values JavaScript takes for true. *)

Module Identity.
Section WithStorage.

Variable Json : Type.
Variable JSON_parse : string -> option Json.
Variable JSON_stringify : Json -> Completion string.
Variable truthy : Json -> bool.
Variable CookieJar : Type.
Variable cookie_get : string -> CookieJar -> Storage.Got.
Variable cookie_set : string -> string -> CookieJar -> CookieJar.
Variable cookie_remove : string -> CookieJar -> CookieJar.

(** [!id] *)
Definition falsy (id : Storage.Loaded Json) : bool :=
  match id with
  | Storage.LNull _ | Storage.LUndefined _ => true
  | Storage.LText _ s => String.eqb s ""
  | Storage.LJson _ j => negb (truthy j)
  end.

(** [getOrCreateAnonymousId]; [fresh] is what [uuid()] returns if it is
    called. *)
Definition getOrCreateAnonymousId (anonymousIdKey fresh : string)
    (s : Storage.t) (w : Storage.World CookieJar)
  : Completion (Storage.Loaded Json) * (Storage.t * Storage.World CookieJar) :=
  match Storage.getSync Json JSON_parse CookieJar cookie_get anonymousIdKey s w with
  | (Throw err, w1) => (Throw err, (s, w1))
  | (Normal id, w1) =>
      if falsy id then
        match Storage.setSync Json JSON_stringify CookieJar cookie_set
                anonymousIdKey (Storage.VString Json fresh) s w1 with
        | (Throw err, sw) => (Throw err, sw)
        | (Normal _, sw) => (Normal (Storage.LText Json fresh), sw)
        end
      else (Normal id, (s, w1))
  end.

(** The [constructor] of [Analytics] as far as
    [this._anonymousId = this.getOrCreateAnonymousId()]: a new [Storage]
    for the platform, then the id. *)
Definition constructor_anonymousId (info : Platform.PlatformInfo) (hasDocument : bool)
    (anonymousIdKey fresh : string) (w : Storage.World CookieJar)
  : Completion (Storage.Loaded Json) * (Storage.t * Storage.World CookieJar) :=
  let (s, w1) := Storage.new CookieJar info hasDocument w in
  getOrCreateAnonymousId anonymousIdKey fresh s w1.

End WithStorage.

(** A stand-in for [JSON.parse] on the texts of the examples: the decimal
    numeral "123" parses, the other texts used do not. *)
Definition parse_example (s : string) : option Z :=
  if String.eqb s "123" then Some 123 else None.

Definition stringify_example (z : Z) : Completion string :=
  if z =? 123 then Normal "123"%string else Throw "not serializable"%string.

Definition browser : Platform.Globals :=
  Platform.mkGlobals true true (Some (Some "Gecko"%string)) false.

Definition reactNative : Platform.Globals :=
  Platform.mkGlobals true false (Some (Some "ReactNative"%string)) true.

Definition nodejs : Platform.Globals :=
  Platform.mkGlobals false false None true.

(** A worker of a browser: no [window], no [document], no [process]. *)
Definition webWorker : Platform.Globals :=
  Platform.mkGlobals false false (Some (Some "Gecko"%string)) false.

End Identity.

(** ** [src/core/analytics.ts]: the events the public methods build

    The six public methods build an object literal around
    [buildBaseEvent] and hand it to [processEvent] and [push], modelled
    above.  Here the objects are JavaScript's: arguments may be of any
    type, a property may hold [undefined], and spreading copies it.  What
    is modelled of an object is what its properties read as; the order
    in which they are enumerated is not.  The storage is a collaborator
    whose calls are recorded. *)

Module Facade.

(** JavaScript values; of the numbers, the integers. *)
Inductive Js :=
| Jundefined
| Jnull
| Jbool (b : bool)
| Jnumber (n : Z)
| Jstring (s : string)
| Jobject (fields : list (string * Js)).

Definition Obj := list (string * Js).

(** Whether [if (v)], [!v] and [v || w] take [v] for true. *)
Definition truthy (v : Js) : bool :=
  match v with
  | Jundefined | Jnull => false
  | Jbool b => b
  | Jnumber n => negb (n =? 0)
  | Jstring s => negb (String.eqb s "")
  | Jobject _ => true
  end.

(** [v || w] *)
Definition or (v w : Js) : Js := if truthy v then v else w.

(** [typeof v === 'object'], which holds of [null] too. *)
Definition typeof_object (v : Js) : bool :=
  match v with
  | Jobject _ | Jnull => true
  | _ => false
  end.

(** Reading and defining a property of an object. *)
Fixpoint prop (k : string) (o : Obj) : Js :=
  match o with
  | [] => Jundefined
  | (k', v) :: rest => if String.eqb k' k then v else prop k rest
  end.

Fixpoint put (k : string) (v : Js) (o : Obj) : Obj :=
  match o with
  | [] => [(k, v)]
  | (k', v') :: rest => if String.eqb k' k then (k, v) :: rest else (k', v') :: put k v rest
  end.

(** The characters of a string as the properties "0", "1", ... *)
Fixpoint index_props (n : nat) (s : string) : Obj :=
  match s with
  | EmptyString => []
  | String c rest =>
      (NilEmpty.string_of_uint (Nat.to_uint n), Jstring (String c EmptyString))
        :: index_props (S n) rest
  end.

(** The own enumerable properties [{ ...v }] copies. *)
Definition own_props (v : Js) : Obj :=
  match v with
  | Jobject fields => fields
  | Jstring s => index_props 0 s
  | _ => []
  end.

(** [{ ...target, ...v }] *)
Definition spread (target : Obj) (v : Js) : Obj :=
  fold_left (fun o kv => put (fst kv) (snd kv) o) (own_props v) target.

(** [v.k] for the property names used here ([context], [userId],
    [anonymousId], [timestamp]), none of which a string or a boolean
    has. *)
Definition member (v : Js) (k : string) : Completion Js :=
  match v with
  | Jundefined | Jnull => Throw "TypeError: Cannot read properties"%string
  | Jobject fields => Normal (prop k fields)
  | Jstring _ | Jbool _ | Jnumber _ => Normal Jundefined
  end.

Definition bind {A B : Type} (c : Completion A) (k : A -> Completion B) : Completion B :=
  match c with
  | Normal a => k a
  | Throw err => Throw err
  end.

Notation "x <- c ;; k" := (bind c (fun x => k))
  (at level 61, c at next level, right associativity).

(** What the environment gives: [getDefaultContext()], the text of
    [new Date().toISOString()], [new Date(t).toISOString()] (which throws
    on an invalid date), and the next [messageId()] and [uuid()]. *)
Record Env := mkEnv {
  defaultContext : Js;
  nowISO : string;
  toISOString : Js -> Completion string;
  nextMessageId : string;
  nextUuid : string
}.

Inductive StorageCall :=
| StorageSet (key : string) (value : Js)
| StorageRemove (key : string).

(** The identity fields of the class, the two storage keys of its
    configuration, and the calls made on the storage. *)
Record t := mk {
  userIdKey : string;
  anonymousIdKey : string;
  _userId : Js;
  _anonymousId : Js;
  _traits : Js;
  storage : list StorageCall
}.

Definition set_userId (v : Js) (a : t) : t :=
  mk (userIdKey a) (anonymousIdKey a) v (_anonymousId a) (_traits a) (storage a).

Definition set_traits (v : Js) (a : t) : t :=
  mk (userIdKey a) (anonymousIdKey a) (_userId a) (_anonymousId a) v (storage a).

Definition storage_call (c : StorageCall) (a : t) : t :=
  mk (userIdKey a) (anonymousIdKey a) (_userId a) (_anonymousId a) (_traits a)
     (storage a ++ [c]).

(** [buildBaseEvent]; the parameter defaults to [{}] when [undefined]. *)
Definition buildBaseEvent (env : Env) (options : Js) (a : t) : Completion Obj :=
  let options := match options with Jundefined => Jobject [] | _ => options end in
  optionsContext <- member options "context" ;;
  let context := Jobject (spread (spread [] (defaultContext env)) optionsContext) in
  optionsUserId <- member options "userId" ;;
  optionsAnonymousId <- member options "anonymousId" ;;
  optionsTimestamp <- member options "timestamp" ;;
  timestamp <- (if truthy optionsTimestamp
                then toISOString env optionsTimestamp
                else Normal (nowISO env)) ;;
  Normal [("userId", or optionsUserId (_userId a));
          ("anonymousId", or optionsAnonymousId (_anonymousId a));
          ("context", context);
          ("timestamp", Jstring timestamp);
          ("messageId", Jstring (nextMessageId env))]%string.

(** Each method below gives the event it hands to [processEvent], or the
    error it ends with, and the instance as it leaves it. *)

(** [identify] *)
Definition identify (env : Env) (userId traits options : Js) (a : t)
  : Completion Obj * t :=
  let userId := if negb (truthy userId) && truthy (_userId a) then _userId a else userId in
  let a1 := if truthy userId
            then storage_call (StorageSet (userIdKey a) userId) (set_userId userId a)
            else a in
  let a2 := if truthy traits
            then let merged := Jobject (spread (spread [] (_traits a1)) traits) in
                 storage_call (StorageSet "analytics_traits" merged) (set_traits merged a1)
            else a1 in
  (base <- buildBaseEvent env options a2 ;;
   Normal (put "traits" (_traits a2)
             (put "userId" userId
                (spread [("type", Jstring "identify")]%string (Jobject base)))),
   a2).

(** [track] *)
Definition track (env : Env) (eventName properties options : Js) (a : t)
  : Completion Obj * t :=
  (base <- buildBaseEvent env options a ;;
   Normal (spread [("type", Jstring "track"); ("event", eventName);
                   ("properties", or properties (Jobject []))]%string
                  (Jobject base)),
   a).

(** [page], with its two shifts of arguments. *)
Definition page (env : Env) (name category properties options : Js) (a : t)
  : Completion Obj * t :=
  let shift1 := typeof_object category && negb (truthy properties) in
  let options := if shift1 then category else options in
  let category := if shift1 then Jundefined else category in
  let shift2 := typeof_object name && negb (truthy category) in
  let options := if shift2 then name else options in
  let properties := if shift2 then Jundefined else properties in
  let name := if shift2 then Jundefined else name in
  (base <- buildBaseEvent env options a ;;
   Normal (spread [("type", Jstring "page"); ("name", name); ("category", category);
                   ("properties", or properties (Jobject []))]%string
                  (Jobject base)),
   a).

(** [screen] *)
Definition screen (env : Env) (name category properties options : Js) (a : t)
  : Completion Obj * t :=
  (base <- buildBaseEvent env options a ;;
   Normal (spread [("type", Jstring "screen"); ("name", name); ("category", category);
                   ("properties", or properties (Jobject []))]%string
                  (Jobject base)),
   a).

(** [alias]: the event is built first, the user id is updated after. *)
Definition alias (env : Env) (userId previousId options : Js) (a : t)
  : Completion Obj * t :=
  match buildBaseEvent env options a with
  | Throw err => (Throw err, a)
  | Normal base =>
      (Normal (spread [("type", Jstring "alias"); ("userId", userId);
                       ("previousId", or previousId (_anonymousId a))]%string
                      (Jobject base)),
       storage_call (StorageSet (userIdKey a) userId) (set_userId userId a))
  end.

(** [group] *)
Definition group (env : Env) (groupId traits options : Js) (a : t)
  : Completion Obj * t :=
  (base <- buildBaseEvent env options a ;;
   Normal (spread [("type", Jstring "group"); ("groupId", groupId);
                   ("traits", or traits (Jobject []))]%string
                  (Jobject base)),
   a).

(** [user] *)
Definition user (a : t) : Obj :=
  [("userId", _userId a); ("anonymousId", _anonymousId a); ("traits", _traits a)]%string.

(** [reset] *)
Definition reset (env : Env) (a : t) : t :=
  let anon := Jstring (nextUuid env) in
  mk (userIdKey a) (anonymousIdKey a) Jundefined anon (Jobject [])
     (storage a ++ [StorageRemove (userIdKey a); StorageRemove "analytics_traits";
                    StorageSet (anonymousIdKey a) anon]).

(** [options.k] as [buildBaseEvent] reads it once [options] is known not
    to be [null]. *)
Definition option_field (options : Js) (k : string) : Js :=
  match options with
  | Jobject fields => prop k fields
  | _ => Jundefined
  end.

(** The last value defined for [k] in a list of properties. *)
Fixpoint last_defined (k : string) (o : Obj) : option Js :=
  match o with
  | [] => None
  | (k', v) :: rest =>
      match last_defined k rest with
      | Some w => Some w
      | None => if String.eqb k' k then Some v else None
      end
  end.

(** *** Concrete data for the scenarios *)

Definition testEnv : Env :=
  mkEnv (Jobject [("library", Jobject [("name", Jstring "@stickyqr/analytics");
                                       ("version", Jstring "1.0.0")])]%string)
        "2024-01-15T10:00:00.000Z"
        (fun v => match v with
                  | Jstring "2024-01-15T10:00:00Z" => Normal "2024-01-15T10:00:00.000Z"%string
                  | _ => Throw "RangeError: Invalid time value"%string
                  end)
        "analytics-1705312800000-msg" "22222222-2222-4222-8222-222222222222".

(** An instance in Node right after construction. *)
Definition anonymous : t :=
  mk "analytics_user_id" "analytics_anonymous_id" Jundefined
     (Jstring "11111111-1111-4111-8111-111111111111") (Jobject []) [].

End Facade.

(** * Properties of the delivery queue *)

Module QueueFacts.
Import Queue.

(** ** What the small updates leave alone *)

Lemma debug_log_queue e q : queue (debug_log e q) = queue q.
Proof. unfold debug_log; destruct (debug (config q)); reflexivity. Qed.

Lemma debug_log_config e q : config (debug_log e q) = config q.
Proof. unfold debug_log; destruct (debug (config q)); reflexivity. Qed.

Lemma debug_log_isFlushing e q : isFlushing (debug_log e q) = isFlushing q.
Proof. unfold debug_log; destruct (debug (config q)); reflexivity. Qed.

Lemma debug_log_inflight e q : inflight (debug_log e q) = inflight q.
Proof. unfold debug_log; destruct (debug (config q)); reflexivity. Qed.

Lemma debug_log_transport e q : transport (debug_log e q) = transport q.
Proof. unfold debug_log; destruct (debug (config q)); reflexivity. Qed.

Lemma debug_log_flushTimer e q : flushTimer (debug_log e q) = flushTimer q.
Proof. unfold debug_log; destruct (debug (config q)); reflexivity. Qed.

Create Rewrite HintDb queue_proj.
#[local] Hint Rewrite debug_log_queue debug_log_config debug_log_isFlushing
  debug_log_inflight debug_log_transport debug_log_flushTimer : queue_proj.

Ltac proj := repeat (autorewrite with queue_proj in *; cbn [queue config isFlushing
  inflight transport flushTimer set_queue set_isFlushing set_inflight
  set_transport set_flushTimer sendBatch clear] in * ).

(** ** [flush] *)

Lemma flush_idle q :
  isFlushing q = true \/ queue q = [] -> flush q = q.
Proof.
  intros [H | H]; unfold flush; rewrite H; [reflexivity|].
  now rewrite orb_true_r.
Qed.

Lemma flush_fires q :
  isFlushing q = false -> queue q <> [] ->
  flush q = mk [] (flushTimer q) (config q) true (inflight q ++ [queue q])
               (transport q ++
                  [mkRequest (apiHost (config q) ++ "/v1/batch")%string
                             (writeKey (config q)) (map event (queue q))])
               (console q).
Proof.
  intros Hf Hq. unfold flush. proj. rewrite Hf.
  destruct (queue q) eqn:E; [congruence|]. reflexivity.
Qed.

Lemma flush_cases q :
  flush q = q \/
  (isFlushing q = false /\ queue q <> [] /\ queue (flush q) = [] /\
   isFlushing (flush q) = true /\ inflight (flush q) = inflight q ++ [queue q] /\
   length (transport (flush q)) = S (length (transport q))).
Proof.
  destruct (isFlushing q) eqn:Hf.
  - left. apply flush_idle. now left.
  - destruct (queue q) eqn:Hq.
    + left. apply flush_idle. now right.
    + right. rewrite flush_fires by congruence. cbn. rewrite Hq.
      repeat split; try congruence.
      rewrite length_app. cbn. lia.
Qed.

Lemma flush_config q : config (flush q) = config q.
Proof.
  unfold flush. destruct (isFlushing q || _); reflexivity.
Qed.

Lemma flush_flushTimer q : flushTimer (flush q) = flushTimer q.
Proof.
  unfold flush. destruct (isFlushing q || _); reflexivity.
Qed.

Lemma flush_queue_le q : (length (queue (flush q)) <= length (queue q))%nat.
Proof.
  destruct (flush_cases q) as [-> | (_ & _ & -> & _)]; cbn; lia.
Qed.

#[local] Hint Rewrite flush_config flush_flushTimer : queue_proj.

(** ** [push] *)

Lemma push_unfold e now q :
  push e now q =
  let q3 := push_then_flush e now q in
  if maxQueueSize (config q) <? Z.of_nat (length (queue q3))
  then debug_log WarnQueueExceeded (set_queue (tl (queue q3)) q3)
  else q3.
Proof.
  unfold push, push_then_flush. cbv zeta.
  set (q2 := debug_log _ _).
  assert (Hc : config q2 = config q) by (subst q2; now proj).
  destruct (flushAt (config q2) <=? _); proj; now rewrite Hc.
Qed.

Lemma push_then_flush_config e now q : config (push_then_flush e now q) = config q.
Proof.
  unfold push_then_flush. cbv zeta.
  destruct (_ <=? _); now proj.
Qed.

Lemma push_config e now q : config (push e now q) = config q.
Proof.
  rewrite push_unfold. cbv zeta. destruct (_ <? _); proj;
    now rewrite ?push_then_flush_config.
Qed.

Lemma push_then_flush_length e now q :
  (length (queue (push_then_flush e now q)) <= S (length (queue q)))%nat.
Proof.
  unfold push_then_flush. cbv zeta.
  set (q2 := debug_log _ _).
  assert (Hl : length (queue q2) = S (length (queue q))).
  { subst q2. proj. rewrite length_app. cbn. lia. }
  destruct (_ <=? _); [pose proof (flush_queue_le q2)|]; lia.
Qed.

Lemma evict_until_fits m l :
  Z.of_nat (length l) <= m -> evict_until m l = l.
Proof.
  destruct l as [|x l]; [reflexivity|]. intros H. cbn [evict_until].
  destruct (m <? _) eqn:E; [apply Z.ltb_lt in E; lia | reflexivity].
Qed.

Lemma evict_until_one_over m l :
  Z.of_nat (length l) = m + 1 -> 0 <= m -> evict_until m l = tl l.
Proof.
  destruct l as [|x l]; [reflexivity|]. intros H Hm. cbn [evict_until tl].
  destruct (m <? _) eqn:E; [|apply Z.ltb_ge in E; lia].
  apply evict_until_fits. cbn [length] in H. lia.
Qed.

Lemma push_bounded e now q :
  Z.of_nat (length (queue q)) <= maxQueueSize (config q) ->
  Z.of_nat (length (queue (push e now q))) <= maxQueueSize (config q).
Proof.
  intros H. rewrite push_unfold. cbv zeta.
  pose proof (push_then_flush_length e now q) as Hl.
  destruct (_ <? _) eqn:E.
  - proj. destruct (queue (push_then_flush e now q)); cbn in *; lia.
  - apply Z.ltb_ge in E. lia.
Qed.

Lemma push_evicts e now q :
  Z.of_nat (length (queue q)) <= maxQueueSize (config q) ->
  queue (push e now q) =
  evict_until (maxQueueSize (config q)) (queue (push_then_flush e now q)).
Proof.
  intros H. rewrite push_unfold. cbv zeta.
  pose proof (push_then_flush_length e now q) as Hl.
  destruct (_ <? _) eqn:E.
  - apply Z.ltb_lt in E. proj. symmetry. apply evict_until_one_over; lia.
  - apply Z.ltb_ge in E. symmetry. now apply evict_until_fits.
Qed.

(** ** The settled send *)

Lemma retry_loop_spec batch : forall q,
  let q' := fold_left retry_item batch q in
  queue q' = queue q ++
             filter (fun i => attempts i <? retryAttempts (config q))
                    (map incremented batch)
  /\ config q' = config q /\ isFlushing q' = isFlushing q
  /\ inflight q' = inflight q /\ transport q' = transport q
  /\ flushTimer q' = flushTimer q.
Proof.
  induction batch as [|item batch IH]; intros q; cbn [fold_left map filter].
  - cbv zeta. now rewrite app_nil_r.
  - cbv zeta in *. destruct (IH (retry_item q item)) as (Hq & Hc & Hf & Hi & Ht & Hm).
    rewrite Hq, Hc, Hf, Hi, Ht, Hm. unfold retry_item.
    destruct (attempts (incremented item) <? retryAttempts (config q)); proj.
    + now rewrite <- app_assoc.
    + easy.
Qed.

Lemma flush_settled_config r batch q : config (flush_settled r batch q) = config q.
Proof.
  unfold flush_settled. destruct (sendBatch_settled r); proj; [reflexivity|].
  destruct (retry_loop_spec batch (debug_log ErrBatchFailed q)) as (_ & Hc & _).
  now rewrite Hc; proj.
Qed.

Lemma flush_settled_isFlushing r batch q : isFlushing (flush_settled r batch q) = false.
Proof. reflexivity. Qed.

Lemma flush_settled_inflight r batch q :
  inflight (flush_settled r batch q) = inflight q.
Proof.
  unfold flush_settled. destruct (sendBatch_settled r); proj; [reflexivity|].
  destruct (retry_loop_spec batch (debug_log ErrBatchFailed q)) as (_ & _ & _ & Hi & _).
  now rewrite Hi; proj.
Qed.

Lemma flush_settled_transport r batch q :
  transport (flush_settled r batch q) = transport q.
Proof.
  unfold flush_settled. destruct (sendBatch_settled r); proj; [reflexivity|].
  destruct (retry_loop_spec batch (debug_log ErrBatchFailed q)) as (_ & _ & _ & _ & Ht & _).
  now rewrite Ht; proj.
Qed.

Lemma flush_settled_flushTimer r batch q :
  flushTimer (flush_settled r batch q) = flushTimer q.
Proof.
  unfold flush_settled. destruct (sendBatch_settled r); proj; [reflexivity|].
  destruct (retry_loop_spec batch (debug_log ErrBatchFailed q)) as (_ & _ & _ & _ & _ & Hm).
  now rewrite Hm; proj.
Qed.

Lemma flush_settled_ok r batch q :
  failed r = false -> queue (flush_settled r batch q) = queue q.
Proof.
  unfold failed, flush_settled. destruct (sendBatch_settled r); [|discriminate].
  intros _. now proj.
Qed.

Lemma flush_settled_failed r batch q :
  failed r = true ->
  queue (flush_settled r batch q) =
  queue q ++ filter (fun i => attempts i <? retryAttempts (config q))
                    (map incremented batch).
Proof.
  unfold failed, flush_settled. destruct (sendBatch_settled r); [discriminate|].
  intros _. proj.
  destruct (retry_loop_spec batch (debug_log ErrBatchFailed q)) as (Hq & _).
  rewrite Hq. now proj.
Qed.

(** ** Steps and runs *)

Lemma stopFlushInterval_proj q :
  queue (stopFlushInterval q) = queue q /\ config (stopFlushInterval q) = config q
  /\ isFlushing (stopFlushInterval q) = isFlushing q
  /\ inflight (stopFlushInterval q) = inflight q
  /\ transport (stopFlushInterval q) = transport q
  /\ flushTimer (stopFlushInterval q) = None.
Proof. unfold stopFlushInterval. destruct (flushTimer q) eqn:E; cbn; auto 10. Qed.

Lemma step_config q a : config (step q a) = config q.
Proof.
  destruct a; cbn [step].
  - apply push_config.
  - apply flush_config.
  - destruct (flushTimer q); [apply flush_config | reflexivity].
  - destruct (inflight q); [reflexivity|]. now rewrite flush_settled_config.
  - apply stopFlushInterval_proj.
  - reflexivity.
  - unfold destroy. proj. apply stopFlushInterval_proj.
Qed.

Lemma run_config tr : forall q, config (run tr q) = config q.
Proof.
  induction tr as [|a tr IH]; intros q; [reflexivity|].
  cbn [run fold_left]. fold (run tr (step q a)). now rewrite IH, step_config.
Qed.

Lemma run_app tr1 tr2 q : run (tr1 ++ tr2) q = run tr2 (run tr1 q).
Proof. unfold run. apply fold_left_app. Qed.

Lemma run_cons a tr q : run (a :: tr) q = run tr (step q a).
Proof. reflexivity. Qed.

Lemma flush_exclusive q : exclusive q -> exclusive (flush q).
Proof.
  intros H. destruct (flush_cases q) as [-> | (Hf & _ & _ & Hf' & Hi & _)]; [assumption|].
  destruct H as [[_ H] | [H _]]; [|congruence].
  right. split; [assumption|]. exists (queue q). now rewrite Hi, H.
Qed.

Lemma push_exclusive e now q : exclusive q -> exclusive (push e now q).
Proof.
  intros H. rewrite push_unfold. cbv zeta.
  assert (H3 : exclusive (push_then_flush e now q)).
  { unfold push_then_flush. cbv zeta.
    set (q2 := debug_log _ _).
    assert (H2 : exclusive q2) by (subst q2; unfold exclusive in *; now proj).
    destruct (_ <=? _); [now apply flush_exclusive | assumption]. }
  destruct (_ <? _); [|assumption].
  unfold exclusive in *. now proj.
Qed.

Lemma step_exclusive q a : exclusive q -> exclusive (step q a).
Proof.
  intros H. destruct a; cbn [step].
  - now apply push_exclusive.
  - now apply flush_exclusive.
  - destruct (flushTimer q); [now apply flush_exclusive | assumption].
  - destruct (inflight q) as [|batch rest] eqn:E; [assumption|].
    left. rewrite flush_settled_isFlushing, flush_settled_inflight. proj.
    split; [reflexivity|].
    destruct H as [[_ H] | [_ [b H]]]; congruence.
  - destruct (stopFlushInterval_proj q) as (_ & _ & Hf & Hi & _).
    unfold exclusive. now rewrite Hf, Hi.
  - unfold exclusive in *. now proj.
  - unfold destroy.
    assert (H1 : exclusive (stopFlushInterval q)).
    { destruct (stopFlushInterval_proj q) as (_ & _ & Hf & Hi & _).
      unfold exclusive. now rewrite Hf, Hi. }
    apply flush_exclusive in H1. unfold exclusive in *. now proj.
Qed.

Lemma run_exclusive tr : forall q, exclusive q -> exclusive (run tr q).
Proof.
  induction tr as [|a tr IH]; intros q H; [assumption|].
  rewrite run_cons. now apply IH, step_exclusive.
Qed.

Lemma new_exclusive cfg : exclusive (new cfg).
Proof. left. split; reflexivity. Qed.

(** Without a failed send, no step lets the queue grow past the bound. *)
Lemma step_bounded q a :
  no_failure [a] = true ->
  Z.of_nat (length (queue q)) <= maxQueueSize (config q) ->
  Z.of_nat (length (queue (step q a))) <= maxQueueSize (config q).
Proof.
  intros Ha H. destruct a; cbn [step].
  - now apply push_bounded.
  - pose proof (flush_queue_le q). lia.
  - destruct (flushTimer q); [pose proof (flush_queue_le q)|]; lia.
  - destruct (inflight q) as [|batch rest]; [assumption|].
    cbn in Ha. rewrite andb_true_r in Ha. apply negb_true_iff in Ha.
    rewrite flush_settled_ok by assumption. now proj.
  - now destruct (stopFlushInterval_proj q) as (-> & _).
  - cbn. lia.
  - unfold destroy. cbn. lia.
Qed.

Lemma run_bounded tr : forall q,
  no_failure tr = true ->
  Z.of_nat (length (queue q)) <= maxQueueSize (config q) ->
  Z.of_nat (length (queue (run tr q))) <= maxQueueSize (config q).
Proof.
  induction tr as [|a tr IH]; intros q Htr H; [assumption|].
  rewrite run_cons. cbn in Htr. apply andb_true_iff in Htr as [Ha Htr].
  rewrite <- (step_config q a). apply IH; [assumption|].
  rewrite step_config. apply step_bounded; [|assumption].
  cbn. now rewrite Ha.
Qed.

Lemma no_settle_keeps_flushing tr : forall q,
  no_settle tr = true -> isFlushing q = true ->
  isFlushing (run tr q) = true /\ transport (run tr q) = transport q.
Proof.
  induction tr as [|a tr IH]; intros q Htr Hf; [now split|].
  rewrite run_cons. cbn in Htr. apply andb_true_iff in Htr as [Ha Htr].
  assert (Hflush : flush q = q) by (apply flush_idle; now left).
  assert (Hstep : isFlushing (step q a) = true /\ transport (step q a) = transport q).
  { destruct a; cbn [step]; try discriminate.
    - rewrite push_unfold. cbv zeta.
      assert (H3 : isFlushing (push_then_flush e now q) = true
                   /\ transport (push_then_flush e now q) = transport q).
      { unfold push_then_flush. cbv zeta. set (q2 := debug_log _ _).
        assert (H2 : isFlushing q2 = true /\ transport q2 = transport q)
          by (subst q2; now proj).
        destruct (_ <=? _); [|assumption].
        rewrite flush_idle by (left; apply H2). assumption. }
      destruct (_ <? _); now proj.
    - now rewrite Hflush.
    - destruct (flushTimer q); now rewrite ?Hflush.
    - destruct (stopFlushInterval_proj q) as (_ & _ & -> & _ & -> & _). now split.
    - now proj.
    - unfold destroy. proj.
      destruct (stopFlushInterval_proj q) as (_ & _ & Hs & _ & Ht & _).
      rewrite flush_idle by (left; congruence). now rewrite Hs, Ht. }
  destruct Hstep as [Hf' Ht']. destruct (IH _ Htr Hf') as [H1 H2].
  split; [assumption | congruence].
Qed.

Lemma reachable_exclusive cfg tr : exclusive (run tr (new cfg)).
Proof. apply run_exclusive, new_exclusive. Qed.

(** ** Main results for the queue *)

(** C1.  Along every sequence of calls on a fresh queue in which no send
    fails, the queue holds at most [maxQueueSize] items, in particular
    after each [push] returns.  What [push] leaves is what the rule
    "evict from the head until the length is at most [maxQueueSize]"
    leaves of the queue after the append and the flush check; and the
    flush check comes first: a push that reaches [flushAt] on an idle
    queue sends the whole queue with the new item, none evicted. *)
Theorem push_keeps_size_bounded :
  forall cfg tr e now,
    0 <= maxQueueSize cfg -> no_failure tr = true ->
    let q := run tr (new cfg) in
    Z.of_nat (size q) <= maxQueueSize cfg
    /\ Z.of_nat (size (push e now q)) <= maxQueueSize cfg
    /\ queue (push e now q)
       = evict_until (maxQueueSize cfg) (queue (push_then_flush e now q))
    /\ (isFlushing q = false -> flushAt cfg <= Z.of_nat (size q) + 1 ->
        queue (push e now q) = []
        /\ inflight (push e now q) = [queue q ++ [mkItem e 0 now]]).
Proof.
  intros cfg tr e now Hmax Htr q.
  assert (Hc : config q = cfg) by (subst q; now rewrite run_config).
  assert (Hq : Z.of_nat (length (queue q)) <= maxQueueSize (config q)).
  { subst q. rewrite run_config. apply (run_bounded tr (new cfg)); [assumption|].
    cbn. lia. }
  unfold size. rewrite <- Hc. repeat split.
  - assumption.
  - now apply push_bounded.
  - now apply push_evicts.
  - rewrite push_unfold. cbv zeta. unfold push_then_flush. cbv zeta.
    set (q2 := debug_log _ _).
    assert (H2 : queue q2 = queue q ++ [mkItem e 0 now]) by (subst q2; now proj).
    assert (Hc2 : config q2 = config q) by (subst q2; now proj).
    rewrite Hc2, H2, length_app. cbn [length].
    destruct (_ <=? _) eqn:E; [|apply Z.leb_gt in E; lia].
    assert (Hf2 : isFlushing q2 = false) by (subst q2; now proj).
    assert (Hn2 : queue q2 <> []) by (rewrite H2; now destruct (queue q)).
    rewrite flush_fires by assumption.
    cbn [queue length]. destruct (_ <? _) eqn:E'; [apply Z.ltb_lt in E'; cbn in E'; lia|].
    reflexivity.
  - rewrite push_unfold. cbv zeta. unfold push_then_flush. cbv zeta.
    set (q2 := debug_log _ _).
    assert (H2 : queue q2 = queue q ++ [mkItem e 0 now]) by (subst q2; now proj).
    assert (Hc2 : config q2 = config q) by (subst q2; now proj).
    assert (Hi2 : inflight q2 = []).
    { subst q2. proj. destruct (reachable_exclusive cfg tr) as [[_ Hi] | [Hf _]].
      - exact Hi.
      - fold q in Hf. congruence. }
    rewrite Hc2, H2, length_app. cbn [length].
    destruct (_ <=? _) eqn:E; [|apply Z.leb_gt in E; lia].
    assert (Hf2 : isFlushing q2 = false) by (subst q2; now proj).
    assert (Hn2 : queue q2 <> []) by (rewrite H2; now destruct (queue q)).
    rewrite flush_fires by assumption.
    cbn [queue length]. destruct (_ <? _) eqn:E'; [apply Z.ltb_lt in E'; cbn in E'; lia|].
    cbn [inflight]. now rewrite Hi2, H2.
Qed.

(** Witness for C1: the third push on [tightConfig] reaches [flushAt] and
    would exceed [maxQueueSize]; all three items go to the send. *)
Lemma push_keeps_size_bounded_witness :
  let q := run [APush (trackEvent "0") 0; APush (trackEvent "1") 1] (new tightConfig) in
  Z.of_nat (size (push (trackEvent "2") 2 q)) <= 2
  /\ inflight (push (trackEvent "2") 2 q)
     = [[mkItem (trackEvent "0") 0 0; mkItem (trackEvent "1") 0 1;
         mkItem (trackEvent "2") 0 2]].
Proof.
  destruct (push_keeps_size_bounded tightConfig
              [APush (trackEvent "0") 0; APush (trackEvent "1") 1]
              (trackEvent "2") 2) as (_ & H1 & _ & H2).
  - vm_compute. discriminate.
  - reflexivity.
  - split; [exact H1|]. apply H2.
    + reflexivity.
    + vm_compute. discriminate.
Defined.

(** C2.  On every state a fresh queue can reach: [flush()] changes nothing
    (no request, same queue) when a flush is in flight or the queue is
    empty; at most one send is in flight, and [isFlushing] tells whether
    one is; a [flush()] that starts a send makes exactly one request
    however many calls follow before it settles; and while a send is in
    flight no call makes a request. *)
Theorem flush_is_exclusive :
  forall cfg pre tr,
    no_settle tr = true ->
    let q := run pre (new cfg) in
    (isFlushing q = true \/ queue q = [] -> flush q = q)
    /\ (length (inflight q) <= 1)%nat
    /\ (isFlushing q = true <-> inflight q <> [])
    /\ (isFlushing q = false -> queue q <> [] ->
        length (transport (run (AFlush :: tr) q)) = S (length (transport q)))
    /\ (isFlushing q = true ->
        length (transport (run (AFlush :: tr) q)) = length (transport q)).
Proof.
  intros cfg pre tr Htr q.
  pose proof (reachable_exclusive cfg pre) as Hx. fold q in Hx.
  split; [apply flush_idle|].
  split; [destruct Hx as [[_ ->] | [_ [b ->]]]; cbn; lia|].
  split.
  { destruct Hx as [[Hf Hi] | [Hf [b Hi]]]; rewrite Hf, Hi; split;
      congruence. }
  split.
  - intros Hf Hq. rewrite run_cons. cbn [step].
    destruct (flush_cases q) as [E | (_ & _ & _ & Hf' & _ & Ht)].
    + rewrite flush_fires in E by assumption.
      apply (f_equal isFlushing) in E. cbn in E. congruence.
    + destruct (no_settle_keeps_flushing tr _ Htr Hf') as [_ ->]. exact Ht.
  - intros Hf. rewrite run_cons. cbn [step].
    rewrite flush_idle by now left.
    now destruct (no_settle_keeps_flushing tr _ Htr Hf) as [_ ->].
Qed.

(** Witness for C2: after one push on the test configuration, a flush
    followed by a timer tick, a second flush and a push makes one request. *)
Lemma flush_is_exclusive_witness :
  let q := run [APush (trackEvent "0") 0] (new defaultConfig) in
  length (transport (run [AFlush; ATick; AFlush; APush (trackEvent "1") 1] q)) = 1%nat
  /\ flush (new defaultConfig) = new defaultConfig.
Proof.
  split.
  - destruct (flush_is_exclusive defaultConfig [APush (trackEvent "0") 0]
                [ATick; AFlush; APush (trackEvent "1") 1] eq_refl)
      as (_ & _ & _ & H & _).
    apply H; [reflexivity | discriminate].
  - destruct (flush_is_exclusive defaultConfig [] [] eq_refl) as (H & _).
    apply H. now right.
Defined.

(** C3.  However the send ends, the resumed [flush] leaves [isFlushing]
    false.  After a success the queue is as it was.  After a failure
    (rejected [fetch] or a response that is not ok) the queue is the live
    queue followed by the items of the batch, each with [attempts] one
    higher, in batch order, without those whose new [attempts] is not
    below [retryAttempts]; when every item stays below it, the events of
    the batch are all back, once each and in order. *)
Theorem failed_flush_requeues :
  forall batch q,
    let survivors :=
      filter (fun i => attempts i <? retryAttempts (config q))
             (map (fun i => mkItem (event i) (attempts i + 1) (timestamp i)) batch) in
    (forall r, isFlushing (flush_settled r batch q) = false)
    /\ queue (flush_settled (FetchResponse true) batch q) = queue q
    /\ queue (flush_settled FetchRejected batch q) = queue q ++ survivors
    /\ queue (flush_settled (FetchResponse false) batch q) = queue q ++ survivors
    /\ length survivors
       = length (filter (fun i => attempts i + 1 <? retryAttempts (config q)) batch)
    /\ (forallb (fun i => attempts i + 1 <? retryAttempts (config q)) batch = true ->
        map event survivors = map event batch
        /\ map attempts survivors = map (fun i => attempts i + 1) batch).
Proof.
  intros batch q survivors. split; [reflexivity|].
  split; [now apply flush_settled_ok|].
  split; [now apply flush_settled_failed|].
  split; [now apply flush_settled_failed|].
  subst survivors. split.
  - induction batch as [|i batch IH]; [reflexivity|].
    cbn [map filter attempts]. destruct (_ <? _); cbn [length]; now rewrite IH.
  - induction batch as [|i batch IH]; [now split|].
    cbn [forallb map filter attempts]. intros H.
    apply andb_true_iff in H as [Hi H]. rewrite Hi.
    destruct (IH H) as [He Ha]. cbn [map event attempts].
    now rewrite He, Ha.
Qed.

(** Witness for C3: a batch of two fresh items fails once under
    [defaultConfig] while a third item waits in the queue. *)
Lemma failed_flush_requeues_witness :
  let q := run [APush (trackEvent "0") 0; APush (trackEvent "1") 1; AFlush;
                APush (trackEvent "2") 2] (new defaultConfig) in
  let batch := [mkItem (trackEvent "0") 0 0; mkItem (trackEvent "1") 0 1] in
  map event (queue (flush_settled FetchRejected batch q))
  = [trackEvent "2"; trackEvent "0"; trackEvent "1"]
  /\ map attempts (queue (flush_settled FetchRejected batch q)) = [0; 1; 1].
Proof.
  intros q batch.
  destruct (failed_flush_requeues batch q) as (_ & _ & Hq & _ & _ & Hall).
  destruct (Hall eq_refl) as [He Ha].
  rewrite Hq, !map_app, He, Ha. split; reflexivity.
Defined.

(** C9.  The resumed [flush] appends the survivors with no check against
    [maxQueueSize], and the bound can be exceeded: on [tightConfig]
    (at most two items) every push of [overflow_trace] leaves at most two
    items, and when the send fails the queue holds four. *)
Theorem failed_flush_exceeds_bound :
  (forall batch q,
     size (flush_settled FetchRejected batch q)
     = (size q + length (filter (fun i => (attempts i + 1 <? retryAttempts (config q))%Z)
                                batch))%nat)
  /\ (forall k, (k < length overflow_trace)%nat ->
        Z.of_nat (size (run (firstn k overflow_trace) (new tightConfig)))
        <= maxQueueSize tightConfig)
  /\ size (run overflow_trace (new tightConfig)) = 4%nat
  /\ maxQueueSize tightConfig < Z.of_nat (size (run overflow_trace (new tightConfig))).
Proof.
  split.
  - intros batch q. unfold size.
    rewrite flush_settled_failed by reflexivity. rewrite length_app. f_equal.
    induction batch as [|i batch IH]; [reflexivity|].
    cbn [map filter incremented attempts]. destruct (_ <? _); cbn [length];
      now rewrite IH.
  - split; [|split; [reflexivity | reflexivity]].
    intros k Hk. cbn in Hk.
    do 6 (destruct k as [|k]; [vm_compute; discriminate|]). lia.
Qed.

(** ** A send that fails every time *)

Lemma flush_and_wait_failed r q :
  failed r = true -> isFlushing q = false -> inflight q = [] -> queue q <> [] ->
  let q' := flush_and_wait r q in
  queue q' = filter (fun i => attempts i <? retryAttempts (config q))
                    (map incremented (queue q))
  /\ isFlushing q' = false /\ inflight q' = []
  /\ length (transport q') = S (length (transport q))
  /\ config q' = config q.
Proof.
  intros Hr Hf Hi Hq. unfold flush_and_wait. cbn [step].
  rewrite flush_fires by assumption. cbn [inflight]. rewrite Hi. cbn [app].
  rewrite flush_settled_failed by assumption.
  rewrite flush_settled_inflight, flush_settled_transport, flush_settled_config.
  cbn. rewrite length_app. cbn. repeat split; lia.
Qed.

Lemma flush_and_wait_empty r q :
  queue q = [] -> inflight q = [] -> flush_and_wait r q = q.
Proof.
  intros Hq Hi. unfold flush_and_wait. cbn [step].
  rewrite flush_idle by now right. now rewrite Hi.
Qed.

Lemma first_push cfg e now :
  1 < flushAt cfg -> 1 <= maxQueueSize cfg ->
  let q := push e now (new cfg) in
  queue q = [mkItem e 0 now] /\ isFlushing q = false /\ inflight q = []
  /\ transport q = [] /\ config q = cfg.
Proof.
  intros Hf Hm. cbv zeta. rewrite push_config. unfold push. cbv zeta.
  set (q2 := debug_log _ _).
  assert (H2 : queue q2 = [mkItem e 0 now] /\ isFlushing q2 = false
               /\ inflight q2 = [] /\ transport q2 = [] /\ config q2 = cfg)
    by (subst q2; now proj).
  destruct H2 as (Hq2 & Hf2 & Hi2 & Ht2 & Hc2). rewrite Hc2, Hq2. cbn [length].
  destruct (_ <=? _) eqn:E; [apply Z.leb_le in E; lia|]. rewrite Hc2, Hq2.
  cbn [length]. destruct (_ <? _) eqn:E'; [apply Z.ltb_lt in E'; lia|].
  now rewrite Hq2.
Qed.

(** C4, as the code has it.  With [retryAttempts] 3 and a send that fails
    every time, one pushed event and four awaited [flush()] calls leave
    the queue empty after three requests: the third failure drops the
    item and the fourth [flush()] finds nothing to send. *)
Theorem four_failed_flushes_three_requests :
  forall cfg r e now,
    retryAttempts cfg = 3 -> 1 < flushAt cfg -> 1 <= maxQueueSize cfg ->
    failed r = true ->
    let q := four_failed_flushes r e now cfg in
    size q = 0%nat /\ length (transport q) = 3%nat.
Proof.
  intros cfg r e now Hretry Hf Hm Hr. unfold four_failed_flushes.
  destruct (first_push cfg e now Hf Hm) as (Hq0 & Hf0 & Hi0 & Ht0 & Hc0).
  set (q0 := push e now (new cfg)) in *.
  destruct (flush_and_wait_failed r q0 Hr Hf0 Hi0) as (Hq1 & Hf1 & Hi1 & Ht1 & Hc1);
    [now rewrite Hq0|].
  set (q1 := flush_and_wait r q0) in *.
  rewrite Hq0, Hc0, Hretry in Hq1. change (queue q1 = [mkItem e 1 now]) in Hq1.
  destruct (flush_and_wait_failed r q1 Hr Hf1 Hi1) as (Hq2 & Hf2 & Hi2 & Ht2 & Hc2);
    [now rewrite Hq1|].
  set (q2 := flush_and_wait r q1) in *.
  rewrite Hq1, Hc1, Hc0, Hretry in Hq2. change (queue q2 = [mkItem e 2 now]) in Hq2.
  destruct (flush_and_wait_failed r q2 Hr Hf2 Hi2) as (Hq3 & Hf3 & Hi3 & Ht3 & Hc3);
    [now rewrite Hq2|].
  set (q3 := flush_and_wait r q2) in *.
  rewrite Hq2, Hc2, Hc1, Hc0, Hretry in Hq3. change (queue q3 = []) in Hq3.
  rewrite (flush_and_wait_empty r q3 Hq3 Hi3).
  unfold size. rewrite Hq3, Ht3, Ht2, Ht1, Ht0. now split.
Qed.

(** Witness for C4: the test configuration and a rejected [fetch]. *)
Lemma four_failed_flushes_three_requests_witness :
  let q := four_failed_flushes FetchRejected (trackEvent "Drop Event") 0 defaultConfig in
  size q = 0%nat /\ length (transport q) = 3%nat.
Proof.
  apply (four_failed_flushes_three_requests defaultConfig FetchRejected
           (trackEvent "Drop Event") 0);
    [reflexivity | reflexivity | vm_compute; discriminate | reflexivity].
Defined.

(** C4 as stated fails on the test configuration: the queue is empty
    after the four calls, but four requests were not made. *)
Lemma four_failed_flushes_not_four_requests :
  ~ (let q := four_failed_flushes FetchRejected (trackEvent "Drop Event") 0
                defaultConfig in
     size q = 0%nat /\ length (transport q) = 4%nat).
Proof.
  vm_compute. intros [_ H]. discriminate H.
Qed.

(** ** [destroy] *)

(** C8, as the code has it.  [destroy()] returns at once: the timer is
    cleared and will not fire, the queue is empty, and at most one
    request was made -- one carrying the whole queue when the queue was
    not empty and no send was in flight (that send is still pending when
    [destroy()] returns), none otherwise.  If the pending send then
    succeeds, the queue is still empty. *)
Theorem destroy_flushes_once_and_clears :
  forall q,
    let q' := destroy q in
    flushTimer q' = None
    /\ step q' ATick = q'
    /\ size q' = 0%nat
    /\ (isFlushing q = false -> queue q <> [] ->
        isFlushing q' = true
        /\ inflight q' = inflight q ++ [queue q]
        /\ exists req, transport q' = transport q ++ [req]
                       /\ batchBody req = map event (queue q))
    /\ (isFlushing q = true \/ queue q = [] ->
        transport q' = transport q /\ inflight q' = inflight q)
    /\ (forall r, failed r = false -> size (step q' (ASettle r)) = 0%nat).
Proof.
  intros q q'. subst q'. unfold destroy.
  destruct (stopFlushInterval_proj q) as (Hq & Hc & Hf & Hi & Ht & Hm).
  set (q1 := stopFlushInterval q) in *.
  assert (Htimer : flushTimer (clear (flush q1)) = None) by (now proj).
  split; [exact Htimer|].
  split; [cbn [step]; now rewrite Htimer|].
  split; [reflexivity|].
  split; [|split].
  - intros Hidle Hne. rewrite flush_fires by congruence.
    cbn. rewrite Hq, Hi, Ht. repeat split. eexists. split; reflexivity.
  - intros H. rewrite flush_idle by (rewrite Hf, Hq; exact H).
    cbn. now rewrite Ht, Hi.
  - intros r Hr. cbn [step]. destruct (inflight (clear (flush q1))); [reflexivity|].
    unfold size. now rewrite flush_settled_ok by assumption.
Qed.

(** Witness for C8: a queue holding two unsent events. *)
Lemma destroy_flushes_once_and_clears_witness :
  let q := run [APush (trackEvent "0") 0; APush (trackEvent "1") 1] (new defaultConfig) in
  size (destroy q) = 0%nat
  /\ isFlushing (destroy q) = true
  /\ length (transport (destroy q)) = 1%nat
  /\ size (step (destroy q) (ASettle (FetchResponse true))) = 0%nat
  /\ transport (destroy (new defaultConfig)) = [].
Proof.
  intros q.
  destruct (destroy_flushes_once_and_clears q) as (_ & _ & H0 & H1 & _ & H2).
  destruct (destroy_flushes_once_and_clears (new defaultConfig)) as (_ & _ & _ & _ & H3 & _).
  split; [exact H0|].
  destruct H1 as (Hf & _ & req & Ht & _); [reflexivity | discriminate |].
  split; [exact Hf|].
  split; [rewrite Ht; reflexivity|].
  split; [apply H2; reflexivity|].
  apply H3. now right.
Defined.

(** C8 as stated fails: when [destroy()] returns on a queue holding two
    events, the final send has not settled. *)
Lemma destroy_does_not_wait :
  let q := destroy (run [APush (trackEvent "0") 0; APush (trackEvent "1") 1]
                        (new defaultConfig)) in
  ~ (isFlushing q = false /\ inflight q = []).
Proof.
  vm_compute. intros [H _]. discriminate H.
Qed.

End QueueFacts.

(** * Properties of the plugin pipeline *)

Module AnalyticsFacts.
Import Analytics.

(** ** [sort] with the stage comparator *)

Lemma insert_perm (x : Plugin) l : Permutation (insert byTypeOrder x l) (x :: l).
Proof.
  induction l as [|y l IH]; cbn [insert]; [reflexivity|].
  destruct (_ <=? _); [reflexivity|].
  rewrite IH. apply perm_swap.
Qed.

Lemma sort_perm (l : list Plugin) : Permutation (Array_sort byTypeOrder l) l.
Proof.
  induction l as [|x l IH]; cbn [Array_sort]; [reflexivity|].
  rewrite insert_perm. now constructor.
Qed.

Lemma insert_sorted x l :
  StronglySorted stage_le l -> StronglySorted stage_le (insert byTypeOrder x l).
Proof.
  induction 1 as [|y l Hs IH Hy]; cbn [insert].
  - repeat constructor.
  - destruct (_ <=? _) eqn:E.
    + apply Z.leb_le in E. constructor; [now constructor|].
      constructor; [unfold stage_le, byTypeOrder in *; lia|].
      eapply Forall_impl; [|exact Hy].
      unfold stage_le, byTypeOrder in *. intros; lia.
    + apply Z.leb_gt in E. constructor; [assumption|].
      rewrite insert_perm. constructor; [unfold stage_le, byTypeOrder in *; lia|].
      assumption.
Qed.

Lemma sort_sorted l : StronglySorted stage_le (Array_sort byTypeOrder l).
Proof.
  induction l as [|x l IH]; cbn [Array_sort]; [constructor|].
  now apply insert_sorted.
Qed.

Lemma insert_stable ty x l :
  filter (fun p => PluginType_eqb (type p) ty) (insert byTypeOrder x l)
  = filter (fun p => PluginType_eqb (type p) ty) (x :: l).
Proof.
  induction l as [|y l IH]; cbn [insert]; [reflexivity|].
  destruct (_ <=? _) eqn:E; [reflexivity|].
  apply Z.leb_gt in E. cbn [filter] in *. rewrite IH.
  unfold PluginType_eqb, byTypeOrder in *.
  destruct (typeOrder (type x) =? typeOrder ty) eqn:Ex;
    destruct (typeOrder (type y) =? typeOrder ty) eqn:Ey; try reflexivity.
  apply Z.eqb_eq in Ex, Ey. lia.
Qed.

Lemma sort_stable ty l :
  filter (fun p => PluginType_eqb (type p) ty) (Array_sort byTypeOrder l)
  = filter (fun p => PluginType_eqb (type p) ty) l.
Proof.
  induction l as [|x l IH]; cbn [Array_sort]; [reflexivity|].
  rewrite insert_stable. cbn [filter]. now rewrite IH.
Qed.

Lemma sorted_filter (f : Plugin -> bool) l :
  StronglySorted stage_le l -> StronglySorted stage_le (filter f l).
Proof.
  induction 1 as [|y l Hs IH Hy]; cbn [filter]; [constructor|].
  destruct (f y); [|assumption].
  constructor; [assumption|].
  apply Forall_forall. intros z Hz. apply filter_In in Hz as [Hz _].
  revert z Hz. now apply Forall_forall.
Qed.

Lemma firstn_incl (z : Plugin) k : forall l, In z (firstn k l) -> In z l.
Proof.
  induction k as [|k IH]; intros [|y l]; cbn [firstn]; try easy.
  intros [H | H]; [now left | right; now apply IH].
Qed.

Lemma sorted_firstn k : forall l,
  StronglySorted stage_le l -> StronglySorted stage_le (firstn k l).
Proof.
  induction k as [|k IH]; intros l H; [constructor|].
  destruct H as [|y l Hs Hy]; cbn [firstn]; [constructor|].
  constructor; [now apply IH|].
  apply Forall_forall. intros z Hz. apply firstn_incl in Hz.
  revert z Hz. now apply Forall_forall.
Qed.

(** ** The plugin map *)

Lemma map_set_fresh k v m :
  ~ In k (map fst m) -> map_set k v m = m ++ [(k, v)].
Proof.
  induction m as [|[k' v'] m IH]; cbn [map_set map fst app]; [reflexivity|].
  intros H. destruct (String.eqb_spec k' k) as [->|_].
  - exfalso. apply H. now left.
  - rewrite IH; [reflexivity|]. intros Hin. apply H. now right.
Qed.

Lemma map_set_In k v m : In (k, v) (map_set k v m).
Proof.
  induction m as [|[k' v'] m IH]; cbn [map_set]; [now left|].
  destruct (String.eqb k' k); [now left | now right].
Qed.

Lemma load_into_fresh ps : forall m,
  NoDup (map name ps) ->
  (forall p, In p ps -> ~ In (name p) (map fst m)) ->
  fold_left load_into ps m = m ++ map entry (filter load_ok ps).
Proof.
  induction ps as [|p ps IH]; intros m Hnd Hfresh; cbn [fold_left filter map].
  - now rewrite app_nil_r.
  - cbn [map] in Hnd. apply NoDup_cons_iff in Hnd as [Hp Hnd].
    unfold load_into at 2. destruct (load_ok p).
    + rewrite map_set_fresh by (apply Hfresh; now left).
      rewrite IH; [cbn [map]; now rewrite <- app_assoc | assumption |].
      intros p' Hp'. rewrite map_app, in_app_iff. cbn. intros [H | [H | []]].
      * revert H. apply Hfresh. now right.
      * apply Hp. rewrite H. now apply in_map.
    + apply IH; [assumption|]. intros p' Hp'. apply Hfresh. now right.
Qed.

(** ** Loading *)

Lemma resume_step a :
  plugins (loadPlugins_resume a)
  = match loading a with [] => plugins a | p :: _ => load_into (plugins a) p end
  /\ loading (loadPlugins_resume a) = tl (loading a)
  /\ queue (loadPlugins_resume a) = queue a
  /\ invoked (loadPlugins_resume a) = invoked a
  /\ detached (loadPlugins_resume a) = detached a.
Proof.
  unfold loadPlugins_resume, load_into, load_ok.
  destruct (loading a) as [|p rest] eqn:E; [now repeat split|].
  destruct (load p); [cbn; destruct (AnalyticsConfig.debug (config a))|];
    destruct rest; now repeat split.
Qed.

Lemma resume_iter k : forall a,
  let a' := Nat.iter k loadPlugins_resume a in
  plugins a' = fold_left load_into (firstn k (loading a)) (plugins a)
  /\ loading a' = skipn k (loading a)
  /\ queue a' = queue a /\ invoked a' = invoked a /\ detached a' = detached a.
Proof.
  induction k as [|k IH]; intros a; [now repeat split|].
  cbv zeta in *. rewrite Nat.iter_succ_r.
  destruct (IH (loadPlugins_resume a)) as (Hp & Hl & Hq & Hi & Hd).
  destruct (resume_step a) as (Hp1 & Hl1 & Hq1 & Hi1 & Hd1).
  rewrite Hp, Hl, Hq, Hi, Hd, Hp1, Hl1, Hq1, Hi1, Hd1.
  destruct (loading a) as [|p rest]; cbn [firstn skipn tl fold_left];
    [|now repeat split].
  rewrite firstn_nil, skipn_nil. now repeat split.
Qed.

Lemma new_fields cfg :
  plugins (new cfg) = []
  /\ loading (new cfg) = Array_sort byTypeOrder (AnalyticsConfig.plugins cfg)
  /\ invoked (new cfg) = [] /\ detached (new cfg) = [].
Proof.
  unfold new, loadPlugins. cbn [config set_config].
  destruct (Array_sort byTypeOrder (AnalyticsConfig.plugins cfg)); now repeat split.
Qed.

Lemma map_values_entries l : map_values (map entry l) = l.
Proof.
  unfold map_values. rewrite map_map. cbn. apply map_id.
Qed.

Lemma sorted_names_nodup l :
  NoDup (map name l) -> NoDup (map name (Array_sort byTypeOrder l)).
Proof.
  apply Permutation_NoDup. apply Permutation_map. symmetry. apply sort_perm.
Qed.

Lemma firstn_names_nodup k : forall l : list Plugin,
  NoDup (map name l) -> NoDup (map name (firstn k l)).
Proof.
  induction k as [|k IH]; intros [|y l] H; cbn [firstn map]; try constructor.
  - cbn [map] in H. apply NoDup_cons_iff in H as [Hy H].
    intros Hin. apply Hy. apply in_map_iff in Hin as (z & Hz & Hin).
    apply in_map_iff. exists z. split; [assumption | now apply firstn_incl in Hin].
  - cbn [map] in H. apply NoDup_cons_iff in H as [_ H]. now apply IH.
Qed.

(** The active plugins after [k] of the awaited loads have settled. *)
Lemma loading_chain cfg k :
  NoDup (map name (AnalyticsConfig.plugins cfg)) ->
  map_values (plugins (Nat.iter k loadPlugins_resume (new cfg)))
  = filter load_ok (firstn k (Array_sort byTypeOrder (AnalyticsConfig.plugins cfg))).
Proof.
  intros Hnd. destruct (resume_iter k (new cfg)) as (Hp & _).
  destruct (new_fields cfg) as (Hp0 & Hl0 & _).
  rewrite Hp, Hp0, Hl0.
  rewrite load_into_fresh; [apply map_values_entries | | now intros].
  now apply firstn_names_nodup, sorted_names_nodup.
Qed.

Lemma loaded_chain cfg :
  NoDup (map name (AnalyticsConfig.plugins cfg)) ->
  map_values (plugins (loaded cfg))
  = filter load_ok (Array_sort byTypeOrder (AnalyticsConfig.plugins cfg)).
Proof.
  intros Hnd. unfold loaded. rewrite loading_chain by assumption.
  rewrite firstn_all2; [reflexivity|].
  now rewrite (Permutation_length (sort_perm _)).
Qed.

Lemma filter_perm (f : Plugin -> bool) l l' :
  Permutation l l' -> Permutation (filter f l) (filter f l').
Proof.
  induction 1; cbn [filter]; try reflexivity.
  - destruct (f x); [now constructor | assumption].
  - destruct (f x), (f y); try reflexivity. apply perm_swap.
  - etransitivity; eassumption.
Qed.

(** ** [processEvent] *)

Lemma loop_none ty ps a : processEvent_loop ty ps None a = (None, a).
Proof. destruct ps; reflexivity. Qed.

Lemma loop_app ty l1 : forall l2 cur a,
  processEvent_loop ty (l1 ++ l2) cur a
  = processEvent_loop ty l2 (fst (processEvent_loop ty l1 cur a))
                            (snd (processEvent_loop ty l1 cur a)).
Proof.
  induction l1 as [|p l1 IH]; intros l2 cur a; [reflexivity|].
  cbn [app processEvent_loop].
  destruct cur as [ev|]; [|cbn; now rewrite loop_none].
  destruct (handler p ty) as [h|]; [destruct (h ev)|]; apply IH.
Qed.

(** The loop touches neither the queue nor the plugin map, only adds to
    the calls and to the console, and its result does not depend on the
    instance it runs in. *)
Lemma loop_frame ty ps : forall cur a,
  let r := processEvent_loop ty ps cur a in
  queue (snd r) = queue a /\ plugins (snd r) = plugins a
  /\ (exists calls, invoked (snd r) = invoked a ++ calls)
  /\ (exists lines, console (snd r) = console a ++ lines).
Proof.
  induction ps as [|p ps IH]; intros cur a; cbv zeta in *.
  - cbn. repeat split; exists []; now rewrite app_nil_r.
  - cbn [processEvent_loop]. destruct cur as [ev|];
      [|cbn; repeat split; exists []; now rewrite app_nil_r].
    destruct (handler p ty) as [h|]; [|apply IH].
    destruct (h ev) as [r|err].
    + destruct (IH r (add_invoked (name p, ev) a)) as (Hq & Hp & [c Hc] & [l Hl]).
      rewrite Hq, Hp, Hc, Hl. cbn. repeat split; [|now exists l].
      exists ((name p, ev) :: c). now rewrite <- app_assoc.
    + destruct (IH (Some ev) (log (ErrPlugin (name p) err) (add_invoked (name p, ev) a)))
        as (Hq & Hp & [c Hc] & [l Hl]).
      rewrite Hq, Hp, Hc, Hl. cbn. repeat split.
      * exists ((name p, ev) :: c). now rewrite <- app_assoc.
      * exists (ErrPlugin (name p) err :: l). now rewrite <- app_assoc.
Qed.

Lemma loop_result ty ps : forall cur a a',
  fst (processEvent_loop ty ps cur a) = fst (processEvent_loop ty ps cur a').
Proof.
  induction ps as [|p ps IH]; intros cur a a'; [reflexivity|].
  cbn [processEvent_loop]. destruct cur as [ev|]; [|reflexivity].
  destruct (handler p ty) as [h|]; [destruct (h ev)|]; apply IH.
Qed.

(** The handlers are called in the order of the list, each plugin that has
    one; a veto cuts the calls short. *)
Lemma loop_order ty ps : forall cur a,
  let r := processEvent_loop ty ps cur a in
  (exists k, invoked_names (snd r)
             = invoked_names a ++ firstn k (map name (filter (has_handler ty) ps)))
  /\ (fst r <> None ->
      invoked_names (snd r)
      = invoked_names a ++ map name (filter (has_handler ty) ps)).
Proof.
  induction ps as [|p ps IH]; intros cur a; cbv zeta in *.
  - cbn. split; [exists 0%nat|intros _]; now rewrite app_nil_r.
  - cbn [processEvent_loop]. destruct cur as [ev|].
    + assert (Hfil : filter (has_handler ty) (p :: ps)
                     = match handler p ty with
                       | Some _ => p :: filter (has_handler ty) ps
                       | None => filter (has_handler ty) ps
                       end)
        by (cbn [filter]; unfold has_handler at 1; now destruct (handler p ty)).
      rewrite Hfil. clear Hfil.
      destruct (handler p ty) as [h|]; [|apply IH].
      assert (Hn : forall x, invoked_names (add_invoked (name p, ev) x)
                             = invoked_names x ++ [name p]).
      { intros x. unfold invoked_names. cbn. now rewrite map_app. }
      destruct (h ev) as [r|err].
      * destruct (IH r (add_invoked (name p, ev) a)) as ([k Hk] & Hall).
        rewrite Hn in Hk, Hall. split.
        -- exists (S k). rewrite Hk. cbn. now rewrite <- app_assoc.
        -- intros H. rewrite (Hall H). cbn. now rewrite <- app_assoc.
      * destruct (IH (Some ev) (log (ErrPlugin (name p) err) (add_invoked (name p, ev) a)))
          as ([k Hk] & Hall).
        change (invoked_names (log (ErrPlugin (name p) err) (add_invoked (name p, ev) a)))
          with (invoked_names (add_invoked (name p, ev) a)) in Hk, Hall.
        rewrite Hn in Hk, Hall. split.
        -- exists (S k). rewrite Hk. cbn. now rewrite <- app_assoc.
        -- intros H. rewrite (Hall H). cbn. now rewrite <- app_assoc.
    + cbn. split; [exists 0%nat; now rewrite app_nil_r | congruence].
Qed.

Lemma processEvent_unfold event a :
  processEvent event a
  = (Normal (fst (processEvent_loop (ev_type event) (map_values (plugins a)) (Some event) a)),
     snd (processEvent_loop (ev_type event) (map_values (plugins a)) (Some event) a)).
Proof.
  unfold processEvent. now destruct (processEvent_loop _ _ _ _).
Qed.

Lemma filter_comm (f g : Plugin -> bool) l :
  filter f (filter g l) = filter g (filter f l).
Proof.
  induction l as [|x l IH]; [reflexivity|]. cbn [filter].
  destruct (f x) eqn:Ef, (g x) eqn:Eg; cbn [filter]; rewrite ?Ef, ?Eg, IH; reflexivity.
Qed.

(** One plugin per stage: only one order is sorted. *)
Lemma three_stage_order l pb pe pa :
  type pb = before -> type pe = enrichment -> type pa = after ->
  Permutation l [pb; pe; pa] -> StronglySorted stage_le l -> l = [pb; pe; pa].
Proof.
  intros Tb Te Ta Hperm Hs.
  pose proof (Permutation_length Hperm) as Hlen.
  destruct l as [|x [|y [|z [|]]]]; try discriminate Hlen. clear Hlen.
  assert (Hxy : stage_le x y /\ stage_le x z /\ stage_le y z).
  { inversion Hs as [|? ? Hs' Hx]; subst. inversion Hs' as [|? ? _ Hy]; subst.
    inversion Hx as [|? ? Hxy Hx']; subst. inversion Hx' as [|? ? Hxz _]; subst.
    inversion Hy as [|? ? Hyz _]; subst. now repeat split. }
  destruct Hxy as (Hxy & Hxz & Hyz). unfold stage_le in *.
  assert (Hx : In x [pb; pe; pa]) by (eapply Permutation_in; [exact Hperm | now left]).
  assert (Hy : In y [pb; pe; pa])
    by (eapply Permutation_in; [exact Hperm | right; now left]).
  assert (Hz : In z [pb; pe; pa])
    by (eapply Permutation_in; [exact Hperm | right; right; now left]).
  symmetry in Hperm.
  assert (Hb : In pb [x; y; z]) by (eapply Permutation_in; [exact Hperm | now left]).
  assert (He : In pe [x; y; z])
    by (eapply Permutation_in; [exact Hperm | right; now left]).
  assert (Ha : In pa [x; y; z])
    by (eapply Permutation_in; [exact Hperm | right; right; now left]).
  clear Hperm Hs.
  destruct Hx as [Hx | [Hx | [Hx | []]]], Hy as [Hy | [Hy | [Hy | []]]],
           Hz as [Hz | [Hz | [Hz | []]]]; subst x y z;
    revert Hxy Hxz Hyz; rewrite ?Tb, ?Te, ?Ta; cbn; intros Hxy Hxz Hyz;
    try lia; try reflexivity; exfalso;
    destruct Hb as [Hb | [Hb | [Hb | []]]], He as [He | [He | [He | []]]],
             Ha as [Ha | [Ha | [Ha | []]]]; congruence.
Qed.

(** [register] does not sort: a plugin with a new name goes to the end of
    the map whatever its stage, so the stage order holds for the plugins
    of the configuration only. *)
Lemma register_appends p a :
  ~ In (name p) (map fst (plugins a)) ->
  map_values (plugins (register p a)) = map_values (plugins a) ++ [p].
Proof.
  intros H. unfold register. cbn [plugins set_plugins set_detached].
  rewrite map_set_fresh by assumption.
  unfold map_values. now rewrite map_app.
Qed.

Example register_after_load_runs_last :
  invoked_names (snd (processEvent clicked (register validator (loaded (testConfig [logger])))))
  = ["logger"; "validator"]%string.
Proof. reflexivity. Qed.

(** ** Main results for the pipeline *)

(** X30.  For plugins with distinct names given in the configuration,
    the active plugins after loading are the loaded ones, sorted by
    stage rank (at the end and after each settled load), in registration
    order within a stage; [processEvent] calls the handlers for the
    event's kind in that order, all of them unless one vetoes; and three
    plugins of types before, enrichment and after, registered in any
    order, are active in the order before, enrichment, after. *)
Theorem pipeline_runs_in_stage_order :
  forall cfg event,
    NoDup (map name (AnalyticsConfig.plugins cfg)) ->
    let registered := AnalyticsConfig.plugins cfg in
    let chain := map_values (plugins (loaded cfg)) in
    let r := processEvent event (loaded cfg) in
    Permutation chain (filter load_ok registered)
    /\ StronglySorted stage_le chain
    /\ (forall ty, filter (fun p => PluginType_eqb (type p) ty) chain
                   = filter (fun p => PluginType_eqb (type p) ty)
                            (filter load_ok registered))
    /\ (forall k, StronglySorted stage_le
                    (map_values (plugins (Nat.iter k loadPlugins_resume (new cfg)))))
    /\ (exists k, invoked_names (snd r)
                  = firstn k (map name (filter (has_handler (ev_type event)) chain)))
    /\ (fst r <> Normal None ->
        invoked_names (snd r)
        = map name (filter (has_handler (ev_type event)) chain))
    /\ (forall pb pe pa,
          type pb = before -> type pe = enrichment -> type pa = after ->
          load_ok pb = true -> load_ok pe = true -> load_ok pa = true ->
          Permutation registered [pb; pe; pa] ->
          chain = [pb; pe; pa]).
Proof.
  intros cfg event Hnd registered chain r.
  assert (Hchain : chain = filter load_ok (Array_sort byTypeOrder registered))
    by now apply loaded_chain.
  assert (Hperm : Permutation chain (filter load_ok registered))
    by (rewrite Hchain; apply filter_perm, sort_perm).
  assert (Hsorted : StronglySorted stage_le chain)
    by (rewrite Hchain; apply sorted_filter, sort_sorted).
  assert (Hinv : invoked_names (loaded cfg) = []).
  { unfold invoked_names, loaded.
    destruct (resume_iter (length (AnalyticsConfig.plugins cfg)) (new cfg))
      as (_ & _ & _ & -> & _).
    now destruct (new_fields cfg) as (_ & _ & -> & _). }
  destruct (loop_order (ev_type event) chain (Some event) (loaded cfg)) as (Hk & Hall).
  rewrite Hinv in Hk, Hall. cbn [app] in Hk, Hall.
  subst r. rewrite processEvent_unfold. cbn [fst snd]. fold chain.
  repeat split; try assumption.
  - intros ty. rewrite Hchain, filter_comm, sort_stable. apply filter_comm.
  - intros k. rewrite loading_chain by assumption.
    apply sorted_filter, sorted_firstn, sort_sorted.
  - intros H. apply Hall. congruence.
  - intros pb pe pa Tb Te Ta Lb Le La Hreg.
    apply three_stage_order; try assumption.
    rewrite Hperm, (filter_perm _ _ _ Hreg). cbn [filter].
    now rewrite Lb, Le, La.
Qed.

(** Witness for X30: logger (after), validator (before) and enricher
    (enrichment), given in this order. *)
Lemma pipeline_runs_in_stage_order_witness :
  let a := loaded (testConfig [logger; validator; enricher]) in
  map_values (plugins a) = [validator; enricher; logger]
  /\ invoked_names (snd (processEvent clicked a))
     = ["validator"; "enricher"; "logger"]%string.
Proof.
  assert (Hnd : NoDup (map name (AnalyticsConfig.plugins
                                   (testConfig [logger; validator; enricher])))).
  { repeat constructor; cbn; intuition discriminate. }
  destruct (pipeline_runs_in_stage_order _ clicked Hnd)
    as (_ & _ & _ & _ & _ & Hall & H3).
  cbv zeta. split.
  - apply H3; try reflexivity.
    apply perm_trans with [validator; logger; enricher].
    + apply perm_swap.
    + apply perm_skip, perm_swap.
  - rewrite Hall; [reflexivity | discriminate].
Defined.

(** C5.  Plugins added with [register] are not ordered by stage.  On an
    instance without configured plugins, registering an after plugin,
    then a before plugin, then an enrichment plugin leaves them active in
    the order of the calls, and [processEvent] calls their handlers in
    that order, the after plugin first: not before, enrichment, after. *)
Theorem register_ignores_stage_order :
  let a := register enricher (register validator (register logger (new (testConfig [])))) in
  map_values (plugins a) = [logger; validator; enricher]
  /\ map type (map_values (plugins a)) = [after; before; enrichment]
  /\ invoked_names (snd (processEvent clicked a)) = ["logger"; "validator"; "enricher"]%string
  /\ ~ StronglySorted stage_le (map_values (plugins a)).
Proof.
  cbv zeta. repeat split.
  intros H. inversion H as [|? ? _ Hfirst]; subst.
  inversion Hfirst as [|? ? Hle _]; subst.
  unfold stage_le in Hle. cbn in Hle. lia.
Qed.

Lemma track_delivers eventName properties msgId ts base now a :
  track eventName properties msgId ts base now a
  = deliver (mkEvent Track msgId ts
               (("event", eventName) :: ("properties", properties) :: base)%string)
            now a.
Proof. reflexivity. Qed.

Lemma deliver_unfold event now a :
  deliver event now a
  = let r := processEvent_loop (ev_type event) (map_values (plugins a)) (Some event) a in
    match fst r with
    | Some out => (Normal tt, set_queue (Queue.push out now (queue (snd r))) (snd r))
    | None => (Normal tt, snd r)
    end.
Proof.
  unfold deliver. rewrite processEvent_unfold. cbv zeta.
  now destruct (fst (processEvent_loop _ _ _ _)).
Qed.

(** C6.  If the plugins before [p] hand [cur] to [p] and [p]'s handler
    resolves to [null], then [processEvent] returns [null], the call of
    [p] is the last handler call made (no later plugin is called), and the
    method that built the event returns normally and leaves the queue
    as it was: [push] is not called. *)
Theorem veto_drops_event :
  forall a event now pre p post h cur,
    map_values (plugins a) = pre ++ p :: post ->
    fst (processEvent_loop (ev_type event) pre (Some event) a) = Some cur ->
    handler p (ev_type event) = Some h ->
    h cur = Normal None ->
    let a1 := snd (processEvent_loop (ev_type event) pre (Some event) a) in
    fst (processEvent event a) = Normal None
    /\ invoked (snd (processEvent event a)) = invoked a1 ++ [(name p, cur)]
    /\ fst (deliver event now a) = Normal tt
    /\ queue (snd (deliver event now a)) = queue a.
Proof.
  intros a event now pre p post h cur Hsplit Hpre Hh Hveto a1.
  assert (Hloop : processEvent_loop (ev_type event) (map_values (plugins a)) (Some event) a
                  = (None, add_invoked (name p, cur) a1)).
  { rewrite Hsplit, loop_app, Hpre. fold a1. cbn [processEvent_loop].
    rewrite Hh, Hveto. apply loop_none. }
  rewrite processEvent_unfold, deliver_unfold, Hloop. cbn.
  repeat split.
  subst a1. now destruct (loop_frame (ev_type event) pre (Some event) a) as (-> & _).
Qed.

(** Witness for C6: the blocker vetoes before the logger is reached. *)
Lemma veto_drops_event_witness :
  let a := loaded (testConfig [logger; blocker]) in
  fst (processEvent clicked a) = Normal None
  /\ invoked_names (snd (processEvent clicked a)) = ["blocker"]%string
  /\ Queue.size (queue (snd (deliver clicked 0 a))) = 0%nat.
Proof.
  intros a.
  destruct (veto_drops_event a clicked 0 [] blocker [logger]
              (fun _ => Normal None) clicked)
    as (H1 & H2 & _ & H4); try reflexivity.
  split; [exact H1|]. split.
  - unfold invoked_names. now rewrite H2.
  - now rewrite H4.
Defined.

(** C7.  If the plugins before [p] hand [cur] to [p] and [p]'s handler
    throws or rejects, then the failure is written to the console, the
    plugins after [p] run on [cur] (the next one with a handler is called
    with it), the result is that of the pipeline without [p], nothing is
    thrown to the caller, and an event the pipeline without [p] lets
    through is pushed on the queue. *)
Theorem handler_failure_is_isolated :
  forall a event now pre p post h cur err,
    map_values (plugins a) = pre ++ p :: post ->
    fst (processEvent_loop (ev_type event) pre (Some event) a) = Some cur ->
    handler p (ev_type event) = Some h ->
    h cur = Throw err ->
    let ty := ev_type event in
    let a1 := snd (processEvent_loop ty pre (Some event) a) in
    let a2 := log (ErrPlugin (name p) err) (add_invoked (name p, cur) a1) in
    processEvent event a
    = (Normal (fst (processEvent_loop ty post (Some cur) a2)),
       snd (processEvent_loop ty post (Some cur) a2))
    /\ fst (processEvent event a)
       = Normal (fst (processEvent_loop ty (pre ++ post) (Some event) a))
    /\ In (ErrPlugin (name p) err) (console (snd (processEvent event a)))
    /\ (forall next rest hn,
          post = next :: rest -> handler next ty = Some hn ->
          In (name next, cur) (invoked (snd (processEvent event a))))
    /\ fst (deliver event now a) = Normal tt
    /\ (forall out,
          fst (processEvent_loop ty (pre ++ post) (Some event) a) = Some out ->
          queue (snd (deliver event now a)) = Queue.push out now (queue a)).
Proof.
  intros a event now pre p post h cur err Hsplit Hpre Hh Hthrow ty a1 a2.
  assert (Hloop : processEvent_loop ty (map_values (plugins a)) (Some event) a
                  = processEvent_loop ty post (Some cur) a2).
  { rewrite Hsplit, loop_app. fold ty in Hpre. rewrite Hpre. fold a1.
    cbn [processEvent_loop]. fold ty in Hh. now rewrite Hh, Hthrow. }
  assert (Hwithout : fst (processEvent_loop ty (pre ++ post) (Some event) a)
                     = fst (processEvent_loop ty post (Some cur) a2)).
  { rewrite loop_app. fold ty in Hpre. rewrite Hpre. apply loop_result. }
  destruct (loop_frame ty post (Some cur) a2) as (Hq & _ & [calls Hcalls] & [lines Hlines]).
  destruct (loop_frame ty pre (Some event) a) as (Hq1 & _).
  rewrite processEvent_unfold, deliver_unfold. fold ty. rewrite Hloop, Hwithout.
  cbn [fst snd]. repeat split.
  - rewrite Hlines. apply in_or_app. left. subst a2. cbn.
    apply in_or_app. right. now left.
  - intros next rest hn -> Hn. cbn [processEvent_loop]. rewrite Hn.
    set (a3 := add_invoked (name next, cur) a2).
    assert (Hin : forall x, (exists c, invoked x = invoked a3 ++ c) ->
                            In (name next, cur) (invoked x)).
    { intros x [c ->]. apply in_or_app. left. subst a3. cbn.
      apply in_or_app. right. now left. }
    destruct (hn cur) as [r|e]; apply Hin.
    + apply (loop_frame ty rest r a3).
    + destruct (loop_frame ty rest (Some cur) (log (ErrPlugin (name next) e) a3))
        as (_ & _ & Hc & _). exact Hc.
  - cbv zeta. now destruct (fst (processEvent_loop ty post (Some cur) a2)).
  - intros out Hout. cbv zeta. rewrite Hout. cbn [snd queue set_queue].
    rewrite Hq. subst a2. cbn [queue log add_invoked]. subst a1. now rewrite Hq1.
Qed.

(** Witness for C7: the faulty plugin throws; the enricher and the logger
    still run, and the enriched event is queued. *)
Lemma handler_failure_is_isolated_witness :
  let a := loaded (testConfig [faulty; enricher; logger]) in
  invoked (snd (processEvent clicked a))
  = [("faulty", clicked); ("enricher", clicked);
     ("logger", mkEvent Track "msg-1" "2024-01-15T10:00:00.000Z"
                        [("enriched", "true"); ("event", "Button Clicked")])]%string
  /\ In (ErrPlugin "faulty" "handler failed") (console (snd (processEvent clicked a)))
  /\ fst (deliver clicked 0 a) = Normal tt
  /\ Queue.size (queue (snd (deliver clicked 0 a))) = 1%nat.
Proof.
  intros a.
  destruct (handler_failure_is_isolated a clicked 0 [] faulty [enricher; logger]
              (fun _ => Throw "handler failed"%string) clicked "handler failed"%string)
    as (H1 & _ & H3 & _ & H5 & H6); try reflexivity.
  split; [now rewrite H1|]. split; [exact H3|]. split; [exact H5|].
  now rewrite (H6 _ eq_refl).
Defined.

(** C10.  [register] puts the plugin in the map at once and leaves its
    [load] pending with nobody waiting for it: the plugin's handler is
    called for the next event, its settled [load] changes nothing in the
    map, and a rejected [load] is neither caught nor logged.  A plugin
    given in the configuration is not in the map while its [load] is
    awaited, and never gets there when its [load] rejects (the failure is
    logged). *)
Theorem register_skips_load_protocol :
  forall p a,
    let a' := register p a in
    In (name p, p) (plugins a')
    /\ detached a' = detached a ++ [p]
    /\ plugins (register_load_settled a') = plugins a'
    /\ (forall event h,
          plugins a = [] -> handler p (ev_type event) = Some h ->
          exists calls,
            invoked (snd (processEvent event a')) = invoked a ++ (name p, event) :: calls)
    /\ (forall err,
          load p = Throw err -> detached a = [] ->
          In (name p, p) (plugins (register_load_settled a'))
          /\ unhandled (register_load_settled a') = unhandled a ++ [(name p, err)]
          /\ console (register_load_settled a') = console a)
    /\ (forall cfg,
          AnalyticsConfig.plugins cfg = [p] ->
          plugins (new cfg) = [] /\ loading (new cfg) = [p]
          /\ (load_ok p = true -> plugins (loaded cfg) = [(name p, p)])
          /\ (forall err, load p = Throw err ->
                plugins (loaded cfg) = []
                /\ In (ErrPluginLoad (name p) err) (console (loaded cfg)))).
Proof.
  intros p a a'. subst a'.
  assert (Hin : In (name p, p) (plugins (register p a))) by apply map_set_In.
  assert (Hsettled : forall x, plugins (register_load_settled x) = plugins x).
  { intros x. unfold register_load_settled.
    destruct (detached x); [reflexivity|]. now destruct (load _). }
  split; [exact Hin|]. split; [reflexivity|]. split; [apply Hsettled|].
  split; [|split].
  - intros event h Hempty Hh. rewrite processEvent_unfold. cbn [snd].
    unfold register. cbn [plugins set_plugins set_detached]. rewrite Hempty.
    cbn [map_set map_values map snd processEvent_loop]. rewrite Hh.
    set (a1 := add_invoked _ _).
    assert (H1 : invoked a1 = invoked a ++ [(name p, event)]) by reflexivity.
    assert (Hgo : forall cur x, invoked x = invoked a1 ->
                    exists calls, invoked (snd (processEvent_loop (ev_type event) [] cur x))
                                  = invoked a ++ (name p, event) :: calls).
    { intros cur x Hx. exists []. cbn. now rewrite Hx, H1. }
    destruct (h event); now apply Hgo.
  - intros err Hload Hnone. split; [now rewrite Hsettled|].
    unfold register_load_settled, register.
    cbn [detached set_detached set_plugins]. rewrite Hnone. cbn [app].
    rewrite Hload. now split.
  - intros cfg Hcfg. destruct (new_fields cfg) as (Hp0 & Hl0 & _).
    rewrite Hcfg in Hl0. cbn in Hl0.
    split; [exact Hp0|]. split; [exact Hl0|].
    unfold loaded. rewrite Hcfg. cbn [length].
    change (Nat.iter 1 loadPlugins_resume (new cfg)) with (loadPlugins_resume (new cfg)).
    unfold loadPlugins_resume. rewrite Hl0, Hp0. unfold load_ok.
    split.
    + destruct (load p); [|discriminate]. intros _. cbn.
      now destruct (AnalyticsConfig.debug (config (new cfg))).
    + intros err ->. cbn. split; [exact Hp0|].
      apply in_or_app. right. now left.
Qed.

(** Witness for C10: a plugin whose [load] rejects, registered on a
    fresh instance, and the same plugin given in the configuration. *)
Lemma register_skips_load_protocol_witness :
  let a := register unloadable (loaded (testConfig [])) in
  invoked_names (snd (processEvent clicked a)) = ["unloadable"]%string
  /\ map_values (plugins (register_load_settled a)) = [unloadable]
  /\ unhandled (register_load_settled a) = [("unloadable", "load failed")]%string
  /\ plugins (loaded (testConfig [unloadable])) = [].
Proof.
  intros a.
  destruct (register_skips_load_protocol unloadable (loaded (testConfig [])))
    as (_ & _ & _ & H4 & H5 & H6).
  destruct (H4 clicked (fun ev => Normal (Some (mkEvent (ev_type ev) (ev_messageId ev)
              (ev_timestamp ev) (("enriched", "true") :: ev_fields ev)%string)))
              eq_refl eq_refl) as [calls Hcalls].
  destruct (H5 "load failed"%string eq_refl eq_refl) as (_ & Hu & _).
  destruct (H6 (testConfig [unloadable]) eq_refl) as (_ & _ & _ & Hrej).
  destruct (Hrej "load failed"%string eq_refl) as (Hout & _).
  repeat split; try assumption; reflexivity.
Defined.

End AnalyticsFacts.

(** * More on the delivery queue *)

Module QueueMore.
Import Queue QueueObs.

Create Rewrite HintDb queue_more.
#[local] Hint Rewrite QueueFacts.debug_log_queue QueueFacts.debug_log_config
  QueueFacts.debug_log_isFlushing QueueFacts.debug_log_inflight
  QueueFacts.debug_log_transport QueueFacts.debug_log_flushTimer
  QueueFacts.flush_config QueueFacts.flush_flushTimer : queue_more.

Ltac fields := repeat (autorewrite with queue_more in *; cbn [queue config isFlushing
  inflight transport flushTimer console set_queue set_isFlushing set_inflight
  set_transport set_flushTimer sendBatch clear] in * ).

(** ** [push], case by case *)

Lemma push_then_flush_quiet e now q :
  isFlushing q = true \/ Z.of_nat (length (queue q)) + 1 < flushAt (config q) ->
  let q3 := push_then_flush e now q in
  queue q3 = queue q ++ [mkItem e 0 now] /\ isFlushing q3 = isFlushing q
  /\ inflight q3 = inflight q /\ transport q3 = transport q.
Proof.
  intros H. unfold push_then_flush. cbv zeta. set (q2 := debug_log _ _).
  assert (H2 : queue q2 = queue q ++ [mkItem e 0 now] /\ isFlushing q2 = isFlushing q
               /\ inflight q2 = inflight q /\ transport q2 = transport q
               /\ config q2 = config q) by (subst q2; now fields).
  destruct H2 as (Hq & Hf & Hi & Ht & Hc).
  destruct (_ <=? _) eqn:E; [|now repeat split].
  destruct H as [H | H].
  - rewrite QueueFacts.flush_idle by (left; congruence). now repeat split.
  - apply Z.leb_le in E. rewrite Hc, Hq, length_app in E. cbn [length] in E. lia.
Qed.

Lemma push_then_flush_fires e now q :
  isFlushing q = false -> flushAt (config q) <= Z.of_nat (length (queue q)) + 1 ->
  let q3 := push_then_flush e now q in
  queue q3 = [] /\ isFlushing q3 = true
  /\ inflight q3 = inflight q ++ [queue q ++ [mkItem e 0 now]]
  /\ transport q3 = transport q ++ [request_of q (queue q ++ [mkItem e 0 now])].
Proof.
  intros Hidle Hat. unfold push_then_flush. cbv zeta. set (q2 := debug_log _ _).
  assert (H2 : queue q2 = queue q ++ [mkItem e 0 now] /\ isFlushing q2 = false
               /\ inflight q2 = inflight q /\ transport q2 = transport q
               /\ config q2 = config q) by (subst q2; now fields).
  destruct H2 as (Hq & Hf & Hi & Ht & Hc).
  destruct (_ <=? _) eqn:E.
  - rewrite QueueFacts.flush_fires; [|assumption|rewrite Hq; now destruct (queue q)].
    cbn [queue isFlushing inflight transport]. unfold request_of.
    now rewrite Hq, Hi, Ht, Hc.
  - apply Z.leb_gt in E. rewrite Hc, Hq, length_app in E. cbn [length] in E. lia.
Qed.

Lemma push_then_flush_flushTimer e now q :
  flushTimer (push_then_flush e now q) = flushTimer q.
Proof.
  unfold push_then_flush. cbv zeta. destruct (_ <=? _); now fields.
Qed.

(** After the flush check, [push] only touches the queue. *)
Lemma push_fields e now q :
  let q3 := push_then_flush e now q in
  queue (push e now q)
  = (if maxQueueSize (config q) <? Z.of_nat (length (queue q3))
     then tl (queue q3) else queue q3)
  /\ isFlushing (push e now q) = isFlushing q3
  /\ inflight (push e now q) = inflight q3
  /\ transport (push e now q) = transport q3
  /\ flushTimer (push e now q) = flushTimer q.
Proof.
  cbv zeta. rewrite QueueFacts.push_unfold. cbv zeta.
  rewrite <- (push_then_flush_flushTimer e now q).
  destruct (_ <? _); now fields.
Qed.

Lemma pushes_app es1 es2 : pushes (es1 ++ es2) = pushes es1 ++ pushes es2.
Proof. unfold pushes. apply map_app. Qed.

(** Below both thresholds, pushes only lengthen the queue. *)
Lemma pushes_accumulate es : forall q,
  isFlushing q = false ->
  Z.of_nat (length (queue q) + length es) < flushAt (config q) ->
  Z.of_nat (length (queue q) + length es) <= maxQueueSize (config q) ->
  let q' := run (pushes es) q in
  queue q' = queue q ++ map fresh es /\ isFlushing q' = false
  /\ inflight q' = inflight q /\ transport q' = transport q /\ config q' = config q.
Proof.
  induction es as [|[e now] es IH]; intros q Hidle Hat Hmax; cbv zeta.
  - cbn. now rewrite app_nil_r.
  - cbn [pushes map fst snd]. rewrite QueueFacts.run_cons. cbn [step length] in *.
    destruct (push_then_flush_quiet e now q) as (Hq & Hf & Hi & Ht); [right; lia|].
    destruct (push_fields e now q) as (Pq & Pf & Pi & Pt & _).
    rewrite Hq, length_app in Pq. cbn [length] in Pq.
    destruct (_ <? _) eqn:E in Pq; [apply Z.ltb_lt in E; lia|].
    assert (Hc : config (push e now q) = config q) by apply QueueFacts.push_config.
    destruct (IH (push e now q)) as (Iq & If & Ii & It & Ic).
    + congruence.
    + rewrite Hc, Pq, length_app. cbn [length]. lia.
    + rewrite Hc, Pq, length_app. cbn [length]. lia.
    + fold (pushes es). rewrite Iq, If, Ii, It, Ic, Pq, Pi, Pt, Hi, Ht.
      rewrite <- app_assoc. now repeat split.
Qed.

(** The push that reaches [flushAt] sends everything pushed so far. *)
Lemma pushes_reach_flushAt :
  forall cfg es,
    es <> [] ->
    flushAt cfg = Z.of_nat (length es) ->
    flushAt cfg - 1 <= maxQueueSize cfg ->
    let q := run (pushes es) (new cfg) in
    transport q
    = [mkRequest (apiHost cfg ++ "/v1/batch")%string (writeKey cfg) (map fst es)]
    /\ inflight q = [map fresh es]
    /\ size q = 0%nat /\ isFlushing q = true /\ config q = cfg.
Proof.
  intros cfg es Hne Hat Hmax.
  destruct (exists_last Hne) as (es' & [e now] & ->).
  rewrite length_app in Hat. cbn [length] in Hat.
  cbv zeta. rewrite pushes_app, QueueFacts.run_app. cbn [pushes map fst snd].
  destruct (pushes_accumulate es' (new cfg)) as (Iq & If & Ii & It & Ic);
    [reflexivity | cbn; lia | cbn; lia |].
  set (q := run (pushes es') (new cfg)) in *.
  cbn [run fold_left step]. cbn [queue new startFlushInterval set_flushTimer app
    inflight transport config] in Iq, Ii, It, Ic.
  destruct (push_then_flush_fires e now q) as (Hq & Hf & Hi & Ht);
    [assumption | rewrite Ic, Iq, length_map; lia |].
  destruct (push_fields e now q) as (Pq & Pf & Pi & Pt & _).
  rewrite Hq in Pq. cbn [length tl] in Pq.
  assert (Pq' : queue (push e now q) = []) by (now destruct (_ <? _) in Pq).
  unfold size. rewrite QueueFacts.push_config.
  rewrite Pq', Pf, Pi, Pt, Hf, Hi, Ht, Ii, It, Iq. unfold request_of.
  rewrite Ic, !map_app, map_map. cbn. repeat split.
Qed.

(** X1.  On a fresh queue, the push that brings the number of events to
    [flushAt] sends them all in one request, in push order, without any
    call to [flush()], provided the pushes before it fit in the queue. *)
Theorem flushAt_pushes_make_one_request :
  forall cfg es,
    es <> [] ->
    flushAt cfg = Z.of_nat (length es) ->
    flushAt cfg - 1 <= maxQueueSize cfg ->
    let q := run (pushes es) (new cfg) in
    transport q
    = [mkRequest (apiHost cfg ++ "/v1/batch")%string (writeKey cfg) (map fst es)]
    /\ inflight q = [map fresh es]
    /\ size q = 0%nat /\ isFlushing q = true.
Proof.
  intros cfg es Hne Hat Hmax.
  destruct (pushes_reach_flushAt cfg es Hne Hat Hmax) as (H1 & H2 & H3 & H4 & _).
  now repeat split.
Qed.

(** Witness for X1: five events on the test configuration. *)
Lemma flushAt_pushes_make_one_request_witness :
  let es := [(trackEvent "Event 0", 0); (trackEvent "Event 1", 1);
             (trackEvent "Event 2", 2); (trackEvent "Event 3", 3);
             (trackEvent "Event 4", 4)] in
  map batchBody (transport (run (pushes es) (new defaultConfig)))
  = [[trackEvent "Event 0"; trackEvent "Event 1"; trackEvent "Event 2";
      trackEvent "Event 3"; trackEvent "Event 4"]].
Proof.
  intros es.
  destruct (flushAt_pushes_make_one_request defaultConfig es) as (Ht & _).
  - discriminate.
  - reflexivity.
  - vm_compute. discriminate.
  - now rewrite Ht.
Defined.

(** X2.  A push that starts no flush onto a queue that is full (or over
    the bound) appends the event and drops the head: the oldest item goes
    and the new one stays; with nothing queued ([maxQueueSize] 0) the new
    event itself is dropped.  No request is made. *)
Theorem overflow_drops_the_oldest :
  forall e now q,
    maxQueueSize (config q) <= Z.of_nat (length (queue q)) ->
    isFlushing q = true \/ Z.of_nat (length (queue q)) + 1 < flushAt (config q) ->
    queue (push e now q) = tl (queue q ++ [mkItem e 0 now])
    /\ size (push e now q) = size q
    /\ transport (push e now q) = transport q
    /\ (forall oldest rest, queue q = oldest :: rest ->
        queue (push e now q) = rest ++ [mkItem e 0 now]).
Proof.
  intros e now q Hfull Hquiet.
  destruct (push_then_flush_quiet e now q Hquiet) as (Hq & Hf & Hi & Ht).
  destruct (push_fields e now q) as (Pq & _ & _ & Pt & _).
  rewrite Hq in Pq. rewrite length_app in Pq. cbn [length] in Pq.
  destruct (_ <? _) eqn:E in Pq; [|apply Z.ltb_ge in E; lia].
  unfold size. rewrite Pq, Pt, Ht. repeat split.
  - destruct (queue q); cbn; [reflexivity|]. rewrite length_app. cbn. lia.
  - now intros oldest rest ->.
Qed.

(** Witness for X2: a full queue of two on [tightConfig] while a send is
    in flight. *)
Lemma overflow_drops_the_oldest_witness :
  let q := run [APush (trackEvent "0") 0; APush (trackEvent "1") 1; APush (trackEvent "2") 2;
                APush (trackEvent "3") 3; APush (trackEvent "4") 4] (new tightConfig) in
  map event (queue (push (trackEvent "5") 5 q)) = [trackEvent "4"; trackEvent "5"].
Proof.
  intros q.
  destruct (overflow_drops_the_oldest (trackEvent "5") 5 q) as (_ & _ & _ & H).
  - vm_compute. discriminate.
  - left. reflexivity.
  - now rewrite (H _ _ eq_refl).
Defined.

(** ** Every operation, field by field *)

Lemma flush_either q :
  ((isFlushing q = true \/ queue q = []) /\ flush q = q) \/
  (isFlushing q = false /\ queue q <> [] /\ queue (flush q) = []
   /\ isFlushing (flush q) = true /\ inflight (flush q) = inflight q ++ [queue q]
   /\ transport (flush q) = transport q ++ [request_of q (queue q)]
   /\ console (flush q) = console q).
Proof.
  destruct (isFlushing q) eqn:Hf;
    [left; split; [now left | apply QueueFacts.flush_idle; now left]|].
  destruct (queue q) eqn:Hq;
    [left; split; [now right | apply QueueFacts.flush_idle; now right]|].
  right. rewrite QueueFacts.flush_fires by congruence.
  unfold request_of. rewrite Hq. now repeat split.
Qed.

Lemma push_either e now q :
  let item := mkItem e 0 now in
  ((queue (push e now q) = queue q ++ [item]
    \/ queue (push e now q) = tl (queue q ++ [item]))
   /\ isFlushing (push e now q) = isFlushing q
   /\ inflight (push e now q) = inflight q
   /\ transport (push e now q) = transport q
   /\ (Z.of_nat (length (queue q)) + 1 <= maxQueueSize (config q) ->
       queue (push e now q) = queue q ++ [item]))
  \/ (isFlushing q = false /\ queue (push e now q) = []
      /\ isFlushing (push e now q) = true
      /\ inflight (push e now q) = inflight q ++ [queue q ++ [item]]
      /\ transport (push e now q) = transport q ++ [request_of q (queue q ++ [item])]).
Proof.
  cbv zeta. destruct (push_fields e now q) as (Pq & Pf & Pi & Pt & _).
  rewrite Pf, Pi, Pt.
  destruct (isFlushing q) eqn:Hf.
  - left. destruct (push_then_flush_quiet e now q) as (Hq & -> & -> & ->); [now left|].
    rewrite Hq in Pq. rewrite length_app in Pq. cbn [length] in Pq.
    destruct (_ <? _) eqn:E in Pq; repeat split; auto.
    apply Z.ltb_lt in E. lia.
  - destruct (Z_lt_le_dec (Z.of_nat (length (queue q)) + 1) (flushAt (config q))) as [H | H].
    + left. destruct (push_then_flush_quiet e now q) as (Hq & -> & -> & ->); [now right|].
      rewrite Hq in Pq. rewrite length_app in Pq. cbn [length] in Pq.
      destruct (_ <? _) eqn:E in Pq; repeat split; auto.
      apply Z.ltb_lt in E. lia.
    + right. destruct (push_then_flush_fires e now q Hf H) as (Hq & -> & -> & ->).
      rewrite Hq in Pq. cbn in Pq. split; [reflexivity|].
      split; [now destruct (_ <? _) in Pq|]. now repeat split.
Qed.

Lemma flush_settled_either r batch q :
  (failed r = false /\ queue (flush_settled r batch q) = queue q)
  \/ (failed r = true
      /\ queue (flush_settled r batch q) = queue q ++ survivors (config q) batch).
Proof.
  destruct (failed r) eqn:E; [right | left]; split; try reflexivity.
  - now apply QueueFacts.flush_settled_failed.
  - now apply QueueFacts.flush_settled_ok.
Qed.

Lemma destroy_fields q :
  queue (destroy q) = [] /\ flushTimer (destroy q) = None
  /\ config (destroy q) = config q
  /\ (((isFlushing q = true \/ queue q = [])
       /\ isFlushing (destroy q) = isFlushing q /\ inflight (destroy q) = inflight q
       /\ transport (destroy q) = transport q)
      \/ (isFlushing q = false /\ queue q <> [] /\ isFlushing (destroy q) = true
          /\ inflight (destroy q) = inflight q ++ [queue q]
          /\ transport (destroy q) = transport q ++ [request_of q (queue q)])).
Proof.
  unfold destroy.
  destruct (QueueFacts.stopFlushInterval_proj q) as (Hq & Hc & Hf & Hi & Ht & Hm).
  set (q1 := stopFlushInterval q) in *.
  split; [reflexivity|]. split; [now fields|]. split; [now fields|].
  destruct (flush_either q1) as [[Ec E] | (Ef & En & _ & Ef' & Ei & Et & _)].
  - left. rewrite E. cbn. rewrite <- Hf, <- Hq, Hi, Ht. now repeat split.
  - right. split; [congruence|]. split; [congruence|].
    cbn [clear set_queue isFlushing inflight transport].
    rewrite Ef', Ei, Et, Hi, Ht. unfold request_of. rewrite Hc, Hq.
    now repeat split.
Qed.

(** A step makes no request, or one for a batch that is not empty. *)
Lemma step_transport q a :
  transport (step q a) = transport q
  \/ exists batch, batch <> [] /\ transport (step q a) = transport q ++ [request_of q batch].
Proof.
  destruct a; cbn [step].
  - destruct (push_either e now q) as [(_ & _ & _ & Ht & _) | (_ & _ & _ & _ & Ht)];
      [now left|].
    right. eexists. split; [|exact Ht]. now destruct (queue q).
  - destruct (flush_either q) as [[_ ->] | (_ & Hn & _ & _ & _ & Ht & _)]; [now left|].
    right. now exists (queue q).
  - destruct (flushTimer q); [|now left].
    destruct (flush_either q) as [[_ ->] | (_ & Hn & _ & _ & _ & Ht & _)]; [now left|].
    right. now exists (queue q).
  - left. destruct (inflight q); [reflexivity|].
    now rewrite QueueFacts.flush_settled_transport.
  - left. apply QueueFacts.stopFlushInterval_proj.
  - now left.
  - destruct (destroy_fields q) as (_ & _ & _ & [(_ & _ & _ & Ht) | (_ & Hn & _ & _ & Ht)]);
      [now left|].
    right. now exists (queue q).
Qed.

(** X3.  Every request a queue ever makes goes to [apiHost/v1/batch],
    carries the write key of the configuration, and has at least one
    event: no empty batch is sent. *)
Theorem every_request_is_well_formed :
  forall cfg tr, Forall (well_formed cfg) (transport (run tr (new cfg))).
Proof.
  intros cfg tr.
  assert (H : forall tr q, Forall (well_formed (config q)) (transport q) ->
                           Forall (well_formed (config q)) (transport (run tr q))).
  { clear. induction tr as [|a tr IH]; intros q Hq; [assumption|].
    rewrite QueueFacts.run_cons, <- (QueueFacts.step_config q a).
    apply IH. rewrite QueueFacts.step_config.
    destruct (step_transport q a) as [-> | (batch & Hn & ->)]; [assumption|].
    apply Forall_app. split; [assumption|]. constructor; [|constructor].
    unfold well_formed, request_of. cbn. repeat split.
    now destruct batch. }
  apply (H tr (new cfg)). constructor.
Qed.

(** ** The retry counter *)

Lemma survivors_counted cfg batch :
  Forall (counted cfg) batch -> Forall (counted cfg) (survivors cfg batch).
Proof.
  unfold survivors. induction 1 as [|i batch Hi _ IH]; cbn [map filter]; [constructor|].
  destruct (_ <? _) eqn:E; [|assumption].
  constructor; [|assumption]. apply Z.ltb_lt in E.
  unfold counted, incremented in *. cbn [attempts] in *. lia.
Qed.

Lemma tl_Forall {A} (P : A -> Prop) l : Forall P l -> Forall P (tl l).
Proof. destruct 1; [constructor | assumption]. Qed.

Lemma step_counted q a : all_counted q -> all_counted (step q a).
Proof.
  unfold all_counted. rewrite QueueFacts.step_config. intros [Hq Hi].
  assert (Hitem : forall e now, Forall (counted (config q)) (queue q ++ [mkItem e 0 now])).
  { intros e now. apply Forall_app. split; [assumption|].
    constructor; [|constructor]. unfold counted. cbn. lia. }
  destruct a; cbn [step].
  - destruct (push_either e now q)
      as [([-> | ->] & _ & -> & _) | (_ & -> & _ & -> & _)].
    + now split.
    + split; [now apply tl_Forall | assumption].
    + split; [constructor|]. apply Forall_app. split; [assumption|].
      constructor; [apply Hitem | constructor].
  - destruct (flush_either q) as [[_ ->] | (_ & _ & -> & _ & -> & _)]; [now split|].
    split; [constructor|]. apply Forall_app. split; [assumption|].
    now repeat constructor.
  - destruct (flushTimer q); [|now split].
    destruct (flush_either q) as [[_ ->] | (_ & _ & -> & _ & -> & _)]; [now split|].
    split; [constructor|]. apply Forall_app. split; [assumption|].
    now repeat constructor.
  - destruct (inflight q) as [|batch rest] eqn:E; [rewrite E; now split|].
    inversion Hi as [|? ? Hb Hr]; subst.
    rewrite QueueFacts.flush_settled_inflight. cbn [inflight set_inflight].
    split; [|assumption].
    destruct (flush_settled_either r batch (set_inflight rest q)) as [[_ ->] | [_ ->]];
      cbn [queue config set_inflight]; [assumption|].
    apply Forall_app. split; [assumption | now apply survivors_counted].
  - destruct (QueueFacts.stopFlushInterval_proj q) as (-> & _ & _ & -> & _). now split.
  - split; [constructor | assumption].
  - destruct (destroy_fields q) as (-> & _ & _ & [(_ & _ & -> & _) | (_ & _ & _ & -> & _)]);
      (split; [constructor|]); [assumption|].
    apply Forall_app. split; [assumption|]. now repeat constructor.
Qed.

Lemma run_counted tr : forall q, all_counted q -> all_counted (run tr q).
Proof.
  induction tr as [|a tr IH]; intros q H; [assumption|].
  rewrite QueueFacts.run_cons. now apply IH, step_counted.
Qed.

Lemma new_counted cfg : all_counted (new cfg).
Proof. split; constructor. Qed.

(** X4.  Whatever happens to a queue, each item it holds or has in flight
    has an [attempts] counter that is 0 (never failed) or positive and
    below [retryAttempts]: an item that failed [retryAttempts] times or
    more is never kept. *)
Theorem attempts_stay_below_retryAttempts :
  forall cfg tr,
    let q := run tr (new cfg) in
    Forall (counted cfg) (queue q)
    /\ Forall (Forall (counted cfg)) (inflight q).
Proof.
  intros cfg tr q. pose proof (run_counted tr (new cfg) (new_counted cfg)) as H.
  unfold all_counted in H. subst q. now rewrite QueueFacts.run_config in H.
Qed.

(** X5.  With [retryAttempts] at most 1 there is no retry at all: on any
    state a run reaches, a send that settles, failed or not, leaves the
    queue as it is, and the failed batch is gone. *)
Theorem retryAttempts_up_to_one_never_retries :
  forall cfg tr r,
    retryAttempts cfg <= 1 ->
    let q := run tr (new cfg) in
    queue (step q (ASettle r)) = queue q
    /\ inflight (step q (ASettle r)) = tl (inflight q).
Proof.
  intros cfg tr r Hretry q.
  pose proof (run_counted tr (new cfg) (new_counted cfg)) as [_ Hi]. fold q in Hi.
  assert (Hc : config q = cfg) by (subst q; apply QueueFacts.run_config).
  clearbody q.
  cbn [step]. destruct (inflight q) as [|batch rest] eqn:E; [rewrite E; now split|].
  rewrite QueueFacts.flush_settled_inflight. cbn [inflight set_inflight tl].
  split; [|reflexivity].
  destruct (flush_settled_either r batch (set_inflight rest q)) as [[_ ->] | [_ ->]];
    cbn [queue config set_inflight]; [reflexivity|].
  assert (Hb : Forall (counted (config q)) batch) by (inversion Hi; assumption).
  rewrite Hc in *.
  assert (Hs : survivors cfg batch = []).
  { unfold survivors. clear -Hb Hretry. induction Hb as [|i batch Hi _ IH]; [reflexivity|].
    cbn [map filter]. rewrite IH. unfold incremented. cbn [attempts].
    destruct Hi as [Hi _]. destruct (_ <? _) eqn:E; [apply Z.ltb_lt in E; lia|].
    reflexivity. }
  rewrite Hs. apply app_nil_r.
Qed.

(** Witness for X5: one retry attempt configured, a batch of two fails. *)
Lemma retryAttempts_up_to_one_never_retries_witness :
  let cfg := mkConfig 5 10000 10 1 "https://api.test.com" "test-write-key" false in
  let tr := [APush (trackEvent "0") 0; APush (trackEvent "1") 1; AFlush] in
  size (step (run tr (new cfg)) (ASettle FetchRejected)) = 0%nat.
Proof.
  intros cfg tr.
  destruct (retryAttempts_up_to_one_never_retries cfg tr FetchRejected) as [H _].
  - vm_compute. discriminate.
  - unfold size. now rewrite H.
Defined.

(** X6.  [clear()] and [destroy()] do not cancel a send in flight: if it
    fails afterwards, the items of its batch that may still be retried are
    put back in the emptied queue; after [destroy()] they stay there
    with the timer off. *)
Theorem clear_does_not_cancel_the_send :
  forall q r,
    failed r = true ->
    (forall batch rest, inflight q = batch :: rest ->
       queue (step (clear q) (ASettle r)) = survivors (config q) batch)
    /\ (isFlushing q = false -> inflight q = [] ->
        let q' := step (destroy q) (ASettle r) in
        queue q' = survivors (config q) (queue q)
        /\ flushTimer q' = None /\ isFlushing q' = false).
Proof.
  intros q r Hr. split.
  - intros batch rest Hi. cbn [step clear inflight set_queue]. rewrite Hi.
    now rewrite QueueFacts.flush_settled_failed.
  - intros Hidle Hnone. cbv zeta.
    destruct (destroy_fields q)
      as (Hq & Hm & Hc & [([Hx | Hx] & Hf & Hi & _) | (_ & Hn & _ & Hi & _)]);
      cbn [step]; rewrite Hi, Hnone; cbn [app].
    + congruence.
    + rewrite Hq, Hm, Hf, Hx. now repeat split.
    + rewrite QueueFacts.flush_settled_failed, QueueFacts.flush_settled_flushTimer by assumption.
      cbn [queue config flushTimer set_inflight]. rewrite Hq, Hm, Hc. now repeat split.
Qed.

(** Witness for X6: two events cleared by [destroy()] come back when the
    final send is rejected. *)
Lemma clear_does_not_cancel_the_send_witness :
  let q := run [APush (trackEvent "0") 0; APush (trackEvent "1") 1] (new defaultConfig) in
  map event (queue (step (destroy q) (ASettle FetchRejected)))
  = [trackEvent "0"; trackEvent "1"]
  /\ size (step (clear (flush q)) (ASettle FetchRejected)) = 2%nat.
Proof.
  intros q.
  destruct (clear_does_not_cancel_the_send q FetchRejected eq_refl) as [_ H].
  destruct (clear_does_not_cancel_the_send (flush q) FetchRejected eq_refl) as [H' _].
  destruct (H eq_refl eq_refl) as (Hq & _).
  split.
  - now rewrite Hq.
  - unfold size. now rewrite (H' _ _ eq_refl).
Defined.

(** ** Where events come from and where they go *)

Lemma sent_events_app q r :
  flat_map batchBody (transport q ++ [r]) = sent_events q ++ batchBody r.
Proof. unfold sent_events. rewrite flat_map_app. cbn. now rewrite app_nil_r. Qed.

Lemma inflight_events_app (l : list (list QueueItem)) b :
  flat_map (map event) (l ++ [b]) = flat_map (map event) l ++ map event b.
Proof. rewrite flat_map_app. cbn. now rewrite app_nil_r. Qed.

Lemma survivors_events cfg batch :
  incl (map event (survivors cfg batch)) (map event batch).
Proof.
  unfold survivors. induction batch as [|i batch IH]; cbn [map filter]; [easy|].
  destruct (_ <? _); cbn [map incremented event].
  - intros x [<- | H]; [now left | right; now apply IH].
  - now apply incl_tl.
Qed.

Lemma tl_incl {A} (l : list A) : incl (tl l) l.
Proof. destruct l; [easy | now apply incl_tl]. Qed.

(** A step adds no event but the one it pushes. *)
Lemma step_events q a :
  incl (events_of (step q a)) (events_of q ++ pushed_events [a]).
Proof.
  intros x Hx. destruct a; cbn [step pushed_events flat_map app] in *;
    rewrite ?app_nil_r.
  - unfold events_of in *.
    destruct (push_either e now q)
      as [(Hq & _ & Hi & Ht & _) | (_ & Hq & _ & Hi & Ht)].
    + unfold sent_events in *. rewrite Hi, Ht in Hx.
      rewrite !in_app_iff in *. cbn [In].
      destruct Hx as [Hx | Hx]; [|tauto].
      assert (Hin : In x (map event (queue q ++ [mkItem e 0 now]))).
      { destruct Hq as [Hq | Hq]; rewrite Hq in Hx; [assumption|].
        apply in_map_iff in Hx as (i & <- & Hi'). apply in_map. now apply tl_incl. }
      rewrite map_app, in_app_iff in Hin. cbn in Hin. tauto.
    + unfold sent_events in *. rewrite Hq, Hi, Ht in Hx.
      rewrite inflight_events_app, sent_events_app in Hx. unfold request_of in Hx.
      cbn [batchBody map] in Hx. unfold sent_events in Hx.
      rewrite !in_app_iff, !map_app, !in_app_iff in *. cbn [In map] in *. tauto.
  - destruct (flush_either q) as [[_ E] | (_ & _ & Hq & _ & Hi & Ht & _)];
      [now rewrite E in Hx|].
    unfold events_of, sent_events in *. rewrite Hq, Hi, Ht in Hx.
    rewrite inflight_events_app, sent_events_app in Hx. unfold request_of, sent_events in Hx.
    cbn [batchBody map] in Hx. rewrite !in_app_iff in *. cbn [In] in *. tauto.
  - destruct (flushTimer q); [|assumption].
    destruct (flush_either q) as [[_ E] | (_ & _ & Hq & _ & Hi & Ht & _)];
      [now rewrite E in Hx|].
    unfold events_of, sent_events in *. rewrite Hq, Hi, Ht in Hx.
    rewrite inflight_events_app, sent_events_app in Hx. unfold request_of, sent_events in Hx.
    cbn [batchBody map] in Hx. rewrite !in_app_iff in *. cbn [In] in *. tauto.
  - destruct (inflight q) as [|batch rest] eqn:E; [assumption|].
    unfold events_of, sent_events in *.
    rewrite QueueFacts.flush_settled_inflight, QueueFacts.flush_settled_transport in Hx.
    cbn [inflight transport set_inflight] in Hx. rewrite E. cbn [flat_map].
    rewrite !in_app_iff in *.
    destruct Hx as [Hx | Hx]; [|tauto].
    destruct (flush_settled_either r batch (set_inflight rest q)) as [[_ Hq] | [_ Hq]];
      rewrite Hq in Hx; cbn [queue config set_inflight] in Hx; [tauto|].
    rewrite map_app, in_app_iff in Hx. destruct Hx as [Hx | Hx]; [tauto|].
    apply survivors_events in Hx. tauto.
  - unfold events_of, sent_events in *.
    now destruct (QueueFacts.stopFlushInterval_proj q) as (<- & _ & _ & <- & <- & _).
  - unfold events_of, sent_events, clear, set_queue in *.
    cbn [queue inflight transport map app] in Hx. rewrite !in_app_iff in *. tauto.
  - unfold events_of, sent_events in *.
    destruct (destroy_fields q)
      as (Hq & _ & _ & [(_ & _ & Hi & Ht) | (_ & _ & _ & Hi & Ht)]);
      rewrite Hq, Hi, Ht in Hx; cbn [map app] in Hx.
    + rewrite !in_app_iff in *. tauto.
    + rewrite inflight_events_app, sent_events_app in Hx. unfold request_of, sent_events in Hx.
      cbn [batchBody] in Hx. rewrite !in_app_iff in *. tauto.
Qed.

Lemma pushed_events_cons a tr :
  pushed_events (a :: tr) = pushed_events [a] ++ pushed_events tr.
Proof. unfold pushed_events. cbn [flat_map]. now rewrite app_nil_r. Qed.

(** X7.  A queue never makes up an event: every event it holds, has in
    flight or has put in a request was given to [push] earlier in the
    run. *)
Theorem no_event_from_nowhere :
  forall cfg tr e,
    In e (events_of (run tr (new cfg))) -> In e (pushed_events tr).
Proof.
  intros cfg tr.
  assert (H : forall tr q, incl (events_of (run tr q)) (events_of q ++ pushed_events tr)).
  { clear. induction tr as [|a tr IH]; intros q x Hx.
    - cbn in *. now rewrite app_nil_r.
    - rewrite QueueFacts.run_cons in Hx. apply IH in Hx.
      rewrite pushed_events_cons. rewrite in_app_iff in Hx. rewrite !in_app_iff.
      destruct Hx as [Hx | Hx]; [|tauto].
      apply step_events in Hx. rewrite in_app_iff in Hx. tauto. }
  intros e He. apply H in He. apply in_app_or in He as [He | He]; [|assumption].
  contradiction He.
Qed.

(** Witness for X7: the events of the first request of [overflow_trace]. *)
Lemma no_event_from_nowhere_witness :
  In (trackEvent "1") (pushed_events overflow_trace).
Proof.
  apply (no_event_from_nowhere tightConfig overflow_trace).
  vm_compute. do 3 right. now left.
Defined.

(** X8.  While nothing fails and nothing is cleared, and the pushes fit
    in the queue, delivery is exactly once and in order: the events of
    the requests made so far, in request order, followed by the events
    still queued, are the pushed events in push order. *)
Theorem undisturbed_delivery_is_in_order :
  forall cfg tr,
    undisturbed tr = true ->
    Z.of_nat (length (pushed_events tr)) <= maxQueueSize cfg ->
    let q := run tr (new cfg) in
    sent_events q ++ map event (queue q) = pushed_events tr.
Proof.
  intros cfg tr Htr Hfit.
  assert (H : forall tr q,
             undisturbed tr = true ->
             Z.of_nat (length (queue q) + length (pushed_events tr))
             <= maxQueueSize (config q) ->
             sent_events (run tr q) ++ map event (queue (run tr q))
             = sent_events q ++ map event (queue q) ++ pushed_events tr).
  { clear. induction tr as [|a tr IH]; intros q Htr Hfit.
    - cbn. now rewrite app_nil_r.
    - cbn [undisturbed forallb] in Htr. apply andb_true_iff in Htr as [Ha Htr].
      rewrite QueueFacts.run_cons, pushed_events_cons in *.
      rewrite length_app in Hfit.
      assert (Hstep : sent_events (step q a) ++ map event (queue (step q a))
                      = sent_events q ++ map event (queue q) ++ pushed_events [a]
                      /\ (length (queue (step q a))
                          <= length (queue q) + length (pushed_events [a]))%nat).
      { destruct a; cbn [step pushed_events flat_map app length] in *;
          rewrite ?app_nil_r; try discriminate Ha.
        - destruct (push_either e now q)
            as [(_ & _ & _ & Ht & Hq) | (_ & Hq & _ & _ & Ht)]; unfold sent_events.
          + rewrite Ht, Hq by lia. rewrite map_app, length_app. cbn.
            split; [reflexivity | lia].
          + rewrite Ht, Hq. fold (sent_events q). rewrite sent_events_app.
            unfold request_of. cbn [batchBody map length].
            rewrite map_app, app_nil_r. cbn. split; [reflexivity | lia].
        - destruct (flush_either q) as [[_ ->] | (_ & _ & Hq & _ & _ & Ht & _)];
            [split; [reflexivity | lia]|].
          unfold sent_events. rewrite Ht, Hq. fold (sent_events q).
          rewrite sent_events_app. cbn. rewrite app_nil_r. split; [reflexivity | lia].
        - destruct (flushTimer q); [|split; [reflexivity | lia]].
          destruct (flush_either q) as [[_ ->] | (_ & _ & Hq & _ & _ & Ht & _)];
            [split; [reflexivity | lia]|].
          unfold sent_events. rewrite Ht, Hq. fold (sent_events q).
          rewrite sent_events_app. cbn. rewrite app_nil_r. split; [reflexivity | lia].
        - destruct (inflight q) as [|batch rest]; [split; [reflexivity | lia]|].
          apply negb_true_iff in Ha. unfold sent_events.
          rewrite QueueFacts.flush_settled_transport, QueueFacts.flush_settled_ok by assumption.
          cbn. split; [reflexivity | lia].
        - unfold sent_events.
          destruct (QueueFacts.stopFlushInterval_proj q) as (-> & _ & _ & _ & -> & _).
          split; [reflexivity | lia]. }
      destruct Hstep as [Heq Hlen].
      rewrite IH; [|assumption|rewrite QueueFacts.step_config; lia].
      rewrite app_assoc, Heq, <- !app_assoc. reflexivity. }
  cbv zeta. rewrite (H tr (new cfg)); [reflexivity | assumption | cbn; lia].
Qed.

(** Witness for X8: three events, a flush after the second, a tick, the
    send succeeds; all three are accounted for, in order. *)
Lemma undisturbed_delivery_is_in_order_witness :
  let tr := [APush (trackEvent "0") 0; APush (trackEvent "1") 1; AFlush;
             APush (trackEvent "2") 2; ATick; ASettle (FetchResponse true)] in
  let q := run tr (new defaultConfig) in
  sent_events q ++ map event (queue q)
  = [trackEvent "0"; trackEvent "1"; trackEvent "2"].
Proof.
  intros tr q.
  apply (undisturbed_delivery_is_in_order defaultConfig tr).
  - reflexivity.
  - vm_compute. discriminate.
Defined.

(** ** The console and the timer *)

Lemma debug_log_off e q : debug (config q) = false -> debug_log e q = q.
Proof. unfold debug_log. now intros ->. Qed.

Lemma retry_loop_console batch : forall q,
  debug (config q) = false -> console (fold_left retry_item batch q) = console q.
Proof.
  induction batch as [|i batch IH]; intros q Hd; [reflexivity|].
  cbn [fold_left]. unfold retry_item at 2.
  destruct (_ <? _).
  - rewrite IH; [reflexivity | exact Hd].
  - rewrite debug_log_off by assumption. now apply IH.
Qed.

Lemma flush_console q : console (flush q) = console q.
Proof. now destruct (flush_either q) as [[_ ->] | (_ & _ & _ & _ & _ & _ & ->)]. Qed.

Lemma step_console_off q a :
  debug (config q) = false -> console (step q a) = console q.
Proof.
  intros Hd. destruct a; cbn [step].
  - unfold push. cbv zeta. rewrite debug_log_off by exact Hd.
    set (q1 := set_queue _ q).
    assert (H3 : forall x, config x = config q ->
                   console (if maxQueueSize (config x) <? Z.of_nat (length (queue x))
                            then debug_log WarnQueueExceeded (set_queue (tl (queue x)) x)
                            else x) = console x).
    { intros x Hx. destruct (_ <? _); [|reflexivity].
      rewrite debug_log_off; [reflexivity | cbn; congruence]. }
    destruct (_ <=? _).
    + rewrite H3 by (rewrite QueueFacts.flush_config; reflexivity).
      now rewrite flush_console.
    + now rewrite H3.
  - apply flush_console.
  - destruct (flushTimer q); [apply flush_console | reflexivity].
  - destruct (inflight q) as [|batch rest]; [reflexivity|].
    unfold flush_settled. cbn [console set_isFlushing].
    destruct (sendBatch_settled r).
    + now rewrite debug_log_off.
    + rewrite debug_log_off by exact Hd. now rewrite retry_loop_console.
  - unfold stopFlushInterval. now destruct (flushTimer q).
  - reflexivity.
  - unfold destroy, stopFlushInterval. cbn [clear console set_queue].
    rewrite flush_console. now destruct (flushTimer q).
Qed.

(** X9.  With [debug] off a queue writes nothing to the console, whatever
    is pushed, evicted, sent, failed or dropped. *)
Theorem silent_unless_debug :
  forall cfg tr, debug cfg = false -> console (run tr (new cfg)) = [].
Proof.
  intros cfg tr Hd.
  assert (H : forall tr q, debug (config q) = false -> console (run tr q) = console q).
  { clear. induction tr as [|a tr IH]; intros q Hd; [reflexivity|].
    rewrite QueueFacts.run_cons, IH by (now rewrite QueueFacts.step_config).
    now apply step_console_off. }
  now rewrite H.
Qed.

(** Witness for X9: the run of [overflow_trace], in which a send fails
    and its items are put back, on a configuration with [debug] off. *)
Lemma silent_unless_debug_witness : console (run overflow_trace (new tightConfig)) = [].
Proof. apply silent_unless_debug. reflexivity. Defined.

Lemma step_timer_off q a : flushTimer q = None -> flushTimer (step q a) = None.
Proof.
  intros H. destruct a; cbn [step].
  - now destruct (push_fields e now q) as (_ & _ & _ & _ & ->).
  - now rewrite QueueFacts.flush_flushTimer.
  - now rewrite H.
  - destruct (inflight q); [assumption|].
    now rewrite QueueFacts.flush_settled_flushTimer.
  - apply QueueFacts.stopFlushInterval_proj.
  - assumption.
  - apply destroy_fields.
Qed.

Lemma run_timer_off tr : forall q, flushTimer q = None -> flushTimer (run tr q) = None.
Proof.
  induction tr as [|a tr IH]; intros q H; [assumption|].
  rewrite QueueFacts.run_cons. now apply IH, step_timer_off.
Qed.

(** X10.  Once stopped, the timer stays stopped: after
    [stopFlushInterval()] or [destroy()] no call sets it again, ticks no
    longer reach the queue, and stopping twice is the same as stopping
    once. *)
Theorem stopped_timer_stays_stopped :
  forall q tr n,
    flushTimer (run tr (stopFlushInterval q)) = None
    /\ flushTimer (run tr (destroy q)) = None
    /\ run (repeat ATick n) (stopFlushInterval q) = stopFlushInterval q
    /\ stopFlushInterval (stopFlushInterval q) = stopFlushInterval q.
Proof.
  intros q tr n.
  destruct (QueueFacts.stopFlushInterval_proj q) as (_ & _ & _ & _ & _ & Hm).
  split; [now apply run_timer_off|].
  split; [apply run_timer_off, destroy_fields|].
  split.
  - induction n as [|n IH]; [reflexivity|].
    cbn [repeat]. rewrite QueueFacts.run_cons. cbn [step]. now rewrite Hm.
  - unfold stopFlushInterval at 1. now rewrite Hm.
Qed.

End QueueMore.

(** * More on the plugin pipeline *)

Module AnalyticsMore.
Import Analytics AnalyticsObs.

(** X11.  A plugin that has no handler for the kind of the event takes no
    part in its processing: result, handler calls and console are those
    of the pipeline with only the plugins that have one. *)
Theorem plugins_without_handler_are_skipped :
  forall ty ps cur a,
    processEvent_loop ty ps cur a
    = processEvent_loop ty (filter (has_handler ty) ps) cur a.
Proof.
  intros ty ps. induction ps as [|p ps IH]; intros cur a; [reflexivity|].
  cbn [filter]. unfold has_handler at 1.
  destruct (handler p ty) as [h|] eqn:Eh; cbn [processEvent_loop]; rewrite Eh.
  - destruct cur as [ev|]; [|reflexivity]. destruct (h ev); apply IH.
  - destruct cur as [ev|]; [apply IH|]. now rewrite !AnalyticsFacts.loop_none.
Qed.

(** ** An instance without plugins *)

Lemma deliver_without_plugins e now a :
  plugins a = [] ->
  deliver e now a = (Normal tt, set_queue (Queue.push e now (queue a)) a).
Proof.
  intros H. rewrite AnalyticsFacts.deliver_unfold, H. reflexivity.
Qed.






Lemma enters_no_plugin_step c a :
  enters_no_plugin [c] = true ->
  plugins a = [] -> Queue.flushTimer (queue a) = None ->
  plugins (call a c) = [] /\ invoked (call a c) = invoked a
  /\ Queue.flushTimer (queue (call a c)) = None.
Proof.
  intros Hc Hp Ht. destruct c; cbn [call]; try discriminate Hc.
  - unfold register_load_settled. destruct (detached a); [now repeat split|].
    destruct (load _); now repeat split.
  - rewrite deliver_without_plugins by assumption. cbn [snd plugins invoked queue set_queue].
    repeat split; try assumption.
    destruct (QueueMore.push_fields e now (queue a)) as (_ & _ & _ & _ & ->). assumption.
  - cbn [destroy plugins invoked queue set_plugins set_queue]. repeat split.
    apply QueueMore.destroy_fields.
  - cbn [plugins invoked queue set_queue]. repeat split; try assumption.
    now apply QueueMore.step_timer_off.
Qed.

(** X13.  [destroy()] empties the plugin map and stops the timer, but
    switches nothing off.  An event submitted next meets no plugin and
    is pushed as it is on the destroyed queue; so it goes for as long as
    no plugin is registered and no awaited [load] settles: the map stays
    empty, no handler is called and the timer stays off.  But the loop
    of [loadPlugins] is not stopped: a configured plugin whose [load] is
    pending at [destroy()] enters the emptied map when the [load]
    resolves, and its handler is called for the events that follow. *)
Theorem destroy_does_not_stop_plugin_loading :
  forall a,
    (forall e now,
       let a' := snd (deliver e now (destroy a)) in
       fst (deliver e now (destroy a)) = Normal tt
       /\ invoked a' = invoked a
       /\ queue a' = Queue.push e now (Queue.destroy (queue a))
       /\ Queue.flushTimer (queue a') = None)
    /\ (forall cs,
          enters_no_plugin cs = true ->
          let a' := calls cs (destroy a) in
          plugins a' = [] /\ invoked a' = invoked a
          /\ Queue.flushTimer (queue a') = None)
    /\ (forall p rest,
          loading a = p :: rest -> load_ok p = true ->
          let a' := call (destroy a) CLoadSettled in
          plugins a' = [(name p, p)]
          /\ (forall e now h,
                handler p (ev_type e) = Some h ->
                exists later,
                  invoked (snd (deliver e now a')) = invoked a ++ (name p, e) :: later)).
Proof.
  intros a. split; [|split].
  - intros e now. cbv zeta.
    rewrite deliver_without_plugins by reflexivity. cbn [fst snd].
    repeat split.
    cbn [queue set_queue destroy set_plugins].
    destruct (QueueMore.push_fields e now (Queue.destroy (queue a))) as (_ & _ & _ & _ & ->).
    apply QueueMore.destroy_fields.
  - intros cs Hcs. cbv zeta.
    assert (H : forall cs b,
              enters_no_plugin cs = true ->
              plugins b = [] -> Queue.flushTimer (queue b) = None ->
              plugins (calls cs b) = [] /\ invoked (calls cs b) = invoked b
              /\ Queue.flushTimer (queue (calls cs b)) = None).
    { clear. induction cs as [|c cs IH]; intros b Hcs Hp Ht; [now repeat split|].
      change (calls (c :: cs) b) with (calls cs (call b c)).
      unfold enters_no_plugin in Hcs. cbn [forallb] in Hcs.
      apply andb_prop in Hcs as [Hc Hcs].
      destruct (enters_no_plugin_step c b) as (Hp' & Hi' & Ht'); try assumption.
      { unfold enters_no_plugin. cbn [forallb]. now rewrite Hc. }
      destruct (IH (call b c) Hcs Hp' Ht') as (H1 & H2 & H3).
      rewrite H1, H2, H3, Hi'. now repeat split. }
    apply (H cs (destroy a) Hcs); [reflexivity|].
    cbn [destroy queue set_plugins set_queue]. apply QueueMore.destroy_fields.
  - intros p rest Hl Hok. cbv zeta. cbn [call].
    destruct (AnalyticsFacts.resume_step (destroy a)) as (Hp & _ & _ & Hi & _).
    change (loading (destroy a)) with (loading a) in Hp. rewrite Hl in Hp.
    unfold load_into in Hp. rewrite Hok in Hp.
    change (plugins (destroy a)) with (@nil (string * Plugin)) in Hp.
    cbn [map_set] in Hp. change (invoked (destroy a)) with (invoked a) in Hi.
    split; [exact Hp|].
    intros e now h Hh. rewrite AnalyticsFacts.deliver_unfold. cbv zeta.
    rewrite Hp. cbn [map_values map snd processEvent_loop]. rewrite Hh.
    set (b := add_invoked (name p, e) (loadPlugins_resume (destroy a))).
    assert (Hb : invoked b = invoked a ++ [(name p, e)])
      by (unfold b; cbn [invoked add_invoked]; now rewrite Hi).
    destruct (h e) as [[out|]|err]; cbn [fst snd invoked set_queue log];
      exists []; exact Hb.
Qed.

(** Witness for X13: the one configured plugin, a vetoing one, is still
    loading when [destroy()] is called; once loaded it vetoes the next
    event. *)
Lemma destroy_does_not_stop_plugin_loading_witness :
  let a := new (testConfig [blocker]) in
  let a' := call (destroy a) CLoadSettled in
  plugins a' = [("blocker"%string, blocker)]
  /\ invoked (snd (deliver clicked 0 a')) = [("blocker"%string, clicked)]
  /\ Queue.size (queue (snd (deliver clicked 0 a'))) = 0%nat.
Proof.
  intros a a'.
  destruct (destroy_does_not_stop_plugin_loading a) as (_ & _ & H).
  destruct (H blocker [] eq_refl eq_refl) as (Hp & _).
  split; [exact Hp|]. split; reflexivity.
Defined.

(** ** The plugin map over a run *)

Lemma map_set_taken k v m : In k (keys m) -> keys (map_set k v m) = keys m.
Proof.
  unfold keys. induction m as [|[k' v'] m IH]; cbn [map_set map fst]; [easy|].
  intros [-> | H].
  - now rewrite String.eqb_refl.
  - destruct (String.eqb_spec k' k) as [-> | _]; [reflexivity|].
    cbn [map fst]. now rewrite IH.
Qed.

Lemma map_set_keys k v m :
  keys (map_set k v m) = keys m \/ (~ In k (keys m) /\ keys (map_set k v m) = keys m ++ [k]).
Proof.
  destruct (in_dec string_dec k (keys m)) as [H | H].
  - left. now apply map_set_taken.
  - right. split; [assumption|]. rewrite AnalyticsFacts.map_set_fresh by assumption.
    unfold keys. now rewrite map_app.
Qed.

Lemma map_set_nodup k v m : NoDup (keys m) -> NoDup (keys (map_set k v m)).
Proof.
  intros H. destruct (map_set_keys k v m) as [-> | [Hk ->]]; [assumption|].
  apply NoDup_app; [assumption | repeat constructor; easy |].
  intros x Hx [<- | []]. now apply Hk.
Qed.

Lemma map_set_entries k v m k' v' :
  NoDup (keys m) ->
  In (k', v') (map_set k v m) ->
  (k', v') = (k, v) \/ (k' <> k /\ In (k', v') m).
Proof.
  unfold keys. induction m as [|[k0 v0] m IH]; cbn [map_set map fst]; intros Hnd Hin.
  - destruct Hin as [Hin | []]. left. now symmetry.
  - apply NoDup_cons_iff in Hnd as [Hk0 Hnd].
    destruct (String.eqb_spec k0 k) as [-> | Hne].
    + destruct Hin as [Hin | Hin]; [left; now symmetry|].
      right. split; [|now right].
      intros ->. apply Hk0. change k with (fst (k, v')). now apply in_map.
    + destruct Hin as [Hin | Hin].
      * right. inversion Hin; subst. split; [assumption | now left].
      * destruct (IH Hnd Hin) as [E | [E1 E2]]; [now left|].
        right. split; [assumption | now right].
Qed.

(** X14.  Registering a plugin under a name that is taken replaces the
    plugin of that name where it stands: the names and their order stay,
    the new plugin is the only one under its name, and every other entry
    is as before. *)
Theorem register_under_a_taken_name_replaces :
  forall p a,
    NoDup (keys (plugins a)) ->
    In (name p) (keys (plugins a)) ->
    let a' := register p a in
    keys (plugins a') = keys (plugins a)
    /\ In (name p, p) (plugins a')
    /\ (forall k old, In (k, old) (plugins a') ->
          (k, old) = (name p, p) \/ (k <> name p /\ In (k, old) (plugins a))).
Proof.
  intros p a Hnd Hin. cbv zeta. unfold register.
  cbn [plugins set_plugins set_detached].
  split; [now apply map_set_taken|].
  split; [apply AnalyticsFacts.map_set_In|].
  intros k old. now apply map_set_entries.
Qed.

(** Witness for X14: a second plugin named "logger", of the before stage,
    takes the place of the logger, which comes last. *)
Lemma register_under_a_taken_name_replaces_witness :
  let a := loaded (testConfig [logger; validator; enricher]) in
  let logger2 := mkPlugin "logger" before (Normal tt) vetoes in
  map_values (plugins (register logger2 a)) = [validator; enricher; logger2].
Proof.
  intros a logger2.
  assert (Hnd : NoDup (keys (plugins a)))
    by (repeat constructor; cbn; intuition discriminate).
  assert (Hin : In (name logger2) (keys (plugins a))) by (cbn; tauto).
  destruct (register_under_a_taken_name_replaces logger2 a Hnd Hin) as (_ & _ & _).
  reflexivity.
Defined.

Lemma loop_loading ty ps : forall cur a,
  loading (snd (processEvent_loop ty ps cur a)) = loading a.
Proof.
  induction ps as [|p ps IH]; intros cur a; [reflexivity|].
  cbn [processEvent_loop]. destruct cur as [ev|]; [|reflexivity].
  destruct (handler p ty) as [h|]; [destruct (h ev)|]; now rewrite IH.
Qed.

Lemma deliver_fields e now a :
  plugins (snd (deliver e now a)) = plugins a
  /\ loading (snd (deliver e now a)) = loading a.
Proof.
  rewrite AnalyticsFacts.deliver_unfold. cbv zeta.
  set (r := processEvent_loop _ _ _ _).
  assert (H : plugins (snd r) = plugins a /\ loading (snd r) = loading a).
  { subst r. split; [apply AnalyticsFacts.loop_frame | apply loop_loading]. }
  now destruct (fst r).
Qed.

Lemma registered_app cs1 cs2 : registered (cs1 ++ cs2) = registered cs1 ++ registered cs2.
Proof. unfold registered. apply flat_map_app. Qed.

(** X15.  At every moment of an instance's life the plugin map holds each
    plugin under its own name, no two under the same name, and only
    plugins that were given in the configuration and whose [load]
    resolved, or that were passed to [register]. *)
Theorem active_plugins_are_loaded_or_registered :
  forall cfg cs,
    let a := calls cs (new cfg) in
    NoDup (keys (plugins a))
    /\ (forall k p, In (k, p) (plugins a) ->
          k = name p
          /\ ((In p (AnalyticsConfig.plugins cfg) /\ load_ok p = true)
              \/ In p (registered cs))).
Proof.
  intros cfg cs.
  set (ok := fun (regs : list Plugin) (a : t) =>
    NoDup (keys (plugins a))
    /\ (forall k p, In (k, p) (plugins a) ->
          k = name p
          /\ ((In p (AnalyticsConfig.plugins cfg) /\ load_ok p = true) \/ In p regs))
    /\ incl (loading a) (AnalyticsConfig.plugins cfg)).
  assert (Hstep : forall regs a c, ok regs a -> ok (regs ++ registered [c]) (call a c)).
  { intros regs a c (Hnd & Hent & Hload). unfold ok.
    assert (Hweak : forall k p, In (k, p) (plugins a) ->
              k = name p
              /\ ((In p (AnalyticsConfig.plugins cfg) /\ load_ok p = true)
                  \/ In p (regs ++ registered [c]))).
    { intros k p H. destruct (Hent k p H) as [E [O | O]]; split; auto.
      right. apply in_or_app. now left. }
    destruct c; cbn [call].
    - unfold register. cbn [plugins loading set_plugins set_detached].
      split; [now apply map_set_nodup|]. split; [|assumption].
      intros k q H. apply map_set_entries in H as [H | [_ H]]; [|now apply Hweak|assumption].
      inversion H; subst. split; [reflexivity|]. right. apply in_or_app. right. now left.
    - destruct (AnalyticsFacts.resume_step a) as (Hp & Hl & _). rewrite Hp, Hl.
      destruct (loading a) as [|q rest] eqn:E;
        [split; [assumption | split; [exact Hweak | easy]]|].
      split; [|split].
      + unfold load_into. destruct (load_ok q); [now apply map_set_nodup | assumption].
      + intros k q' H. unfold load_into in H. destruct (load_ok q) eqn:Eq; [|now apply Hweak].
        apply map_set_entries in H as [H | [_ H]]; [|now apply Hweak|assumption].
        inversion H; subst. split; [reflexivity|]. left. split; [|assumption].
        apply Hload. now left.
      + cbn [tl]. intros x Hx. apply Hload. now right.
    - assert (E : plugins (register_load_settled a) = plugins a
                  /\ loading (register_load_settled a) = loading a).
      { unfold register_load_settled. destruct (detached a); [now split|].
        now destruct (load _). }
      destruct E as [-> ->]. split; [assumption | split; [exact Hweak | assumption]].
    - destruct (deliver_fields e now a) as [-> ->].
      split; [assumption | split; [exact Hweak | assumption]].
    - cbn [destroy plugins loading set_plugins set_queue].
      split; [constructor | split; [easy | assumption]].
    - cbn [plugins loading set_queue].
      split; [assumption | split; [exact Hweak | assumption]]. }
  assert (Hrun : forall cs regs a, ok regs a -> ok (regs ++ registered cs) (calls cs a)).
  { clear -Hstep. induction cs as [|c cs IH]; intros regs a H.
    - cbn. now rewrite app_nil_r.
    - change (calls (c :: cs) a) with (calls cs (call a c)).
      change (c :: cs) with ([c] ++ cs). rewrite registered_app, app_assoc.
      now apply IH, Hstep. }
  destruct (Hrun cs [] (new cfg)) as (H1 & H2 & _); [|now split].
  destruct (AnalyticsFacts.new_fields cfg) as (Hp & Hl & _).
  unfold ok. rewrite Hp, Hl. split; [constructor|]. split; [easy|].
  intros x Hx. eapply Permutation_in; [apply AnalyticsFacts.sort_perm | exact Hx].
Qed.

(** Witness for X15: a plugin whose [load] rejects and one whose [load]
    resolves in the configuration, a third one registered later. *)
Lemma active_plugins_are_loaded_or_registered_witness :
  let cfg := testConfig [unloadable; logger] in
  let cs := [CLoadSettled; CLoadSettled; CRegister validator] in
  keys (plugins (calls cs (new cfg))) = ["logger"; "validator"]%string
  /\ forall k p, In (k, p) (plugins (calls cs (new cfg))) -> k = name p.
Proof.
  intros cfg cs. split; [reflexivity|].
  intros k p H.
  now apply (proj2 (active_plugins_are_loaded_or_registered cfg cs) k p H).
Defined.

End AnalyticsMore.

(** * Platform detection *)

Module PlatformFacts.
Import Platform.

(** X16.  What [getPlatform] reports on first use: web excludes React
    Native and Node; the type is [web] exactly when [isWeb], and
    [react-native] exactly when [isReactNative]; [node] is what is left,
    whether or not [isNode] holds (a browser worker is typed [node] with
    all three flags false); and React Native wins over Node when both
    flags hold. *)
Theorem platform_type_follows_the_flags :
  forall g,
    let info := fst (getPlatform None g) in
    (isWeb info = true -> isReactNative info = false /\ isNode info = false)
    /\ (type info = web <-> isWeb info = true)
    /\ (type info = react_native <-> isReactNative info = true)
    /\ (type info = node <-> isWeb info = false /\ isReactNative info = false)
    /\ (isNode info = true <-> window g = false /\ process g = true).
Proof.
  intros [w d n p]. cbn [getPlatform fst detect window document navigator process
    isWeb isReactNative isNode type].
  destruct w, d, p, n as [[product|]|]; cbn;
    try destruct (String.eqb product "ReactNative"); cbn;
    repeat split; intros; try easy; try (destruct H; easy).
Qed.

(** Witness for X16: a browser is web, neither React Native nor Node; a
    browser worker is typed node without being Node. *)
Lemma platform_type_follows_the_flags_witness :
  (isReactNative (fst (getPlatform None Identity.browser)) = false
   /\ isNode (fst (getPlatform None Identity.browser)) = false)
  /\ type (fst (getPlatform None Identity.webWorker)) = node
  /\ isNode (fst (getPlatform None Identity.webWorker)) = false.
Proof.
  destruct (platform_type_follows_the_flags Identity.browser) as (H & _).
  destruct (platform_type_follows_the_flags Identity.webWorker) as (_ & _ & _ & H' & _).
  split; [apply H; reflexivity|].
  split; [apply H'; now split | reflexivity].
Defined.

End PlatformFacts.

(** * Storage *)

Module StorageFacts.
Import Storage.

(** ** Items *)

Lemma lookup_update_same k v m : lookup k (update k v m) = Some v.
Proof.
  induction m as [|[k' v'] m IH]; cbn [update lookup].
  - now rewrite String.eqb_refl.
  - destruct (String.eqb k' k) eqn:E; cbn [lookup]; rewrite ?String.eqb_refl, ?E; auto.
Qed.

Lemma lookup_update_other k k' v m : k' <> k -> lookup k' (update k v m) = lookup k' m.
Proof.
  intros Hne. induction m as [|[k0 v0] m IH]; cbn [update lookup].
  - destruct (String.eqb_spec k k'); [congruence | reflexivity].
  - destruct (String.eqb_spec k0 k) as [-> | Hk]; cbn [lookup].
    + destruct (String.eqb_spec k k'); [congruence | reflexivity].
    + destruct (String.eqb k0 k'); [reflexivity | exact IH].
Qed.

Lemma lookup_delete_other k k' m : k' <> k -> lookup k' (delete k m) = lookup k' m.
Proof.
  intros Hne. induction m as [|[k0 v0] m IH]; cbn [delete lookup]; [reflexivity|].
  destruct (String.eqb_spec k0 k) as [-> | Hk]; cbn [lookup].
  - destruct (String.eqb_spec k k'); [congruence | reflexivity].
  - destruct (String.eqb k0 k'); [reflexivity | exact IH].
Qed.

Lemma lookup_none_iff k m : lookup k m = None <-> ~ In k (map fst m).
Proof.
  induction m as [|[k0 v0] m IH]; cbn [lookup map fst]; [easy|].
  destruct (String.eqb_spec k0 k) as [-> | Hk].
  - split; [discriminate | intros H; exfalso; apply H; now left].
  - rewrite IH. cbn. tauto.
Qed.

Lemma lookup_delete_same k m : NoDup (map fst m) -> lookup k (delete k m) = None.
Proof.
  induction m as [|[k0 v0] m IH]; cbn [delete lookup map fst]; [reflexivity|].
  intros Hnd. apply NoDup_cons_iff in Hnd as [Hk0 Hnd].
  destruct (String.eqb_spec k0 k) as [-> | Hk]; cbn [lookup].
  - now apply lookup_none_iff.
  - destruct (String.eqb_spec k0 k); [congruence | now apply IH].
Qed.

Lemma probe_keeps_other_keys k items :
  k <> "__analytics_test__"%string ->
  lookup k (delete "__analytics_test__" (update "__analytics_test__" "test" items))
  = lookup k items.
Proof.
  intros H. rewrite lookup_delete_other, lookup_update_other by assumption. reflexivity.
Qed.

Lemma isAvailable_writable items :
  LocalStorageAdapter.isAvailable (Present false items)
  = (true, Present false (delete "__analytics_test__"
                            (update "__analytics_test__" "test" items))).
Proof. reflexivity. Qed.

Lemma isAvailable_broken ls :
  ls = Missing \/ (exists items, ls = Present true items) ->
  LocalStorageAdapter.isAvailable ls = (false, ls).
Proof. intros [-> | [items ->]]; reflexivity. Qed.

Section Laws.

Variable Json : Type.
Variable JSON_parse : string -> option Json.
Variable JSON_stringify : Json -> Completion string.
Variable CookieJar : Type.
Variable cookie_get : string -> CookieJar -> Got.
Variable cookie_set : string -> string -> CookieJar -> CookieJar.
Variable cookie_remove : string -> CookieJar -> CookieJar.

Local Abbreviation getSync := (Storage.getSync Json JSON_parse CookieJar cookie_get).
Local Abbreviation setSync := (Storage.setSync Json JSON_stringify CookieJar cookie_set).
Local Abbreviation removeSync := (Storage.removeSync CookieJar cookie_remove).
Local Abbreviation decode := (Storage.decode Json JSON_parse).

(** X17.  A storage on the memory adapter (Node, or no platform
    detected): a string stored under a key is read back parsed if it is
    JSON text and as it is otherwise, except that the empty string reads
    back as [null]; other keys are not touched; a removed or unknown key
    reads as [null]. *)
Theorem memory_storage_laws :
  forall store k k' v w,
    NoDup (map fst store) ->
    k' <> k ->
    let s := mk (UseMemory store) false in
    let after_set := snd (setSync k (VString Json v) s w) in
    let after_remove := snd (removeSync k s w) in
    fst (getSync k (fst after_set) (snd after_set))
    = Normal (if String.eqb v "" then LNull Json else decode (Text v))
    /\ fst (getSync k' (fst after_set) (snd after_set)) = fst (getSync k' s w)
    /\ fst (getSync k (fst after_remove) (snd after_remove)) = Normal (LNull Json)
    /\ fst (getSync k' (fst after_remove) (snd after_remove)) = fst (getSync k' s w)
    /\ (lookup k store = None -> fst (getSync k s w) = Normal (LNull Json)).
Proof.
  intros store k k' v w Hnd Hne. cbv zeta.
  unfold Storage.getSync, Storage.setSync, Storage.removeSync, Storage.set,
    adapter_get, adapter_set, adapter_remove, serialize.
  cbn [isAsync adapter fst snd]. unfold MemoryAdapter.get, MemoryAdapter.set,
    MemoryAdapter.remove.
  rewrite lookup_update_same, lookup_update_other, lookup_delete_same,
    lookup_delete_other by assumption.
  repeat split.
  - now destruct (String.eqb v "").
  - now intros ->.
Qed.

(** X18.  A storage on a working [localStorage]: a string stored under a
    key other than the adapter's own test key is read back (parsed if it
    is JSON text, the empty string included), other keys are not touched,
    and a value stored by an earlier instance is found. *)
Theorem localStorage_round_trip :
  forall items k k' v cookies async,
    k <> "__analytics_test__"%string ->
    k' <> "__analytics_test__"%string ->
    k' <> k ->
    let s := mk UseLocalStorage false in
    let w := mkWorld CookieJar (Present false items) async cookies in
    let after_set := snd (setSync k (VString Json v) s w) in
    fst (getSync k (fst after_set) (snd after_set)) = Normal (decode (Text v))
    /\ fst (getSync k' (fst after_set) (snd after_set)) = fst (getSync k' s w)
    /\ fst (getSync k s w)
       = Normal (match lookup k items with
                 | Some stored => decode (Text stored)
                 | None => LNull Json
                 end).
Proof.
  intros items k k' v cookies async Hk Hk' Hne. cbv zeta.
  unfold Storage.getSync, Storage.setSync, Storage.set, adapter_get, adapter_set,
    serialize.
  cbn [isAsync adapter fst snd localStorage asyncStorage Storage.cookies].
  unfold LocalStorageAdapter.get, LocalStorageAdapter.set.
  rewrite !isAvailable_writable. cbn [negb setItem getItem].
  rewrite !isAvailable_writable. cbn [negb setItem getItem fst snd].
  rewrite !probe_keeps_other_keys by assumption.
  rewrite lookup_update_same, lookup_update_other by assumption.
  rewrite !probe_keeps_other_keys by assumption.
  repeat split.
  - now destruct (lookup k' items).
  - now destruct (lookup k items).
Qed.

(** X19.  On the web the constructor always settles on [localStorage]:
    what the adapter's probe returns is never [undefined], so neither
    cookies nor memory are used.  When [localStorage] is missing or
    refuses writes, every value given to [setSync] is dropped and every
    [getSync] gives [null], also for keys that are stored. *)
Theorem web_storage_has_no_fallback :
  forall info hasDocument w k v,
    Platform.isReactNative info = false ->
    Platform.isWeb info = true ->
    let s := fst (Storage.new CookieJar info hasDocument w) in
    let w1 := snd (Storage.new CookieJar info hasDocument w) in
    adapter s = UseLocalStorage /\ isAsync s = false
    /\ (localStorage CookieJar w = Missing
        \/ (exists items, localStorage CookieJar w = Present true items) ->
        w1 = w
        /\ setSync k v s w1 = (Normal tt, (s, w1))
        /\ getSync k s w1 = (Normal (LNull Json), w1)).
Proof.
  intros info hasDocument [ls async cookies] k v Hrn Hweb. cbv zeta.
  unfold Storage.new. rewrite Hrn, Hweb. cbn [localStorage asyncStorage Storage.cookies].
  assert (Hprobe : forall x, fst (LocalStorageAdapter.get "__test__" x) <> Undefined).
  { intros x. unfold LocalStorageAdapter.get.
    destruct (LocalStorageAdapter.isAvailable x) as [[|] x1]; cbn [negb fst]; [|easy].
    destruct (getItem "__test__" x1) as [[?|]|]; easy. }
  specialize (Hprobe ls).
  destruct (LocalStorageAdapter.get "__test__" ls) as [probe ls1] eqn:Eprobe.
  cbn [fst] in Hprobe.
  assert (Hs : (match probe with
                | Undefined =>
                    if hasDocument
                    then (mk UseCookies false, mkWorld CookieJar ls1 async cookies)
                    else (mk (UseMemory []) false, mkWorld CookieJar ls1 async cookies)
                | _ => (mk UseLocalStorage false, mkWorld CookieJar ls1 async cookies)
                end) = (mk UseLocalStorage false, mkWorld CookieJar ls1 async cookies))
    by (destruct probe; congruence).
  rewrite Hs. cbn [fst snd adapter isAsync]. split; [reflexivity|]. split; [reflexivity|].
  intros Hbroken.
  assert (Hls1 : ls1 = ls).
  { unfold LocalStorageAdapter.get in Eprobe.
    rewrite (isAvailable_broken ls Hbroken) in Eprobe. cbn in Eprobe. congruence. }
  subst ls1. split; [reflexivity|].
  unfold Storage.setSync, Storage.getSync, Storage.set, adapter_set, adapter_get.
  cbn [isAsync adapter localStorage asyncStorage Storage.cookies].
  unfold LocalStorageAdapter.set, LocalStorageAdapter.get.
  rewrite (isAvailable_broken ls Hbroken). cbn [negb].
  split; [now destruct (serialize Json JSON_stringify v)|reflexivity].
Qed.

(** X20.  On a React Native platform the storage is on the AsyncStorage
    adapter and asynchronous, and each of the three synchronous accessors
    throws without touching anything. *)
Theorem sync_accessors_throw_on_react_native :
  forall info hasDocument w k v,
    Platform.isReactNative info = true ->
    let s := fst (Storage.new CookieJar info hasDocument w) in
    snd (Storage.new CookieJar info hasDocument w) = w
    /\ adapter s = UseAsyncStorage
    /\ isAsync s = true
    /\ getSync k s w = (Throw "Storage is async, use get() instead of getSync()"%string, w)
    /\ setSync k v s w
       = (Throw "Storage is async, use set() instead of setSync()"%string, (s, w))
    /\ removeSync k s w
       = (Throw "Storage is async, use remove() instead of removeSync()"%string, (s, w)).
Proof.
  intros info hasDocument w k v Hrn. cbv zeta. unfold Storage.new. rewrite Hrn.
  now repeat split.
Qed.

End Laws.

(** Witness for X17: "abc" comes back, "123" comes back parsed, "" comes
    back as [null]. *)
Lemma memory_storage_laws_witness :
  let s := mk (UseMemory [("k0", "v0")]%string) false in
  let w := mkWorld unit Missing NotInstalled tt in
  let get := Storage.getSync Z Identity.parse_example unit (fun _ _ => Null) in
  let set := Storage.setSync Z Identity.stringify_example unit (fun _ _ c => c) in
  let after v := snd (set "k"%string (VString Z v) s w) in
  fst (get "k"%string (fst (after "abc"%string)) (snd (after "abc"%string)))
  = Normal (LText Z "abc")
  /\ fst (get "k"%string (fst (after "123"%string)) (snd (after "123"%string)))
     = Normal (LJson Z 123)
  /\ fst (get "k"%string (fst (after ""%string)) (snd (after ""%string)))
     = Normal (LNull Z).
Proof.
  intros s w get set after.
  assert (Hnd : NoDup (map fst [("k0", "v0")]%string)) by (repeat constructor; easy).
  assert (Hne : "k0"%string <> "k"%string) by discriminate.
  pose proof (fun v => memory_storage_laws Z Identity.parse_example
                Identity.stringify_example unit (fun _ _ => Null) (fun _ _ c => c)
                (fun _ c => c) [("k0", "v0")]%string "k"%string "k0"%string v w Hnd Hne)
    as H.
  destruct (H "abc"%string) as (H1 & _).
  destruct (H "123"%string) as (H2 & _).
  destruct (H ""%string) as (H3 & _).
  repeat split; assumption.
Defined.

(** Witness for X18: a user id stored in a browser is found again. *)
Lemma localStorage_round_trip_witness :
  let s := mk UseLocalStorage false in
  let w := mkWorld unit (Present false [("other", "x")]%string) NotInstalled tt in
  let get := Storage.getSync Z Identity.parse_example unit (fun _ _ => Null) in
  let set := Storage.setSync Z Identity.stringify_example unit (fun _ _ c => c) in
  let after := snd (set "analytics_user_id"%string (VString Z "user-1") s w) in
  fst (get "analytics_user_id"%string (fst after) (snd after)) = Normal (LText Z "user-1").
Proof.
  intros s w get set after.
  destruct (localStorage_round_trip Z Identity.parse_example Identity.stringify_example
              unit (fun _ _ => Null) (fun _ _ c => c)
              [("other", "x")]%string "analytics_user_id"%string "other"%string
              "user-1"%string tt NotInstalled) as (H & _); try discriminate.
  exact H.
Defined.

(** Witness for X19: a browser whose [localStorage] refuses writes. *)
Lemma web_storage_has_no_fallback_witness :
  let info := fst (Platform.getPlatform None Identity.browser) in
  let w := mkWorld unit (Present true [("analytics_user_id", "user-1")]%string)
                   NotInstalled tt in
  let s := fst (Storage.new unit info true w) in
  adapter s = UseLocalStorage
  /\ Storage.getSync Z Identity.parse_example unit (fun _ _ => Null)
       "analytics_user_id"%string s w = (Normal (LNull Z), w).
Proof.
  intros info w s.
  destruct (web_storage_has_no_fallback Z Identity.parse_example
              Identity.stringify_example unit (fun _ _ => Null) (fun _ _ c => c)
              info true w "analytics_user_id"%string (VString Z "x") eq_refl eq_refl)
    as (H1 & _ & H2).
  split; [exact H1|].
  destruct H2 as (Hw & _ & Hget); [right; now eexists|].
  cbv zeta in Hw. rewrite Hw in Hget. exact Hget.
Defined.

(** Witness for X20: React Native. *)
Lemma sync_accessors_throw_on_react_native_witness :
  let info := fst (Platform.getPlatform None Identity.reactNative) in
  let w := mkWorld unit Missing (Installed false []) tt in
  fst (Storage.getSync Z Identity.parse_example unit (fun _ _ => Null)
         "analytics_anonymous_id"%string (fst (Storage.new unit info false w)) w)
  = Throw "Storage is async, use get() instead of getSync()"%string.
Proof.
  intros info w.
  destruct (sync_accessors_throw_on_react_native Z Identity.parse_example
              Identity.stringify_example unit (fun _ _ => Null) (fun _ _ c => c)
              (fun _ c => c) info false w "analytics_anonymous_id"%string
              (VString Z "x") eq_refl) as (_ & _ & _ & H & _).
  now rewrite H.
Defined.

End StorageFacts.

(** * The anonymous id *)

Module IdentityFacts.
Import Storage Identity.

Section Ids.

Variable Json : Type.
Variable JSON_parse : string -> option Json.
Variable JSON_stringify : Json -> Completion string.
Variable truthy : Json -> bool.
Variable CookieJar : Type.
Variable cookie_get : string -> CookieJar -> Got.
Variable cookie_set : string -> string -> CookieJar -> CookieJar.

Local Abbreviation construct :=
  (constructor_anonymousId Json JSON_parse JSON_stringify truthy
     CookieJar cookie_get cookie_set).

(** X21.  Where [navigator.product] is "ReactNative", constructing an
    [Analytics] throws: the storage chosen there is asynchronous, and the
    constructor reads the anonymous id with [getSync]. *)
Theorem constructor_throws_on_react_native :
  forall g hasDocument anonymousIdKey fresh w,
    Platform.navigator g = Some (Some "ReactNative"%string) ->
    let info := fst (Platform.getPlatform None g) in
    construct info hasDocument anonymousIdKey fresh w
    = (Throw "Storage is async, use get() instead of getSync()"%string,
       (Storage.mk UseAsyncStorage true, w)).
Proof.
  intros g hasDocument key fresh w Hnav. cbv zeta.
  unfold constructor_anonymousId, Storage.new.
  cbn [Platform.getPlatform fst Platform.detect Platform.isReactNative].
  rewrite Hnav. reflexivity.
Qed.

Local Abbreviation getSync := (Storage.getSync Json JSON_parse CookieJar cookie_get).
Local Abbreviation setSync := (Storage.setSync Json JSON_stringify CookieJar cookie_set).

Lemma probed_lookup key items :
  key <> "__analytics_test__"%string ->
  lookup key (StorageObs.probed items) = lookup key items.
Proof. apply StorageFacts.probe_keeps_other_keys. Qed.

Lemma new_web_writable info hasDocument items async cookies :
  Platform.isReactNative info = false ->
  Platform.isWeb info = true ->
  Storage.new CookieJar info hasDocument (mkWorld CookieJar (Present false items) async cookies)
  = (Storage.mk UseLocalStorage false,
     mkWorld CookieJar (Present false (StorageObs.probed items)) async cookies).
Proof.
  intros Hrn Hweb. unfold Storage.new. rewrite Hrn, Hweb.
  cbn [localStorage asyncStorage Storage.cookies].
  unfold LocalStorageAdapter.get. rewrite StorageFacts.isAvailable_writable.
  cbn [negb getItem]. fold (StorageObs.probed items).
  now destruct (lookup "__test__" (StorageObs.probed items)).
Qed.

Lemma getSync_writable key items async cookies :
  getSync key (Storage.mk UseLocalStorage false)
          (mkWorld CookieJar (Present false items) async cookies)
  = (Normal (Storage.decode Json JSON_parse
               (match lookup key (StorageObs.probed items) with
                | Some v => Text v
                | None => Null
                end)),
     mkWorld CookieJar (Present false (StorageObs.probed items)) async cookies).
Proof.
  unfold Storage.getSync, adapter_get.
  cbn [isAsync adapter localStorage asyncStorage Storage.cookies].
  unfold LocalStorageAdapter.get. rewrite StorageFacts.isAvailable_writable.
  cbn [negb getItem]. fold (StorageObs.probed items).
  now destruct (lookup key (StorageObs.probed items)).
Qed.

Lemma setSync_writable key v items async cookies :
  setSync key (VString Json v) (Storage.mk UseLocalStorage false)
          (mkWorld CookieJar (Present false items) async cookies)
  = (Normal tt,
     (Storage.mk UseLocalStorage false,
      mkWorld CookieJar (Present false (update key v (StorageObs.probed items)))
              async cookies)).
Proof.
  unfold Storage.setSync, Storage.set, serialize, adapter_set.
  cbn [isAsync adapter localStorage asyncStorage Storage.cookies].
  unfold LocalStorageAdapter.set. rewrite StorageFacts.isAvailable_writable.
  reflexivity.
Qed.

(** X22.  In a browser with a working [localStorage] the anonymous id
    persists: the first instance stores the new uuid under its key, and
    an instance made later finds it and ignores the uuid it is offered.
    (The key is not the adapter's test key; a uuid is not empty and not
    JSON text.) *)
Theorem anonymous_id_persists_in_localStorage :
  forall info hasDocument key first_uuid later_uuid items async cookies,
    Platform.isReactNative info = false ->
    Platform.isWeb info = true ->
    key <> "__analytics_test__"%string ->
    first_uuid <> ""%string ->
    JSON_parse first_uuid = None ->
    lookup key items = None ->
    let w := mkWorld CookieJar (Present false items) async cookies in
    let first := construct info hasDocument key first_uuid w in
    fst first = Normal (LText Json first_uuid)
    /\ fst (construct info hasDocument key later_uuid (snd (snd first)))
       = Normal (LText Json first_uuid).
Proof.
  intros info hasDocument key u1 u2 items async cookies Hrn Hweb Hkey Hu Hparse Hnone.
  cbv zeta.
  set (stored := update key u1 (StorageObs.probed (StorageObs.probed (StorageObs.probed items)))).
  assert (Hfirst : construct info hasDocument key u1
                     (mkWorld CookieJar (Present false items) async cookies)
                   = (Normal (LText Json u1),
                      (Storage.mk UseLocalStorage false,
                       mkWorld CookieJar (Present false stored) async cookies))).
  { unfold constructor_anonymousId. rewrite new_web_writable by assumption.
    unfold getOrCreateAnonymousId. rewrite getSync_writable.
    rewrite !probed_lookup, Hnone by assumption. cbn [Storage.decode falsy].
    now rewrite setSync_writable. }
  rewrite Hfirst. cbn [fst snd]. split; [reflexivity|].
  unfold constructor_anonymousId. rewrite new_web_writable by assumption.
  unfold getOrCreateAnonymousId. rewrite getSync_writable.
  rewrite !probed_lookup by assumption. subst stored.
  rewrite StorageFacts.lookup_update_same.
  cbn [Storage.decode]. rewrite Hparse. cbn [falsy].
  destruct (String.eqb_spec u1 ""); [contradiction | reflexivity].
Qed.

(** X23.  Without a writable [localStorage] the anonymous id does not
    outlive the instance: on a platform that is neither web nor React
    Native, and in a browser whose [localStorage] is missing or refuses
    writes, the constructor takes the new uuid and leaves nothing behind,
    so the next instance starts from nothing again. *)
Theorem anonymous_id_is_not_kept_without_localStorage :
  forall info hasDocument key fresh w,
    Platform.isReactNative info = false ->
    (Platform.isWeb info = false
     \/ localStorage CookieJar w = Missing
     \/ (exists items, localStorage CookieJar w = Present true items)) ->
    fst (construct info hasDocument key fresh w) = Normal (LText Json fresh)
    /\ snd (snd (construct info hasDocument key fresh w)) = w.
Proof.
  intros info hasDocument key fresh [ls async cookies] Hrn Hcase.
  unfold constructor_anonymousId, Storage.new. rewrite Hrn.
  destruct (Platform.isWeb info) eqn:Hweb.
  - assert (Hbroken : ls = Missing \/ (exists items, ls = Present true items)).
    { destruct Hcase as [H | H]; [discriminate | exact H]. }
    cbn [localStorage asyncStorage Storage.cookies].
    unfold LocalStorageAdapter.get.
    rewrite (StorageFacts.isAvailable_broken ls Hbroken). cbn [negb].
    unfold getOrCreateAnonymousId, Storage.getSync, Storage.setSync, Storage.set,
      serialize, adapter_get, adapter_set.
    cbn [isAsync adapter localStorage asyncStorage Storage.cookies].
    unfold LocalStorageAdapter.get, LocalStorageAdapter.set.
    rewrite (StorageFacts.isAvailable_broken ls Hbroken). cbn.
    rewrite ?(StorageFacts.isAvailable_broken ls Hbroken). now split.
  - unfold getOrCreateAnonymousId, Storage.getSync, Storage.setSync, Storage.set,
      serialize, adapter_get, adapter_set. cbn. now split.
Qed.

End Ids.

(** Witness for X21: React Native. *)
Lemma constructor_throws_on_react_native_witness :
  fst (constructor_anonymousId Z parse_example stringify_example (fun _ => true)
         unit (fun _ _ => Null) (fun _ _ c => c)
         (fst (Platform.getPlatform None reactNative)) false
         "analytics_anonymous_id" "0b5e0d4c-7c1f-4a8e-9f3a-2d6c1e5b7a90"
         (mkWorld unit Missing (Installed false []) tt))
  = Throw "Storage is async, use get() instead of getSync()"%string.
Proof.
  now rewrite (constructor_throws_on_react_native Z parse_example stringify_example
                 (fun _ => true) unit (fun _ _ => Null) (fun _ _ c => c)
                 reactNative false _ _ _ eq_refl).
Defined.

(** Witness for X22: two instances in one browser. *)
Lemma anonymous_id_persists_in_localStorage_witness :
  let make uuid w :=
    constructor_anonymousId Z parse_example stringify_example (fun _ => true)
      unit (fun _ _ => Null) (fun _ _ c => c)
      (fst (Platform.getPlatform None browser)) true "analytics_anonymous_id" uuid w in
  let w := mkWorld unit (Present false []) NotInstalled tt in
  fst (make "id-2"%string (snd (snd (make "id-1"%string w)))) = Normal (LText Z "id-1").
Proof.
  intros make w.
  refine (proj2 (anonymous_id_persists_in_localStorage Z parse_example stringify_example
                   (fun _ => true) unit (fun _ _ => Null) (fun _ _ c => c)
                   (fst (Platform.getPlatform None browser)) true
                   "analytics_anonymous_id"%string "id-1"%string "id-2"%string []
                   NotInstalled tt _ _ _ _ _ _));
    try reflexivity; discriminate.
Defined.

(** Witness for X23: Node. *)
Lemma anonymous_id_is_not_kept_without_localStorage_witness :
  let make uuid w :=
    constructor_anonymousId Z parse_example stringify_example (fun _ => true)
      unit (fun _ _ => Null) (fun _ _ c => c)
      (fst (Platform.getPlatform None nodejs)) false "analytics_anonymous_id" uuid w in
  let w := mkWorld unit Missing NotInstalled tt in
  fst (make "id-2"%string (snd (snd (make "id-1"%string w)))) = Normal (LText Z "id-2").
Proof.
  intros make w.
  destruct (anonymous_id_is_not_kept_without_localStorage Z parse_example stringify_example
              (fun _ => true) unit (fun _ _ => Null) (fun _ _ c => c)
              (fst (Platform.getPlatform None nodejs)) false
              "analytics_anonymous_id"%string "id-1"%string w eq_refl (or_introl eq_refl))
    as [_ Hw].
  destruct (anonymous_id_is_not_kept_without_localStorage Z parse_example stringify_example
              (fun _ => true) unit (fun _ _ => Null) (fun _ _ c => c)
              (fst (Platform.getPlatform None nodejs)) false
              "analytics_anonymous_id"%string "id-2"%string w eq_refl (or_introl eq_refl))
    as [H _].
  subst make. cbv beta. rewrite Hw. exact H.
Defined.

End IdentityFacts.

(** * The events the public methods build *)

Module FacadeFacts.
Import Facade.

Lemma prop_put_same k v o : prop k (put k v o) = v.
Proof.
  induction o as [|[k' v'] o IH]; cbn [put prop].
  - now rewrite String.eqb_refl.
  - destruct (String.eqb k' k) eqn:E; cbn [prop]; rewrite ?String.eqb_refl, ?E; auto.
Qed.

Lemma prop_put_other k k' v o : k' <> k -> prop k' (put k v o) = prop k' o.
Proof.
  intros Hne. induction o as [|[k0 v0] o IH]; cbn [put prop].
  - destruct (String.eqb_spec k k'); [congruence | reflexivity].
  - destruct (String.eqb_spec k0 k) as [-> | Hk]; cbn [prop].
    + destruct (String.eqb_spec k k'); [congruence | reflexivity].
    + destruct (String.eqb k0 k'); [reflexivity | exact IH].
Qed.

(** A spread property wins over the one already there; the last
    definition of a name among the spread ones counts. *)
Lemma prop_spread k v : forall target,
  prop k (spread target v)
  = match last_defined k (own_props v) with
    | Some w => w
    | None => prop k target
    end.
Proof.
  unfold spread. induction (own_props v) as [|[k0 v0] o IH]; intros target;
    cbn [fold_left last_defined fst snd]; [reflexivity|].
  rewrite IH. destruct (last_defined k o); [reflexivity|].
  destruct (String.eqb_spec k0 k) as [-> | Hk].
  - apply prop_put_same.
  - now apply prop_put_other.
Qed.

(** What [buildBaseEvent] returns when it returns. *)
Lemma buildBaseEvent_normal env options a base :
  buildBaseEvent env options a = Normal base ->
  exists timestamp,
    base = [("userId", or (option_field options "userId") (_userId a));
            ("anonymousId", or (option_field options "anonymousId") (_anonymousId a));
            ("context", Jobject (spread (spread [] (defaultContext env))
                                        (option_field options "context")));
            ("timestamp", Jstring timestamp);
            ("messageId", Jstring (nextMessageId env))]%string
    /\ (if truthy (option_field options "timestamp")
        then toISOString env (option_field options "timestamp") = Normal timestamp
        else timestamp = nowISO env).
Proof.
  unfold buildBaseEvent.
  destruct options as [| |b|n|s|fields]; cbn [member bind option_field prop truthy];
    try discriminate.
  all: try (intros H; inversion H; subst; eexists; split; reflexivity).
  destruct (truthy (prop "timestamp" fields)).
  - destruct (toISOString env (prop "timestamp" fields)) as [ts|err] eqn:E;
      cbn [bind]; [|discriminate].
    intros H. inversion H; subst. now exists ts.
  - cbn [bind]. intros H. inversion H; subst. now eexists.
Qed.

Ltac read_props :=
  unfold spread; cbn [own_props fold_left fst snd put prop String.eqb Ascii.eqb Bool.eqb].

(** X24.  The event [alias(userId, ...)] builds does not carry the user
    id it is given: its [userId] is the one of [buildBaseEvent], that is
    [options.userId] or else the user id the instance had before the
    call, spread over the argument; [undefined] for a user not yet
    identified.  The argument becomes the user id of the instance, and
    is stored, only after the event is built.  [previousId] defaults to
    the anonymous id. *)
Theorem alias_event_keeps_the_old_user_id :
  forall env userId previousId options a ev a',
    alias env userId previousId options a = (Normal ev, a') ->
    prop "type" ev = Jstring "alias"
    /\ prop "userId" ev = or (option_field options "userId") (_userId a)
    /\ prop "previousId" ev = or previousId (_anonymousId a)
    /\ _userId a' = userId
    /\ storage a' = storage a ++ [StorageSet (userIdKey a) userId]
    /\ (option_field options "userId" = Jundefined -> _userId a = Jundefined ->
        prop "userId" ev = Jundefined).
Proof.
  intros env userId previousId options a ev a' H. unfold alias in H.
  destruct (buildBaseEvent env options a) as [base|err] eqn:E; [|discriminate].
  destruct (buildBaseEvent_normal _ _ _ _ E) as (ts & -> & _).
  inversion H; subst. read_props. repeat split.
  intros -> ->. reflexivity.
Qed.

(** Witness for X24: the first [alias] of a user not yet identified. *)
Lemma alias_event_keeps_the_old_user_id_witness :
  let r := alias testEnv (Jstring "new-user-id") Jundefined Jundefined anonymous in
  (exists ev, fst r = Normal ev /\ prop "userId" ev = Jundefined
              /\ prop "previousId" ev = Jstring "11111111-1111-4111-8111-111111111111")
  /\ _userId (snd r) = Jstring "new-user-id".
Proof.
  intros r. destruct r as [[ev|err] a'] eqn:E; [|discriminate].
  destruct (alias_event_keeps_the_old_user_id _ _ _ _ _ _ _ E)
    as (_ & Hu & Hp & Ha & _).
  split; [|exact Ha]. exists ev. now repeat split.
Defined.

(** X25.  [identify(userId, traits, options)]: without a user id the
    current one is used; a user id that is given replaces the current one
    and is stored; the event carries that user id whatever
    [options.userId] says; given traits are merged over the current ones,
    name by name, the merged traits are stored, and the event carries
    them, not only the given ones.  The storage is told nothing else:
    the user id if there is one, then the traits if some were given. *)
Theorem identify_merges_and_overrides :
  forall env userId traits options a ev a',
    identify env userId traits options a = (Normal ev, a') ->
    let effective :=
      if negb (truthy userId) && truthy (_userId a) then _userId a else userId in
    prop "type" ev = Jstring "identify"
    /\ prop "userId" ev = effective
    /\ prop "traits" ev = _traits a'
    /\ _userId a' = (if truthy effective then effective else _userId a)
    /\ storage a'
       = storage a
         ++ (if truthy effective then [StorageSet (userIdKey a) effective] else [])
         ++ (if truthy traits then [StorageSet "analytics_traits" (_traits a')] else [])
    /\ (truthy traits = false -> _traits a' = _traits a)
    /\ (truthy traits = true ->
        forall k, prop k (own_props (_traits a'))
                  = match last_defined k (own_props traits) with
                    | Some v => v
                    | None => match last_defined k (own_props (_traits a)) with
                              | Some v => v
                              | None => Jundefined
                              end
                    end).
Proof.
  intros env userId traits options a ev a' H. cbv zeta. unfold identify in H.
  set (effective := if negb (truthy userId) && truthy (_userId a) then _userId a else userId)
    in *.
  set (a1 := if truthy effective then _ else a) in *.
  set (a2 := if truthy traits then _ else a1) in *.
  destruct (buildBaseEvent env options a2) as [base|err] eqn:E; [|discriminate].
  destruct (buildBaseEvent_normal _ _ _ _ E) as (ts & -> & _).
  cbn [bind] in H. inversion H; subst ev a'. clear H.
  assert (H1 : _userId a1 = (if truthy effective then effective else _userId a)
               /\ _traits a1 = _traits a)
    by (subst a1; now destruct (truthy effective)).
  destruct H1 as [Hu Ht].
  assert (H2 : _userId a2 = _userId a1) by (subst a2; now destruct (truthy traits)).
  split; [reflexivity|]. split; [reflexivity|].
  split; [reflexivity|]. split; [congruence|]. split; [|split].
  - subst a2 a1.
    destruct (truthy effective), (truthy traits);
      cbn [storage storage_call set_userId set_traits _traits userIdKey];
      rewrite <- ?app_assoc, ?app_nil_r; reflexivity.
  - intros Hf. subst a2. now rewrite Hf.
  - intros Hf k. subst a2. rewrite Hf. cbn [_traits set_traits storage_call own_props].
    rewrite prop_spread, prop_spread, Ht. reflexivity.
Qed.

(** Witness for X25: a second [identify] without user id adds a trait. *)
Lemma identify_merges_and_overrides_witness :
  let first := snd (identify testEnv (Jstring "user-123")
                      (Jobject [("email", Jstring "test@test.com")]%string)
                      Jundefined anonymous) in
  let second := identify testEnv Jundefined
                  (Jobject [("name", Jstring "John")]%string)
                  (Jobject [("userId", Jstring "someone-else")]%string) first in
  exists ev, fst second = Normal ev
             /\ prop "userId" ev = Jstring "user-123"
             /\ prop "email" (own_props (prop "traits" ev)) = Jstring "test@test.com"
             /\ prop "name" (own_props (prop "traits" ev)) = Jstring "John".
Proof.
  intros first second. destruct second as [[ev|err] a'] eqn:E; [|discriminate].
  unfold second in E.
  destruct (identify_merges_and_overrides _ _ _ _ _ _ _ E)
    as (_ & Hu & Ht & _ & _ & _ & Hm).
  exists ev. split; [reflexivity|]. split; [exact Hu|].
  rewrite Ht. split; rewrite (Hm eq_refl); reflexivity.
Defined.

(** X26.  The events of [track], [screen] and [group] carry the identity
    of the instance unless the options say otherwise: [userId] is
    [options.userId] if that is truthy (an empty string is not) and the
    current user id otherwise, [anonymousId] likewise; they carry the
    next message id and a timestamp, and the kind of the method.  The
    instance is left as it was. *)
Theorem events_carry_the_identity :
  forall env x y z options a ev a' kind,
    (kind = "track"%string /\ track env x y options a = (Normal ev, a'))
    \/ (kind = "screen"%string /\ screen env x y z options a = (Normal ev, a'))
    \/ (kind = "group"%string /\ group env x y options a = (Normal ev, a')) ->
    a' = a
    /\ prop "type" ev = Jstring kind
    /\ prop "userId" ev = or (option_field options "userId") (_userId a)
    /\ prop "anonymousId" ev = or (option_field options "anonymousId") (_anonymousId a)
    /\ prop "messageId" ev = Jstring (nextMessageId env)
    /\ exists timestamp, prop "timestamp" ev = Jstring timestamp.
Proof.
  intros env x y z options a ev a' kind H.
  assert (Hbase : exists base lit,
            buildBaseEvent env options a = Normal base
            /\ ev = spread lit (Jobject base) /\ a' = a
            /\ prop "type" lit = Jstring kind
            /\ prop "userId" lit = Jundefined /\ prop "anonymousId" lit = Jundefined
            /\ prop "messageId" lit = Jundefined /\ prop "timestamp" lit = Jundefined).
  { destruct H as [[-> H] | [[-> H] | [-> H]]];
      unfold track, screen, group in H;
      destruct (buildBaseEvent env options a) as [base|err] eqn:E; try discriminate;
      cbn [bind] in H; inversion H; subst; eexists; eexists;
      (split; [reflexivity|]); (split; [reflexivity|]); now repeat split. }
  destruct Hbase as (base & lit & E & -> & -> & Hty & _).
  destruct (buildBaseEvent_normal _ _ _ _ E) as (ts & -> & _).
  split; [reflexivity|]. rewrite !prop_spread. cbn [own_props last_defined String.eqb
    Ascii.eqb Bool.eqb]. rewrite Hty. repeat split. now exists ts.
Qed.

(** Witness for X26: a [track] with an empty [options.userId] after an
    [identify]. *)
Lemma events_carry_the_identity_witness :
  let a := snd (identify testEnv (Jstring "user-123") Jundefined Jundefined anonymous) in
  let r := track testEnv (Jstring "Test Event") Jundefined
                 (Jobject [("userId", Jstring "")]%string) a in
  exists ev, fst r = Normal ev /\ prop "userId" ev = Jstring "user-123".
Proof.
  intros a r. destruct r as [[ev|err] a'] eqn:E; [|discriminate]. unfold r in E.
  destruct (events_carry_the_identity testEnv _ _ Jundefined _ _ _ _ "track"%string
              (or_introl (conj eq_refl E))) as (_ & _ & Hu & _).
  exists ev. split; [reflexivity | exact Hu].
Defined.

(** X27.  The argument shifts of [page]: an object in first place, or in
    second place with no properties, is taken for the options; of two
    objects the first wins; and [null] in second place, being an object
    for [typeof], ends up as options and makes the call fail. *)
Theorem page_shifts_its_arguments :
  forall env name o options a,
    typeof_object name = false ->
    page env (Jobject o) Jundefined Jundefined options a
    = page env Jundefined Jundefined Jundefined (Jobject o) a
    /\ page env name (Jobject o) Jundefined options a
       = page env name Jundefined Jundefined (Jobject o) a
    /\ (forall o2, page env (Jobject o) (Jobject o2) Jundefined options a
                   = page env Jundefined Jundefined Jundefined (Jobject o) a)
    /\ page env name Jnull Jundefined options a
       = (Throw "TypeError: Cannot read properties"%string, a).
Proof.
  intros env name o options a Hname. unfold page.
  cbn [typeof_object truthy negb andb]. rewrite Hname. cbn [andb].
  repeat split.
Qed.

(** Witness for X27: [page("Home", { userId: "u-1" })]. *)
Lemma page_shifts_its_arguments_witness :
  exists ev,
    fst (page testEnv (Jstring "Home") (Jobject [("userId", Jstring "u-1")]%string)
              Jundefined Jundefined anonymous) = Normal ev
    /\ prop "userId" ev = Jstring "u-1" /\ prop "category" ev = Jundefined.
Proof.
  destruct (page_shifts_its_arguments testEnv (Jstring "Home")
              [("userId", Jstring "u-1")]%string Jundefined anonymous eq_refl)
    as (_ & -> & _).
  eexists. split; [reflexivity|]. now split.
Defined.

(** X28.  [reset()] forgets the user: the next event carries no user id
    and the new anonymous id; the traits are empty; and the storage is
    told to remove the user id and the traits and to keep the new
    anonymous id. *)
Theorem reset_forgets_the_user :
  forall env env' x y a ev a',
    track env' x y Jundefined (reset env a) = (Normal ev, a') ->
    prop "userId" ev = Jundefined
    /\ prop "anonymousId" ev = Jstring (nextUuid env)
    /\ prop "traits" (user (reset env a)) = Jobject []
    /\ storage (reset env a)
       = storage a ++ [StorageRemove (userIdKey a); StorageRemove "analytics_traits";
                       StorageSet (anonymousIdKey a) (Jstring (nextUuid env))].
Proof.
  intros env env' x y a ev a' H. unfold track in H.
  destruct (buildBaseEvent env' Jundefined (reset env a)) as [base|err] eqn:E;
    [|discriminate].
  destruct (buildBaseEvent_normal _ _ _ _ E) as (ts & -> & _).
  cbn [bind] in H. inversion H; subst. now repeat split.
Qed.

(** Witness for X28: [identify], [reset], [track]. *)
Lemma reset_forgets_the_user_witness :
  let a := snd (identify testEnv (Jstring "user-123") Jundefined Jundefined anonymous) in
  exists ev,
    fst (track testEnv (Jstring "Test Event") Jundefined Jundefined (reset testEnv a))
    = Normal ev
    /\ prop "userId" ev = Jundefined
    /\ prop "anonymousId" ev = Jstring "22222222-2222-4222-8222-222222222222".
Proof.
  intros a.
  destruct (track testEnv (Jstring "Test Event") Jundefined Jundefined (reset testEnv a))
    as [[ev|err] a'] eqn:E; [|discriminate].
  destruct (reset_forgets_the_user _ _ _ _ _ _ _ E) as (Hu & Ha & _).
  exists ev. now repeat split.
Defined.

(** X29.  When a method fails before it has an event: [track] (and with
    it every method built on [buildBaseEvent]) throws exactly when the
    options are [null], or carry a truthy timestamp that is not a valid
    date. *)
Theorem track_fails_on_null_options_or_invalid_date :
  forall env x y options a,
    (exists err, fst (track env x y options a) = Throw err)
    <-> options = Jnull
        \/ (truthy (option_field options "timestamp") = true
            /\ exists err, toISOString env (option_field options "timestamp") = Throw err).
Proof.
  intros env x y options a. unfold track, buildBaseEvent.
  destruct options as [| |b|n|s|fields];
    cbn [member bind option_field prop truthy fst]; split;
    try (intros [err H]; discriminate H);
    try (intros [H | [H _]]; discriminate H).
  - intros _. now left.
  - intros _. now eexists.
  - intros [err H]. right.
    destruct (truthy (prop "timestamp" fields)); [|discriminate H]. split; [reflexivity|].
    destruct (toISOString env (prop "timestamp" fields)) as [ts|e]; [discriminate H|].
    now exists e.
  - intros [H | [Ht [err H]]]; [discriminate H|].
    rewrite Ht, H. cbn [bind fst]. now exists err.
Qed.

(** Witness for X29: an invalid timestamp. *)
Lemma track_fails_on_null_options_or_invalid_date_witness :
  exists err,
    fst (track testEnv (Jstring "Test Event") Jundefined
               (Jobject [("timestamp", Jstring "not a date")]%string) anonymous)
    = Throw err.
Proof.
  apply track_fails_on_null_options_or_invalid_date.
  right. split; [reflexivity|]. now eexists.
Defined.

End FacadeFacts.
